(** * Call graph validation, loading and query engine

    A shallow embedding of the core of callgraph-ui:
    - [callgraph/model/callgraph.py]   the document model and [CallGraph.from_dict],
    - [callgraph/validate/validator.py] [validate_callgraph],
    - [callgraph/schema/ddl.py], [ladybugdb.py], [callgraph/loader/db.py]
      the storage gateway over the embedded SQL engine,
    - [callgraph/loader/writer.py]      [Writer.load_callgraph] and its steps,
    - [callgraph/queries/api.py]        the read queries.

    Python dictionaries that are only looked up are [gmap]s, Python sets are
    [gset]s, dictionaries that are iterated keep their insertion order in an
    association list.  Code that can raise returns a [result]; code that
    works on the database connection is a function of the connection state. *)

From Stdlib Require Import ZArith String Ascii List Bool DecimalString.
From stdpp Require Import base option list relations gmap strings sorting.

Local Open Scope string_scope.
Local Open Scope Z_scope.

(** ** Python exceptions and results *)

(** The exceptions the modelled code can raise.  A pydantic validation error
    carries the model name and, per failing field, its location and message;
    [ValidationError] is the validator's own exception class. *)
Inductive PyExc : Type :=
| PydanticValidationError (model : string) (errors : list (string * string))
| ValidationError (msg : string)
| AttributeError (msg : string)
| OperationalError (msg : string)
| OverflowError (msg : string).

Inductive result (A : Type) : Type :=
| Ok (a : A)
| Raise (e : PyExc).
Arguments Ok {A} a.
Arguments Raise {A} e.

Definition rbind {A B} (r : result A) (k : A -> result B) : result B :=
  match r with Ok a => k a | Raise e => Raise e end.

(** [for x in xs: out.append(f(x))] where [f] may raise: the first exception
    leaves the loop. *)
Fixpoint rmap {A B} (f : A -> result B) (xs : list A) : result (list B) :=
  match xs with
  | [] => Ok []
  | x :: xs' => rbind (f x) (fun y => rbind (rmap f xs') (fun ys => Ok (y :: ys)))
  end.

(** [xs.append(x)] *)
Definition append {A} (xs : list A) (x : A) : list A := (xs ++ [x])%list.

(** ** Strings

    A Python [str] is a Rocq [string] whose characters are the code points
    0..255. *)

(** [str.isspace] on one character, for the code points 0..255:
    9-13, 28-32, 133 and 160. *)
Definition isspace (c : ascii) : bool :=
  let n := nat_of_ascii c in
  ((9 <=? n)%nat && (n <=? 13)%nat) || ((28 <=? n)%nat && (n <=? 32)%nat)
  || (n =? 133)%nat || (n =? 160)%nat.

Fixpoint lstrip (s : string) : string :=
  match s with
  | EmptyString => EmptyString
  | String c s' => if isspace c then lstrip s' else s
  end.

Fixpoint rstrip (s : string) : string :=
  match s with
  | EmptyString => EmptyString
  | String c s' =>
      match rstrip s' with
      | EmptyString => if isspace c then EmptyString else String c EmptyString
      | r => String c r
      end
  end.

(** [str.strip()] with no argument. *)
Definition strip (s : string) : string := rstrip (lstrip s).

Definition str_nonempty (s : string) : bool :=
  match s with EmptyString => false | String _ _ => true end.

(** [sep.join(parts)] *)
Fixpoint join (sep : string) (parts : list string) : string :=
  match parts with
  | [] => ""
  | [p] => p
  | p :: rest => p ++ sep ++ join sep rest
  end.

(** Every character is white space (so is the empty string). *)
Fixpoint all_space (s : string) : bool :=
  match s with
  | EmptyString => true
  | String c s' => isspace c && all_space s'
  end.

Definition head_char (s : string) : option ascii :=
  match s with EmptyString => None | String c _ => Some c end.

Fixpoint last_char (s : string) : option ascii :=
  match s with
  | EmptyString => None
  | String c EmptyString => Some c
  | String _ s' => last_char s'
  end.

(** A non-empty string that neither starts nor ends with white space. *)
Definition trimmed (s : string) : Prop :=
  s <> EmptyString
  /\ (forall c, head_char s = Some c -> isspace c = false)
  /\ (forall c, last_char s = Some c -> isspace c = false).

(** [needle in hay] for strings. *)
Definition contains (needle hay : string) : bool :=
  match String.index 0 needle hay with Some _ => true | None => false end.

(** ** Document model: callgraph/model/callgraph.py *)

Module Model.

(** The three [not_empty] field validators have the same body. *)
Definition not_empty (v : string) : string + string :=
  if negb (str_nonempty v) || negb (str_nonempty (strip v))
  then inl "Value error, Field cannot be empty"
  else inr (strip v).

(** [CallSite.valid_line] *)
Definition valid_line (v : option Z) : string + option Z :=
  match v with
  | Some n => if n <? 1 then inl "Value error, Line number must be positive" else inr v
  | None => inr v
  end.

Record Function : Type := mkFunction {
  f_id : string;
  f_name : string;
  f_file : option string;
  f_signature : option string
}.

Record CallSite : Type := mkCallSite {
  cs_id : string;
  cs_caller : string;
  cs_callee : string;
  cs_file : option string;
  cs_line : option Z
}.

Record Edge : Type := mkEdge {
  e_caller : string;
  e_callee : string;
  e_callsite_id : option string
}.

Record CallGraph : Type := mkCallGraph {
  functions : list Function;
  callsites : list CallSite;
  edges : list Edge
}.

#[global] Instance Function_eq_dec : EqDecision Function.
Proof. solve_decision. Defined.
#[global] Instance CallSite_eq_dec : EqDecision CallSite.
Proof. solve_decision. Defined.
#[global] Instance Edge_eq_dec : EqDecision Edge.
Proof. solve_decision. Defined.

(** *** Keyword arguments as pydantic receives them

    A scalar JSON value of a text member.  The [line] member of a call site
    is kept apart, already as the integer pydantic hands to [valid_line]
    ([None] when the member is absent or null). *)
Inductive jval : Type := JNull | JStr (s : string) | JInt (n : Z).

(** A keyword argument: absent from the call, or present with a value. *)
Definition kwarg := option jval.

(** pydantic collects the errors of all fields of a model before raising. *)
Definition field_errors (checks : list (string * option string)) : list (string * string) :=
  omap (fun '(loc, err) => match err with Some msg => Some (loc, msg) | None => None end) checks.

Definition err_of {A} (r : string + A) : option string :=
  match r with inl msg => Some msg | inr _ => None end.

(** A required [str] field: type validation, then the field validator. *)
Definition required_str (validator : string -> string + string) (a : kwarg) : string + string :=
  match a with
  | None => inl "Field required"
  | Some (JStr s) => validator s
  | Some _ => inl "Input should be a valid string"
  end.

(** An [Optional[str]] field with default [None] and no validator. *)
Definition optional_str (a : kwarg) : string + option string :=
  match a with
  | None | Some JNull => inr None
  | Some (JStr s) => inr (Some s)
  | Some (JInt _) => inl "Input should be a valid string"
  end.

(** [Function(id=.., name=.., file=.., signature=..)] *)
Definition new_Function (id name file signature : kwarg) : result Function :=
  match required_str not_empty id, required_str not_empty name,
        optional_str file, optional_str signature with
  | inr i, inr n, inr f, inr s => Ok (mkFunction i n f s)
  | ri, rn, rf, rs =>
      Raise (PydanticValidationError "Function"
        (field_errors [("id", err_of ri); ("name", err_of rn);
                       ("file", err_of rf); ("signature", err_of rs)]))
  end.

(** [CallSite(id=.., caller=.., callee=.., file=.., line=..)] *)
Definition new_CallSite (id caller callee file : kwarg) (line : option Z) : result CallSite :=
  match required_str not_empty id, required_str not_empty caller,
        required_str not_empty callee, optional_str file, valid_line line with
  | inr i, inr c1, inr c2, inr f, inr l => Ok (mkCallSite i c1 c2 f l)
  | ri, rc1, rc2, rf, rl =>
      Raise (PydanticValidationError "CallSite"
        (field_errors [("id", err_of ri); ("caller", err_of rc1); ("callee", err_of rc2);
                       ("file", err_of rf); ("line", err_of rl)]))
  end.

(** [Edge(caller=.., callee=.., callsite_id=..)] *)
Definition new_Edge (caller callee callsite_id : kwarg) : result Edge :=
  match required_str not_empty caller, required_str not_empty callee,
        optional_str callsite_id with
  | inr c1, inr c2, inr i => Ok (mkEdge c1 c2 i)
  | rc1, rc2, ri =>
      Raise (PydanticValidationError "Edge"
        (field_errors [("caller", err_of rc1); ("callee", err_of rc2);
                       ("callsite_id", err_of ri)]))
  end.

(** *** The ingested document *)

(** A JSON object of the document: its text members and its [line]. *)
Record jobject : Type := mkObj {
  members : gmap string jval;
  line_member : option Z
}.

(** The document: a dictionary from top-level key to an array of objects. *)
Abbreviation document := (gmap string (list jobject)).

(** [d.get(k)]: the value, [None] (here [JNull]) when the key is absent. *)
Definition get (o : jobject) (k : string) : jval :=
  default JNull (members o !! k).

(** [d.get(k, d.get(k2))] *)
Definition get_alias (o : jobject) (k k2 : string) : jval :=
  default (get o k2) (members o !! k).

(** [Function] applied to the unpacked dictionary [f]: a key that is absent
    is an absent argument; members that are not fields of the model are
    ignored. *)
Definition parse_function (f : jobject) : result Function :=
  new_Function (members f !! "id") (members f !! "name")
               (members f !! "file") (members f !! "signature").

Definition parse_callsite (cs : jobject) : result CallSite :=
  new_CallSite (Some (get cs "id"))
               (Some (get_alias cs "caller" "caller_id"))
               (Some (get_alias cs "callee" "callee_id"))
               (Some (get cs "file"))
               (line_member cs).

Definition parse_edge (e : jobject) : result Edge :=
  new_Edge (Some (get_alias e "caller" "caller_id"))
           (Some (get_alias e "callee" "callee_id"))
           (Some (get e "callsite_id")).

(** [Edge(caller=cs.caller, callee=cs.callee, callsite_id=cs.id)] *)
Definition derive_edge (cs : CallSite) : result Edge :=
  new_Edge (Some (JStr (cs_caller cs))) (Some (JStr (cs_callee cs)))
           (Some (JStr (cs_id cs))).

(** The edge with the caller, callee and id of a call site. *)
Definition edge_of_callsite (cs : CallSite) : Edge :=
  mkEdge (cs_caller cs) (cs_callee cs) (Some (cs_id cs)).

(** [CallGraph.from_dict] *)
Definition from_dict (data : document) : result CallGraph :=
  let functions_data := default [] (data !! "functions") in
  let callsites_data := default (default [] (data !! "callSites")) (data !! "callsites") in
  let edges_data := default [] (data !! "edges") in
  rbind (rmap parse_function functions_data) (fun functions =>
  rbind (rmap parse_callsite callsites_data) (fun callsites =>
  rbind (match edges_data with
         | _ :: _ => rmap parse_edge edges_data
         | [] => rmap derive_edge callsites
         end) (fun edges =>
  Ok (mkCallGraph functions callsites edges)))).

End Model.

(** ** Whole-graph validation: callgraph/validate/validator.py *)

Module Validator.
Import Model.

(** The line feed of the multi-line messages. *)
Definition nl : string := String (ascii_of_nat 10) EmptyString.

(** [str(i)] for a list index. *)
Definition str_of_nat (i : nat) : string :=
  DecimalString.NilEmpty.string_of_uint (Nat.to_uint i).

(** The loop over [graph.functions]: the set of ids seen and the ids seen
    again, in order. *)
Definition function_step (st : gset string * list string) (func : Function)
  : gset string * list string :=
  let '(function_ids, duplicate_functions) := st in
  (function_ids ∪ {[ f_id func ]},
   if decide (f_id func ∈ function_ids)
   then append duplicate_functions (f_id func) else duplicate_functions).

Definition scan_functions (fs : list Function) : gset string * list string :=
  fold_left function_step fs (∅, []).

(** The two messages of the call-site loop. *)
Definition caller_message (cs : CallSite) : string :=
  "Callsite " ++ cs_id cs ++ ": caller '" ++ cs_caller cs ++ "' not found".

Definition callee_message (cs : CallSite) : string :=
  "Callsite " ++ cs_id cs ++ ": callee '" ++ cs_callee cs ++ "' not found".

(** The loop over [graph.callsites]: ids seen, duplicate ids, and the
    messages for callers and callees that are no function id. *)
Definition callsite_step (function_ids : gset string)
    (st : gset string * list string * list string) (cs : CallSite)
  : gset string * list string * list string :=
  let '(callsite_ids, duplicate_callsites, invalid_callsite_refs) := st in
  let refs1 :=
    if decide (cs_caller cs ∈ function_ids) then invalid_callsite_refs
    else append invalid_callsite_refs (caller_message cs) in
  let refs2 :=
    if decide (cs_callee cs ∈ function_ids) then refs1
    else append refs1 (callee_message cs) in
  (callsite_ids ∪ {[ cs_id cs ]},
   if decide (cs_id cs ∈ callsite_ids)
   then append duplicate_callsites (cs_id cs) else duplicate_callsites,
   refs2).

Definition scan_callsites (function_ids : gset string) (css : list CallSite)
  : gset string * list string * list string :=
  fold_left (callsite_step function_ids) css (∅, [], []).

(** [edge.callsite_id and edge.callsite_id not in callsite_ids] *)
Definition dangling_callsite (callsite_ids : gset string) (e : Edge) : bool :=
  match e_callsite_id e with
  | Some c => str_nonempty c && negb (bool_decide (c ∈ callsite_ids))
  | None => false
  end.

(** The loop over [enumerate(graph.edges)]. *)
Definition edge_step (function_ids callsite_ids : gset string)
    (st : nat * list string) (edge : Edge) : nat * list string :=
  let '(i, invalid_edge_refs) := st in
  let r1 :=
    if decide (e_caller edge ∈ function_ids) then invalid_edge_refs
    else append invalid_edge_refs
         ("Edge " ++ str_of_nat i ++ ": caller '" ++ e_caller edge ++ "' not found") in
  let r2 :=
    if decide (e_callee edge ∈ function_ids) then r1
    else append r1
         ("Edge " ++ str_of_nat i ++ ": callee '" ++ e_callee edge ++ "' not found") in
  let r3 :=
    if dangling_callsite callsite_ids edge
    then append r2 ("Edge " ++ str_of_nat i ++ ": callsite '"
                    ++ default "" (e_callsite_id edge) ++ "' not found")
    else r2 in
  (S i, r3).

Definition scan_edges (function_ids callsite_ids : gset string) (es : list Edge)
  : list string :=
  snd (fold_left (edge_step function_ids callsite_ids) es (0%nat, [])).

Definition nonempty {A} (l : list A) : bool :=
  match l with [] => false | _ :: _ => true end.

(** [validate_callgraph]: returns [None] or raises [ValidationError]. *)
Definition validate_callgraph (graph : CallGraph) : result unit :=
  if negb (nonempty (functions graph)) then
    Raise (ValidationError "Call graph must contain at least one function")
  else
    let '(function_ids, duplicate_functions) := scan_functions (functions graph) in
    if nonempty duplicate_functions then
      Raise (ValidationError
        ("Duplicate function IDs found: " ++ join ", " duplicate_functions))
    else
      let '(callsite_ids, duplicate_callsites, invalid_callsite_refs) :=
        scan_callsites function_ids (callsites graph) in
      if nonempty duplicate_callsites then
        Raise (ValidationError
          ("Duplicate callsite IDs found: " ++ join ", " duplicate_callsites))
      else if nonempty invalid_callsite_refs then
        Raise (ValidationError
          ("Invalid function references in callsites:" ++ nl
           ++ join nl invalid_callsite_refs))
      else
        let invalid_edge_refs := scan_edges function_ids callsite_ids (edges graph) in
        if nonempty invalid_edge_refs then
          Raise (ValidationError
            ("Invalid references in edges:" ++ nl ++ join nl invalid_edge_refs))
        else Ok tt.

(** *** What the loops accumulate

    The ids of a list that repeat an id seen before, in order, one entry
    per repeated occurrence. *)
Fixpoint repeats_from (seen : gset string) (ids : list string) : list string :=
  match ids with
  | [] => []
  | x :: rest =>
      if decide (x ∈ seen) then x :: repeats_from (seen ∪ {[ x ]}) rest
      else repeats_from (seen ∪ {[ x ]}) rest
  end.

Definition repeats (ids : list string) : list string := repeats_from ∅ ids.

(** The messages of one call site, and of one edge at index [i]. *)
Definition callsite_messages (function_ids : gset string) (cs : CallSite) : list string :=
  ((if decide (cs_caller cs ∈ function_ids) then [] else [caller_message cs])
   ++ (if decide (cs_callee cs ∈ function_ids) then [] else [callee_message cs]))%list.

Definition edge_caller_message (i : nat) (edge : Edge) : string :=
  "Edge " ++ str_of_nat i ++ ": caller '" ++ e_caller edge ++ "' not found".

Definition edge_callee_message (i : nat) (edge : Edge) : string :=
  "Edge " ++ str_of_nat i ++ ": callee '" ++ e_callee edge ++ "' not found".

Definition edge_callsite_message (i : nat) (edge : Edge) : string :=
  "Edge " ++ str_of_nat i ++ ": callsite '" ++ default "" (e_callsite_id edge)
  ++ "' not found".

Definition edge_messages (function_ids callsite_ids : gset string) (i : nat) (edge : Edge)
  : list string :=
  ((if decide (e_caller edge ∈ function_ids) then [] else [edge_caller_message i edge])
   ++ (if decide (e_callee edge ∈ function_ids) then [] else [edge_callee_message i edge])
   ++ (if dangling_callsite callsite_ids edge then [edge_callsite_message i edge] else []))%list.

(** The five conditions on a graph: a function exists; function ids and
    call-site ids are distinct; every call site and every edge names
    existing functions; and a call-site id of an edge that is neither absent
    nor the empty string is the id of a call site. *)
Definition valid_graph (graph : CallGraph) : Prop :=
  functions graph <> []
  /\ NoDup (f_id <$> functions graph)
  /\ NoDup (cs_id <$> callsites graph)
  /\ (forall cs, cs ∈ callsites graph ->
        cs_caller cs ∈ (f_id <$> functions graph)
        /\ cs_callee cs ∈ (f_id <$> functions graph))
  /\ (forall e, e ∈ edges graph ->
        e_caller e ∈ (f_id <$> functions graph)
        /\ e_callee e ∈ (f_id <$> functions graph)
        /\ forall c, e_callsite_id e = Some c -> c <> EmptyString ->
             c ∈ (cs_id <$> callsites graph)).

End Validator.

(** ** The embedded engine: ladybugdb.py over sqlite3, schema of callgraph/schema/ddl.py *)

Module Engine.

(** Rows of the three tables of [DB_SCHEMA].  The surrogate [id] of [edges]
    is left out: no statement of the writer or of the query layer reads or
    sets it; a table is the list of its rows in rowid order, which can hold
    equal rows. *)
Record FunctionRow : Type := mkFunctionRow {
  fn_id : string;
  fn_name : string;
  fn_file : option string;
  fn_signature : option string
}.

Record CallSiteRow : Type := mkCallSiteRow {
  csr_id : string;
  csr_caller_function_id : string;
  csr_callee_function_id : string;
  csr_file : option string;
  csr_line : option Z
}.

Record EdgeRow : Type := mkEdgeRow {
  er_caller_function_id : string;
  er_callee_function_id : string;
  er_callsite_id : option string;
  er_depth : option Z
}.

#[global] Instance FunctionRow_eq_dec : EqDecision FunctionRow.
Proof. solve_decision. Defined.
#[global] Instance CallSiteRow_eq_dec : EqDecision CallSiteRow.
Proof. solve_decision. Defined.
#[global] Instance EdgeRow_eq_dec : EqDecision EdgeRow.
Proof. solve_decision. Defined.

(** The database file: each table is absent until [init_schema] creates it. *)
Record Tables : Type := mkTables {
  t_functions : option (list FunctionRow);
  t_callsites : option (list CallSiteRow);
  t_edges : option (list EdgeRow)
}.

(** A connection: the committed database, and the database as the statements
    of this connection see it (with the changes of the open transaction). *)
Record Connection : Type := mkConnection {
  committed : Tables;
  current : Tables
}.

(** [sqlite3.connect] on a database file: no transaction is open. *)
Definition connect (t : Tables) : Connection := mkConnection t t.

(** A prepared statement with its parameters bound: the new table state and
    the rows it returns, or the engine's error (the statement then changes
    nothing). *)
Definition statement (R : Type) : Type := Tables -> result (Tables * list R).

Definition no_such_table {A} (table : string) : result A :=
  Raise (OperationalError ("no such table: " ++ table)).

(** [INSERT ... ON CONFLICT(id) DO UPDATE SET <all other columns>]: the row
    with the same key is overwritten in place, otherwise the row is added. *)
Fixpoint upsert {R} (key : R -> string) (new : R) (rows : list R) : list R :=
  match rows with
  | [] => [new]
  | r :: rest =>
      if decide (key r = key new) then new :: rest
      else r :: upsert key new rest
  end.

(** The row a key designates: the first row of the table with that key. *)
Fixpoint lookup_key {R} (key : R -> string) (k : string) (rows : list R) : option R :=
  match rows with
  | [] => None
  | r :: rest => if decide (key r = k) then Some r else lookup_key key k rest
  end.

(** The row of a parameter tuple [(f.id, f.name, f.file, f.signature)]. *)
Definition function_row (p : string * string * option string * option string)
  : FunctionRow :=
  let '(id, name, file, signature) := p in mkFunctionRow id name file signature.

(** The statement of [Writer._insert_functions].  The foreign keys of the
    schema are not enforced: the connection never turns them on. *)
Definition sql_upsert_function
    (p : string * string * option string * option string) : statement unit :=
  fun t =>
    match t_functions t with
    | None => no_such_table "functions"
    | Some rows =>
        Ok (mkTables (Some (upsert fn_id (function_row p) rows))
                     (t_callsites t) (t_edges t), [])
    end.

(** The row of a parameter tuple [(cs.id, cs.caller, cs.callee, cs.file,
    cs.line)]. *)
Definition callsite_row (p : string * string * string * option string * option Z)
  : CallSiteRow :=
  let '(id, caller, callee, file, line) := p in mkCallSiteRow id caller callee file line.

(** An integer parameter is bound as a signed 64-bit value. *)
Definition fits_int64 (n : Z) : bool := (- 2 ^ 63 <=? n) && (n <? 2 ^ 63).

(** Whether an optional integer parameter can be bound: [None] is bound as
    NULL. *)
Definition binds (v : option Z) : bool :=
  match v with Some n => fits_int64 n | None => true end.

(** What the binding of a Python int outside that range raises. *)
Definition int_too_large : PyExc :=
  OverflowError "Python int too large to convert to SQLite INTEGER".

(** The statement of [Writer._insert_callsites].  The statement is prepared
    first, which fails when the table does not exist; then the parameters
    are bound, which fails on a line that does not fit 64 bits; then it
    runs. *)
Definition sql_upsert_callsite
    (p : string * string * string * option string * option Z) : statement unit :=
  fun t =>
    match t_callsites t with
    | None => no_such_table "callsites"
    | Some rows =>
        if binds (csr_line (callsite_row p))
        then Ok (mkTables (t_functions t)
                          (Some (upsert csr_id (callsite_row p) rows))
                          (t_edges t), [])
        else Raise int_too_large
    end.

(** [depth INTEGER NOT NULL] of the [edges] table. *)
Definition not_null {A} (v : option A) : bool :=
  match v with Some _ => true | None => false end.

(** The statement of [Writer._insert_edges],
    [INSERT OR IGNORE INTO edges (caller_function_id, callee_function_id,
    callsite_id)].  The table has no uniqueness constraint besides its
    surrogate key.  The column [depth] is not listed and has no default, so
    the new row carries NULL there; [depth] is declared NOT NULL, and with
    OR IGNORE a row that violates a NOT NULL constraint is skipped without
    an error. *)
Definition sql_insert_or_ignore_edge
    (p : string * string * option string) : statement unit :=
  fun t =>
    let '(caller, callee, callsite_id) := p in
    match t_edges t with
    | None => no_such_table "edges"
    | Some rows =>
        let new := mkEdgeRow caller callee callsite_id None in
        if not_null (er_depth new)
        then Ok (mkTables (t_functions t) (t_callsites t) (Some (rows ++ [new])%list), [])
        else Ok (t, [])
    end.

(** The [WHERE] clause of the root query. *)
Definition matches_root (root_function : string) (r : FunctionRow) : Prop :=
  fn_id r = root_function \/ fn_name r = root_function.

#[global] Instance matches_root_dec root_function r :
  Decision (matches_root root_function r).
Proof. unfold matches_root. apply _. Defined.

(** [SELECT id FROM functions WHERE id = ? OR name = ?], both parameters
    bound to the same value: a scan of the table in rowid order. *)
Definition sql_select_root (root_function : string) : statement string :=
  fun t =>
    match t_functions t with
    | None => no_such_table "functions"
    | Some rows =>
        Ok (t, fn_id <$> filter (matches_root root_function) rows)
    end.

Definition edge_pair (r : EdgeRow) : string * string :=
  (er_caller_function_id r, er_callee_function_id r).

(** [SELECT caller_function_id, callee_function_id FROM edges] *)
Definition sql_select_edges : statement (string * string) :=
  fun t =>
    match t_edges t with
    | None => no_such_table "edges"
    | Some rows => Ok (t, edge_pair <$> rows)
    end.

(** A stored edge from [caller] to [callee], and a path of stored edges. *)
Definition edge_in (rows : list EdgeRow) (caller callee : string) : Prop :=
  exists r, r ∈ rows /\ er_caller_function_id r = caller
            /\ er_callee_function_id r = callee.

Definition path (rows : list EdgeRow) : string -> string -> Prop := rtc (edge_in rows).

(** The effect of the update of [_compute_depths] on one row. *)
Definition set_depth (p : Z * string * string) (r : EdgeRow) : EdgeRow :=
  let '(depth, caller, callee) := p in
  if decide (er_caller_function_id r = caller /\ er_callee_function_id r = callee)
  then mkEdgeRow (er_caller_function_id r) (er_callee_function_id r)
                 (er_callsite_id r) (Some depth)
  else r.

(** [UPDATE edges SET depth = ? WHERE caller_function_id = ? AND
    callee_function_id = ?] *)
Definition sql_update_depth (p : Z * string * string) : statement unit :=
  fun t =>
    match t_edges t with
    | None => no_such_table "edges"
    | Some rows =>
        Ok (mkTables (t_functions t) (t_callsites t) (Some (set_depth p <$> rows)), [])
    end.

(** What Python can bind to a name such as [cursor]: a cursor of the engine,
    or a built-in list of records. *)
Inductive pyobj (R : Type) : Type :=
| Cursor (rows : list R)
| PyList (records : list R).
Arguments Cursor {R} rows.
Arguments PyList {R} records.

(** [obj.fetchall()]: a method of cursors. *)
Definition fetchall {R} (obj : pyobj R) : result (list R) :=
  match obj with
  | Cursor rows => Ok rows
  | PyList _ => Raise (AttributeError "'list' object has no attribute 'fetchall'")
  end.

(** What the attribute lookup [fetchone] on a built-in list raises. *)
Definition fetchone_on_list : PyExc :=
  AttributeError "'list' object has no attribute 'fetchone'".

(** [obj.fetchone()]: a method of cursors; the built-in list has no such
    attribute, and looking it up raises. *)
Definition fetchone {R} (obj : pyobj R) : result (option R) :=
  match obj with
  | Cursor rows => Ok (head rows)
  | PyList _ => Raise fetchone_on_list
  end.

(** [for row in obj]: cursors and lists are both iterable. *)
Definition iterate {R} (obj : pyobj R) : list R :=
  match obj with Cursor rows => rows | PyList records => records end.

(** [Connection.execute]: runs the statement inside the open transaction. *)
Definition conn_execute {R} (stmt : statement R) (c : Connection)
  : result (pyobj R) * Connection :=
  match stmt (current c) with
  | Ok (t', rows) => (Ok (Cursor rows), mkConnection (committed c) t')
  | Raise e => (Raise e, c)
  end.

(** [Connection.commit] and [Connection.rollback]. *)
Definition conn_commit (c : Connection) : Connection :=
  mkConnection (current c) (current c).

Definition conn_rollback (c : Connection) : Connection :=
  mkConnection (committed c) (committed c).

End Engine.

(** ** Code that runs on a connection *)

(** A computation on the connection state that returns or raises. *)
Definition M (A : Type) : Type :=
  Engine.Connection -> result A * Engine.Connection.

Definition ret {A} (a : A) : M A := fun c => (Ok a, c).

Definition bind {A B} (m : M A) (k : A -> M B) : M B :=
  fun c => match m c with
           | (Ok a, c') => k a c'
           | (Raise e, c') => (Raise e, c')
           end.

(** A pure step that may raise. *)
Definition lift {A} (r : result A) : M A := fun c => (r, c).

(** [try: body  except Exception: handler; raise] *)
Definition try_except_reraise {A} (body : M A)
    (handler : Engine.Connection -> Engine.Connection) : M A :=
  fun c => match body c with
           | (Ok a, c') => (Ok a, c')
           | (Raise e, c') => (Raise e, handler c')
           end.

Notation "'do' x <- m 'in' k" := (bind m (fun x => k))
  (at level 10, x name, m at level 100, k at level 200).
Notation "'run' m 'in' k" := (bind m (fun _ => k))
  (at level 10, m at level 100, k at level 200).

(** ** Storage gateway: callgraph/loader/db.py *)

Module DB.
Import Engine.

(** [DB_SCHEMA] of ddl.py: three [CREATE TABLE IF NOT EXISTS] and three
    [CREATE INDEX IF NOT EXISTS] on [edges]. *)
Definition ddl_create_functions : statement unit :=
  fun t => Ok (mkTables (Some (default [] (t_functions t))) (t_callsites t) (t_edges t), []).

Definition ddl_create_callsites : statement unit :=
  fun t => Ok (mkTables (t_functions t) (Some (default [] (t_callsites t))) (t_edges t), []).

Definition ddl_create_edges : statement unit :=
  fun t => Ok (mkTables (t_functions t) (t_callsites t) (Some (default [] (t_edges t))), []).

Definition ddl_create_edges_index : statement unit :=
  fun t => match t_edges t with
           | None => no_such_table "main.edges"
           | Some _ => Ok (t, [])
           end.

Definition DB_SCHEMA : list (statement unit) :=
  [ddl_create_functions; ddl_create_callsites; ddl_create_edges;
   ddl_create_edges_index; ddl_create_edges_index; ddl_create_edges_index].

(** [DB.init_schema]: a statement that fails is logged and skipped. *)
Definition init_schema : M unit :=
  fun c =>
    (Ok tt, conn_commit (fold_left (fun c stmt => snd (conn_execute stmt c)) DB_SCHEMA c)).

(** [DB.execute]: the records of the result as a list; any exception of the
    [try] block is logged and an empty list is returned. *)
Definition execute {R} (stmt : statement R) : M (list R) :=
  fun c =>
    match conn_execute stmt c with
    | (Ok cursor, c') =>
        match fetchall cursor with
        | Ok rows => (Ok rows, c')
        | Raise _ => (Ok [], c')
        end
    | (Raise _, c') => (Ok [], c')
    end.

(** [DB.execute_write] *)
Definition execute_write {R} (stmt : statement R) : M unit :=
  fun c =>
    match conn_execute stmt c with
    | (Ok _, c') => (Ok tt, conn_commit c')
    | (Raise e, c') => (Raise e, c')
    end.

(** The loop of [DB.executemany]. *)
Fixpoint execute_each {P R} (stmt : P -> statement R) (params_list : list P) : M unit :=
  match params_list with
  | [] => ret tt
  | params :: rest =>
      fun c => match conn_execute (stmt params) c with
               | (Ok _, c') => execute_each stmt rest c'
               | (Raise e, c') => (Raise e, c')
               end
  end.

(** [DB.executemany]: every parameter set in turn, then a commit. *)
Definition executemany {P R} (stmt : P -> statement R) (params_list : list P) : M unit :=
  run execute_each stmt params_list in
  (fun c => (Ok tt, conn_commit c)).

Definition commit : M unit := fun c => (Ok tt, conn_commit c).
Definition rollback : M unit := fun c => (Ok tt, conn_rollback c).

End DB.

(** ** Writer: callgraph/loader/writer.py *)

Module Writer.
Import Model Engine.

Definition _insert_functions (functions : list Function) : M unit :=
  let params := (fun f => (f_id f, f_name f, f_file f, f_signature f)) <$> functions in
  DB.executemany sql_upsert_function params.

Definition _insert_callsites (callsites : list CallSite) : M unit :=
  match callsites with
  | [] => ret tt
  | _ :: _ =>
      let params :=
        (fun cs => (cs_id cs, cs_caller cs, cs_callee cs, cs_file cs, cs_line cs))
          <$> callsites in
      DB.executemany sql_upsert_callsite params
  end.

Definition _insert_edges (edges : list Edge) : M unit :=
  match edges with
  | [] => ret tt
  | _ :: _ =>
      let params := (fun e => (e_caller e, e_callee e, e_callsite_id e)) <$> edges in
      DB.executemany sql_insert_or_ignore_edge params
  end.

(** *** The adjacency dictionary, in insertion order *)

Definition adjacency_t : Type := list (string * list string).

(** [adjacency[caller]], when the key is present. *)
Fixpoint adj_get (adjacency : adjacency_t) (caller : string) : option (list string) :=
  match adjacency with
  | [] => None
  | (k, callees) :: rest => if decide (k = caller) then Some callees else adj_get rest caller
  end.

(** [if caller not in adjacency: adjacency[caller] = []] and then
    [adjacency[caller].append(callee)]. *)
Fixpoint adj_add (caller callee : string) (adjacency : adjacency_t) : adjacency_t :=
  match adjacency with
  | [] => [(caller, [callee])]
  | (k, callees) :: rest =>
      if decide (k = caller) then (k, append callees callee) :: rest
      else (k, callees) :: adj_add caller callee rest
  end.

Definition build_adjacency (rows : list (string * string)) : adjacency_t :=
  fold_left (fun adjacency '(caller, callee) => adj_add caller callee adjacency) rows [].

(** [callee] is in the list the dictionary holds for [caller]. *)
Definition calls (adjacency : adjacency_t) (caller callee : string) : Prop :=
  exists callees, adj_get adjacency caller = Some callees /\ callee ∈ callees.

(** There is a path of calls from [root_id]. *)
Definition reachable (adjacency : adjacency_t) (root_id : string) : string -> Prop :=
  rtc (calls adjacency) root_id.

(** *** Breadth-first traversal *)

(** The body of [for neighbor in adjacency[current]]. *)
Definition visit (current_depth : Z) (st : gmap string Z * list string)
    (neighbor : string) : gmap string Z * list string :=
  let '(depths, queue) := st in
  match depths !! neighbor with
  | None => (<[neighbor := current_depth + 1]> depths, append queue neighbor)
  | Some _ => st
  end.

(** [while queue: ...], at most [fuel] iterations.  [depths[current]] cannot
    fail: a node is given a depth before it is queued. *)
Fixpoint bfs_loop (fuel : nat) (adjacency : adjacency_t)
    (depths : gmap string Z) (queue : list string) : gmap string Z * list string :=
  match fuel with
  | O => (depths, queue)
  | S fuel' =>
      match queue with
      | [] => (depths, [])
      | current :: queue' =>
          let current_depth := depths !!! current in
          let '(depths', queue'') :=
            match adj_get adjacency current with
            | Some neighbors => fold_left (visit current_depth) neighbors (depths, queue')
            | None => (depths, queue')
            end in
          bfs_loop fuel' adjacency depths' queue''
      end
  end.

(** The callees of the dictionary, and the work the loop has left: the
    queued nodes and the callees without a depth. *)
Definition all_callees (adjacency : adjacency_t) : gset string :=
  list_to_set (concat (snd <$> adjacency)).

Definition work_left (adjacency : adjacency_t) (st : gmap string Z * list string) : nat :=
  (length st.2 + size (all_callees adjacency ∖ dom st.1))%nat.

(** Every node is queued at most once, and only the root and callees are
    queued: one iteration more than there are callees is enough. *)
Definition bfs_fuel (adjacency : adjacency_t) : nat :=
  S (length (concat (snd <$> adjacency))).

Definition bfs (adjacency : adjacency_t) (root_id : string) : gmap string Z :=
  fst (bfs_loop (bfs_fuel adjacency) adjacency {[ root_id := 0 ]} [root_id]).

(** The two invariants of the traversal: a node with a depth is reachable,
    and a queued node has a depth. *)
Definition sound (adjacency : adjacency_t) (root_id : string)
    (st : gmap string Z * list string) : Prop :=
  (forall v, is_Some (st.1 !! v) -> reachable adjacency root_id v)
  /\ (forall v, v ∈ st.2 -> is_Some (st.1 !! v)).

(** *** What the traversal maintains

    [n] is the least number of calls that lead from [root_id] to [v]. *)
Definition shortest (adjacency : adjacency_t) (root_id v : string) (n : nat) : Prop :=
  nsteps (calls adjacency) n root_id v
  /\ forall m, nsteps (calls adjacency) m root_id v -> (n <= m)%nat.

(** Every depth is the least number of calls from the root. *)
Definition exact_depths (adjacency : adjacency_t) (root_id : string)
    (depths : gmap string Z) : Prop :=
  forall v d, depths !! v = Some d ->
    exists n, d = Z.of_nat n /\ shortest adjacency root_id v n.

(** The queue holds nodes of depth [D], then nodes of depth [D + 1]. *)
Definition layered (D : nat) (depths : gmap string Z) (queue : list string) : Prop :=
  exists q1 q2, queue = (q1 ++ q2)%list
    /\ (forall v, v ∈ q1 -> depths !! v = Some (Z.of_nat D))
    /\ (forall v, v ∈ q2 -> depths !! v = Some (Z.of_nat (S D))).

(** Every node within [D] calls of the root has a depth. *)
Definition near_covered (adjacency : adjacency_t) (root_id : string) (D : nat)
    (depths : gmap string Z) : Prop :=
  forall v n, nsteps (calls adjacency) n root_id v -> (n <= D)%nat -> is_Some (depths !! v).

(** Every callee of [u] has a depth. *)
Definition expanded (adjacency : adjacency_t) (u : string) (depths : gmap string Z) : Prop :=
  forall w, calls adjacency u w -> is_Some (depths !! w).

(** The invariant of the [while] loop, and the invariant inside the [for]
    loop over the neighbours of [u]. *)
Definition bfs_inv (adjacency : adjacency_t) (root_id : string) (D : nat)
    (st : gmap string Z * list string) : Prop :=
  exact_depths adjacency root_id st.1
  /\ layered D st.1 st.2
  /\ near_covered adjacency root_id D st.1
  /\ (forall x, is_Some (st.1 !! x) -> x ∉ st.2 -> expanded adjacency x st.1).

Definition bfs_mid_inv (adjacency : adjacency_t) (root_id : string) (D : nat) (u : string)
    (st : gmap string Z * list string) : Prop :=
  exact_depths adjacency root_id st.1
  /\ layered D st.1 st.2
  /\ near_covered adjacency root_id D st.1
  /\ (forall x, is_Some (st.1 !! x) -> x ∉ st.2 -> x <> u -> expanded adjacency x st.1)
  /\ st.1 !! u = Some (Z.of_nat D).

(** The list [updates]. *)
Definition edge_updates (adjacency : adjacency_t) (depths : gmap string Z)
  : list (Z * string * string) :=
  adjacency ≫= (fun '(caller, callees) =>
    match depths !! caller with
    | Some d =>
        callees ≫= (fun callee =>
          match depths !! callee with
          | Some _ => [(d, caller, callee)]
          | None => []
          end)
    | None => []
    end).

(** The rows of [edges] after the updates of the list, one after the other. *)
Definition set_depths (updates : list (Z * string * string)) (rows : list EdgeRow)
  : list EdgeRow :=
  fold_left (fun rows p => set_depth p <$> rows) updates rows.

(** [n] is the least number of stored edges that lead from [root_id] to
    [v]. *)
Definition hops (rows : list EdgeRow) (root_id v : string) (n : nat) : Prop :=
  nsteps (edge_in rows) n root_id v
  /\ forall m, nsteps (edge_in rows) m root_id v -> (n <= m)%nat.

(** The row with its depth set. *)
Definition with_depth (d : Z) (r : EdgeRow) : EdgeRow :=
  mkEdgeRow (er_caller_function_id r) (er_callee_function_id r) (er_callsite_id r) (Some d).

(** The updates of the list applied to one row. *)
Definition set_depth_all (updates : list (Z * string * string)) (r : EdgeRow) : EdgeRow :=
  fold_left (fun r p => set_depth p r) updates r.

(** What [_compute_depths] does once the root is resolved: the adjacency
    dictionary from the stored edges, the traversal, the list of updates
    and, when it is not empty, the batch of updates. *)
Definition compute_depths_from (root_id : string) : M unit :=
  do cursor <- DB.execute sql_select_edges in
  let adjacency := build_adjacency (iterate (PyList cursor)) in
  let depths := bfs adjacency root_id in
  let updates := edge_updates adjacency depths in
  match updates with
  | [] => ret tt
  | _ :: _ => DB.executemany sql_update_depth updates
  end.

(** [Writer._compute_depths].  [cursor] is what [DB.execute] returned, a
    list. *)
Definition _compute_depths (root_function : string) : M unit :=
  do cursor <- DB.execute (sql_select_root root_function) in
  do row <- lift (fetchone (PyList cursor)) in
  match row with
  | None => ret tt
  | Some root_id =>
      do cursor <- DB.execute sql_select_edges in
      let adjacency := build_adjacency (iterate (PyList cursor)) in
      let depths := bfs adjacency root_id in
      let updates := edge_updates adjacency depths in
      match updates with
      | [] => ret tt
      | _ :: _ => DB.executemany sql_update_depth updates
      end
  end.

(** [Writer.load_callgraph] *)
Definition load_callgraph (graph : CallGraph) (root_function : string) : M unit :=
  try_except_reraise
    (run _insert_functions (functions graph) in
     run _insert_callsites (callsites graph) in
     run _insert_edges (edges graph) in
     run _compute_depths root_function in
     DB.commit)
    conn_rollback.

(** *** The tables a load leaves behind

    The rows of [functions] and [callsites] after the upserts of a graph. *)
Definition function_params (functions : list Function)
  : list (string * string * option string * option string) :=
  (fun f => (f_id f, f_name f, f_file f, f_signature f)) <$> functions.

Definition callsite_params (callsites : list CallSite)
  : list (string * string * string * option string * option Z) :=
  (fun cs => (cs_id cs, cs_caller cs, cs_callee cs, cs_file cs, cs_line cs)) <$> callsites.

Definition upsert_all {R} (key : R -> string) (news rows : list R) : list R :=
  fold_left (fun rows new => upsert key new rows) news rows.

(** Every line of the call sites can be bound as a 64-bit integer. *)
Definition lines_fit (callsites : list CallSite) : bool :=
  forallb (fun cs => binds (cs_line cs)) callsites.

(** The database after [load_callgraph] on a connection opened on [t], for a
    graph with at least one function: nothing when [functions] does not
    exist; otherwise the functions are upserted, and the call sites as well
    when there are any, their table exists and every line can be bound; the
    edges stay as they were. *)
Definition loaded (graph : CallGraph) (t : Tables) : Tables :=
  match t_functions t with
  | None => t
  | Some frows =>
      let frows' := upsert_all fn_id (function_row <$> function_params (functions graph)) frows in
      match callsites graph, t_callsites t with
      | _ :: _, Some crows =>
          mkTables (Some frows')
            (Some (if lines_fit (callsites graph)
                   then upsert_all csr_id (callsite_row <$> callsite_params (callsites graph))
                                   crows
                   else crows))
            (t_edges t)
      | _, _ => mkTables (Some frows') (t_callsites t) (t_edges t)
      end
  end.

End Writer.

(** ** Query layer: callgraph/queries/api.py *)

Module Queries.
Import Engine.

(** [ORDER BY name]: the byte-wise order of the text values. *)
Definition name_le (a b : FunctionRow) : Prop :=
  String.leb (fn_name a) (fn_name b) = true.

#[global] Instance name_le_dec : RelDecision name_le.
Proof. intros a b. unfold name_le. apply _. Defined.

Definition order_by_name (rows : list FunctionRow) : list FunctionRow :=
  merge_sort name_le rows.

(** The query of [list_functions]. *)
Definition sql_list_functions : statement FunctionRow :=
  fun t =>
    match t_functions t with
    | None => no_such_table "functions"
    | Some fs => Ok (t, order_by_name fs)
    end.

(** The query of [get_callees]: [edges e JOIN functions f ON
    e.callee_function_id = f.id JOIN functions caller ON
    e.caller_function_id = caller.id WHERE caller.id = :function OR
    caller.name = :function], the distinct [f] rows ordered by name. *)
Definition sql_callees (function : string) : statement FunctionRow :=
  fun t =>
    match t_edges t, t_functions t with
    | None, _ => no_such_table "edges"
    | _, None => no_such_table "functions"
    | Some es, Some fs =>
        Ok (t, order_by_name (remove_dups (
          es ≫= (fun e =>
          filter (fun f => er_callee_function_id e = fn_id f) fs ≫= (fun f =>
          filter (fun caller => er_caller_function_id e = fn_id caller
                                /\ (fn_id caller = function \/ fn_name caller = function)) fs
            ≫= (fun _ => [f]))))))
    end.

(** The query of [get_callers]. *)
Definition sql_callers (function : string) : statement FunctionRow :=
  fun t =>
    match t_edges t, t_functions t with
    | None, _ => no_such_table "edges"
    | _, None => no_such_table "functions"
    | Some es, Some fs =>
        Ok (t, order_by_name (remove_dups (
          es ≫= (fun e =>
          filter (fun f => er_caller_function_id e = fn_id f) fs ≫= (fun f =>
          filter (fun callee => er_callee_function_id e = fn_id callee
                                /\ (fn_id callee = function \/ fn_name callee = function)) fs
            ≫= (fun _ => [f]))))))
    end.

Record DepthRow : Type := mkDepthRow {
  depth : Z;
  function_count : nat;
  edge_count : nat
}.

#[global] Instance DepthRow_eq_dec : EqDecision DepthRow.
Proof. solve_decision. Defined.

(** The rows of one group of [GROUP BY depth]. *)
Definition edges_of_depth (d : Z) (es : list EdgeRow) : list EdgeRow :=
  filter (fun r => er_depth r = Some d) es.

(** The query of [depth_summary]: [WHERE depth IS NOT NULL GROUP BY depth
    ORDER BY depth], with [COUNT(DISTINCT caller_function_id)] and
    [COUNT]. *)
Definition sql_depth_summary : statement DepthRow :=
  fun t =>
    match t_edges t with
    | None => no_such_table "edges"
    | Some es =>
        let groups := merge_sort Z.le (remove_dups (omap er_depth es)) in
        Ok (t, (fun d =>
                  let g := edges_of_depth d es in
                  mkDepthRow d (length (remove_dups (er_caller_function_id <$> g)))
                               (length g)) <$> groups)
    end.

Definition list_functions : M (list FunctionRow) := DB.execute sql_list_functions.

Definition get_callees (function : string) : M (list FunctionRow) :=
  DB.execute (sql_callees function).

Definition get_callers (function : string) : M (list FunctionRow) :=
  DB.execute (sql_callers function).

Definition depth_summary : M (list DepthRow) := DB.execute sql_depth_summary.

(** [ORDER BY caller.name, callee.name] on the pairs of names. *)
Definition names_le (a b : string * string) : Prop :=
  match String.compare a.1 b.1 with
  | Lt => True
  | Eq => String.leb a.2 b.2 = true
  | Gt => False
  end.

#[global] Instance names_le_dec : RelDecision names_le.
Proof. intros a b. unfold names_le. destruct (String.compare a.1 b.1); apply _. Defined.

(** The query of [edges_at_depth]: [edges e JOIN functions caller ON
    e.caller_function_id = caller.id JOIN functions callee ON
    e.callee_function_id = callee.id WHERE e.depth = :depth], one pair of
    names for each joined row. *)
Definition sql_edges_at_depth (depth : Z) : statement (string * string) :=
  fun t =>
    match t_edges t, t_functions t with
    | None, _ => no_such_table "edges"
    | _, None => no_such_table "functions"
    | Some es, Some fs =>
        Ok (t, merge_sort names_le (
          es ≫= (fun e =>
          filter (fun caller => er_caller_function_id e = fn_id caller) fs ≫= (fun caller =>
          filter (fun callee => er_callee_function_id e = fn_id callee
                                /\ er_depth e = Some depth) fs
            ≫= (fun callee => [(fn_name caller, fn_name callee)])))))
    end.

(** The query of [get_all_depths]: [SELECT DISTINCT depth FROM edges WHERE
    depth IS NOT NULL ORDER BY depth]. *)
Definition sql_all_depths : statement Z :=
  fun t =>
    match t_edges t with
    | None => no_such_table "edges"
    | Some es => Ok (t, merge_sort Z.le (remove_dups (omap er_depth es)))
    end.

(** The query of [function_detail] for the function itself: the rows of the
    table that match, in rowid order. *)
Definition sql_function_info (function : string) : statement FunctionRow :=
  fun t =>
    match t_functions t with
    | None => no_such_table "functions"
    | Some fs => Ok (t, filter (matches_root function) fs)
    end.

(** A row of the callsite query of [function_detail]. *)
Record CallSiteInfo : Type := mkCallSiteInfo {
  ci_id : string;
  ci_caller_name : string;
  ci_callee_name : string;
  ci_file : option string;
  ci_line : option Z
}.

(** [ORDER BY cs.file, cs.line]: NULL sorts before every value. *)
Definition file_compare (a b : option string) : comparison :=
  match a, b with
  | None, None => Eq
  | None, Some _ => Lt
  | Some _, None => Gt
  | Some x, Some y => String.compare x y
  end.

Definition line_le (a b : option Z) : Prop :=
  match a, b with
  | None, _ => True
  | Some _, None => False
  | Some x, Some y => x <= y
  end.

Definition file_line_le (a b : CallSiteInfo) : Prop :=
  match file_compare (ci_file a) (ci_file b) with
  | Lt => True
  | Eq => line_le (ci_line a) (ci_line b)
  | Gt => False
  end.

#[global] Instance line_le_dec : RelDecision line_le.
Proof. intros [x|] [y|]; simpl; apply _. Defined.

#[global] Instance file_line_le_dec : RelDecision file_line_le.
Proof.
  intros a b. unfold file_line_le.
  destruct (file_compare (ci_file a) (ci_file b)); apply _.
Defined.

(** The callsite query of [function_detail]: [callsites cs JOIN functions
    caller ON cs.caller_function_id = caller.id JOIN functions callee ON
    cs.callee_function_id = callee.id WHERE caller.id = :function OR
    caller.name = :function]. *)
Definition sql_callsites_of (function : string) : statement CallSiteInfo :=
  fun t =>
    match t_callsites t, t_functions t with
    | None, _ => no_such_table "callsites"
    | _, None => no_such_table "functions"
    | Some css, Some fs =>
        Ok (t, merge_sort file_line_le (
          css ≫= (fun cs =>
          filter (fun caller => csr_caller_function_id cs = fn_id caller) fs ≫= (fun caller =>
          filter (fun callee => csr_callee_function_id cs = fn_id callee
                                /\ (fn_id caller = function \/ fn_name caller = function)) fs
            ≫= (fun callee =>
                  [mkCallSiteInfo (csr_id cs) (fn_name caller) (fn_name callee)
                                  (csr_file cs) (csr_line cs)])))))
    end.

(** The names of the two ends of an edge, when both are stored functions. *)
Definition edge_names (fs : list FunctionRow) (e : EdgeRow) : option (string * string) :=
  match lookup_key fn_id (er_caller_function_id e) fs,
        lookup_key fn_id (er_callee_function_id e) fs with
  | Some caller, Some callee => Some (fn_name caller, fn_name callee)
  | _, _ => None
  end.

(** [edges_at_depth]; the parameter [root] is not used. *)
Definition edges_at_depth (depth : Z) : M (list (string * string)) :=
  do results <- DB.execute (sql_edges_at_depth depth) in
  ret ((fun row => (row.1, row.2)) <$> results).

(** The dictionary [function_detail] returns. *)
Record Detail : Type := mkDetail {
  d_function : FunctionRow;
  d_callers : list FunctionRow;
  d_callees : list FunctionRow;
  d_callsites : list CallSiteInfo
}.

Definition function_detail (function : string) : M (option Detail) :=
  do results <- DB.execute (sql_function_info function) in
  match results with
  | [] => ret None
  | func_info :: _ =>
      do callers <- get_callers function in
      do callees <- get_callees function in
      do callsites <- DB.execute (sql_callsites_of function) in
      ret (Some (mkDetail func_info callers callees callsites))
  end.

Definition get_all_depths : M (list Z) :=
  do results <- DB.execute sql_all_depths in
  ret ((fun row => row) <$> results).

End Queries.

(** ** Files: callgraph/utils/files.py, and the file entry point of the validator *)

Module Files.
Import Model Validator.

(** The exceptions that cross [validate_json_file]: the built-in ones that
    reading a file raises, and those of the other modules.
    [UnicodeDecodeError] is a ValueError; [OSError] stands for the error of
    [open] on a file that cannot be read, with the text of the exception. *)
Inductive FileExc : Type :=
| FileNotFoundError (msg : string)
| ValueError (msg : string)
| UnicodeDecodeError (msg : string)
| OSError (msg : string)
| Raised (e : PyExc).

Inductive outcome (A : Type) : Type :=
| Returns (a : A)
| Raises (e : FileExc).
Arguments Returns {A} a.
Arguments Raises {A} e.

Definition obind {A B} (o : outcome A) (k : A -> outcome B) : outcome B :=
  match o with Returns a => k a | Raises e => Raises e end.

Definition of_result {A} (r : result A) : outcome A :=
  match r with Ok a => Returns a | Raise e => Raises (Raised e) end.

(** A decoded JSON value: an object whose members [functions], [callsites],
    [callSites] and [edges], where present, are arrays of objects with text,
    integer or null members (a [document]); or a value that is not an
    object, with the name of its Python type ([list], [str], [int],
    [float], [bool], [NoneType]).  Objects of another shape are not
    covered. *)
Inductive json : Type :=
| Object (data : document)
| NotObject (type_name : string).

(** What [json.load] makes of a file that was opened: the bytes are not
    UTF-8, the text is not JSON, or the decoded value. *)
Inductive decoded : Type :=
| InvalidUtf8 (detail : string)
| JSONDecodeError (detail : string)
| Value (v : json).

(** What a path designates: nothing, something that is not a regular file,
    a regular file the process may not read ([reason] is the text of the
    error of [open]), or a regular file that can be read. *)
Inductive node : Type :=
| Absent
| NotAFile
| Unreadable (reason : string)
| File (content : decoded).

(** [read_json]; [path] is the text of [Path(file_path)].  Only the
    JSONDecodeError is caught and turned into a ValueError. *)
Definition read_json (path : string) (n : node) : outcome json :=
  match n with
  | Absent => Raises (FileNotFoundError ("File not found: " ++ path))
  | NotAFile => Raises (ValueError ("Not a file: " ++ path))
  | Unreadable reason => Raises (OSError reason)
  | File (InvalidUtf8 detail) => Raises (UnicodeDecodeError detail)
  | File (JSONDecodeError e) =>
      Raises (ValueError ("Invalid JSON in " ++ path ++ ": " ++ e))
  | File (Value data) => Returns data
  end.

(** [CallGraph.from_dict] on what [read_json] returned: its first statement
    is [data.get], an attribute only a dictionary has. *)
Definition from_json (data : json) : result CallGraph :=
  match data with
  | Object d => from_dict d
  | NotObject type_name =>
      Raise (AttributeError ("'" ++ type_name ++ "' object has no attribute 'get'"))
  end.

(** The [except Exception] clause of [validate_json_file]: a
    ValidationError, a FileNotFoundError or a ValueError (pydantic's
    validation error and UnicodeDecodeError are ValueErrors) is raised
    again as it is; any other exception is wrapped, with its text. *)
Definition reraise_or_wrap (e : FileExc) : FileExc :=
  match e with
  | FileNotFoundError _ | ValueError _ | UnicodeDecodeError _ => e
  | Raised (ValidationError _) | Raised (PydanticValidationError _ _) => e
  | OSError msg
  | Raised (AttributeError msg) | Raised (OperationalError msg)
  | Raised (OverflowError msg) =>
      Raised (ValidationError ("Validation failed: " ++ msg))
  end.

(** [validate_json_file] *)
Definition validate_json_file (path : string) (n : node) : outcome CallGraph :=
  match obind (read_json path n) (fun data =>
        obind (of_result (from_json data)) (fun graph =>
        obind (of_result (validate_callgraph graph)) (fun _ =>
        Returns graph)))
  with
  | Returns graph => Returns graph
  | Raises e => Raises (reraise_or_wrap e)
  end.

End Files.

(** ** Command line: the command [load_json] of callgraph/cli.py *)

Module Cli.
Import Model Validator Engine Files.






End Cli.

(** ** Concrete inputs *)

Module Scenario.
Import Model Engine.

(** A database file on which nothing was created yet. *)
Definition empty_db : Tables := mkTables None None None.

(** The connection after [init_schema] on a new file. *)
Definition fresh : Connection := snd (DB.init_schema (connect empty_db)).

(** The graph main -> a, a -> b, main -> b. *)
Definition graph : CallGraph :=
  mkCallGraph
    [mkFunction "f1" "main" None None; mkFunction "f2" "a" None None;
     mkFunction "f3" "b" None None]
    [mkCallSite "c1" "f1" "f2" None None; mkCallSite "c2" "f2" "f3" None None;
     mkCallSite "c3" "f1" "f3" None None]
    [mkEdge "f1" "f2" (Some "c1"); mkEdge "f2" "f3" (Some "c2");
     mkEdge "f1" "f3" (Some "c3")].

Definition obj (kvs : list (string * jval)) : jobject := mkObj (list_to_map kvs) None.

Definition document_functions : list jobject :=
  [obj [("id", JStr "f1"); ("name", JStr "main")];
   obj [("id", JStr "f2"); ("name", JStr "a")];
   obj [("id", JStr "f3"); ("name", JStr "b")]].

Definition document_calls : list jobject :=
  [obj [("caller", JStr "f1"); ("callee", JStr "f2")];
   obj [("caller", JStr "f2"); ("callee", JStr "f3")];
   obj [("caller", JStr "f1"); ("callee", JStr "f3")]].

(** The document of the scenario: [functions] and [calls]. *)
Definition document_with_calls : document :=
  list_to_map [("functions", document_functions); ("calls", document_calls)].

(** The same call records under [callSites], with ids and with the
    [caller_id]/[callee_id] spelling in the second record. *)
Definition document_with_callSites : document :=
  list_to_map
    [("functions", document_functions);
     ("callSites",
      [obj [("id", JStr "c1"); ("caller", JStr "f1"); ("callee", JStr "f2")];
       obj [("id", JStr "c2"); ("caller_id", JStr " f2 "); ("callee_id", JStr "f3")];
       obj [("id", JStr "c3"); ("caller", JStr "f1"); ("callee", JStr "f3")]])].

(** Functions f1, f2 and a call site id used twice, the second with a callee
    that is no function. *)
Definition graph_dup_and_dangling : CallGraph :=
  mkCallGraph
    [mkFunction "f1" "main" None None; mkFunction "f2" "a" None None]
    [mkCallSite "c1" "f1" "f2" None None; mkCallSite "c1" "f1" "zz" None None]
    [].

Definition stored_callsites : list CallSiteRow :=
  [mkCallSiteRow "c1" "f1" "f2" None None; mkCallSiteRow "c2" "f2" "f3" None None;
   mkCallSiteRow "c3" "f1" "f3" None None].

(** A database that already holds the three functions and the three edges,
    each edge with the depth 9. *)
Definition stored_functions : list FunctionRow :=
  [mkFunctionRow "f1" "main" None None; mkFunctionRow "f2" "a" None None;
   mkFunctionRow "f3" "b" None None].

Definition stored_edges : list EdgeRow :=
  [mkEdgeRow "f1" "f2" None (Some 9); mkEdgeRow "f2" "f3" None (Some 9);
   mkEdgeRow "f1" "f3" None (Some 9)].

Definition stored : Connection :=
  connect (mkTables (Some stored_functions) (Some []) (Some stored_edges)).

(** A database where f4 calls f2 and nothing calls f4: the edge f1 -> f2
    has depth 9 and the edge f4 -> f2 has depth 5. *)
Definition island_edges : list EdgeRow :=
  [mkEdgeRow "f1" "f2" None (Some 9); mkEdgeRow "f4" "f2" None (Some 5)].

Definition island : Connection :=
  connect (mkTables
             (Some [mkFunctionRow "f1" "main" None None; mkFunctionRow "f2" "a" None None;
                    mkFunctionRow "f4" "d" None None])
             (Some []) (Some island_edges)).

(** A database file with the functions and edges tables but no callsites
    table. *)
Definition without_callsites_table : Connection :=
  connect (mkTables (Some []) None (Some [])).

(** A functions table where "x" is the name of the first function and the id
    of the second. *)
Definition ambiguous : Connection :=
  connect (mkTables (Some [mkFunctionRow "f1" "x" None None;
                           mkFunctionRow "x" "y" None None])
                    (Some []) (Some [])).

End Scenario.

(** * Properties *)

(** ** White space stripping *)

Section Strip.

Lemma lstrip_all_space s : all_space s = true -> lstrip s = EmptyString.
Proof.
  induction s as [|c s IH]; simpl; [done|].
  intros [Hc Hs]%andb_true_iff. rewrite Hc. auto.
Qed.

Lemma lstrip_empty_all_space s : lstrip s = EmptyString -> all_space s = true.
Proof.
  induction s as [|c s IH]; simpl; [done|].
  destruct (isspace c); [auto | discriminate].
Qed.

Lemma all_space_app s1 s2 :
  all_space s1 = true -> all_space s2 = true -> all_space (s1 ++ s2) = true.
Proof.
  induction s1 as [|c s1 IH]; simpl; [done|].
  intros [Hc Hs]%andb_true_iff H2. rewrite Hc. simpl. auto.
Qed.

Lemma lstrip_app_space pre s : all_space pre = true -> lstrip (pre ++ s) = lstrip s.
Proof.
  induction pre as [|c pre IH]; simpl; [done|].
  intros [Hc Hs]%andb_true_iff. rewrite Hc. auto.
Qed.

Lemma lstrip_app_nonempty s post :
  lstrip s <> EmptyString -> lstrip (s ++ post) = (lstrip s ++ post)%string.
Proof.
  induction s as [|c s IH]; simpl; [done|].
  destruct (isspace c); [auto | done].
Qed.

Lemma lstrip_head s c r : lstrip s = String c r -> isspace c = false.
Proof.
  induction s as [|c' s IH]; simpl; [done|].
  destruct (isspace c') eqn:E; [auto|]. intros [= -> _]. done.
Qed.

Lemma rstrip_all_space s : all_space s = true -> rstrip s = EmptyString.
Proof.
  induction s as [|c s IH]; simpl; [done|].
  intros [Hc Hs]%andb_true_iff. rewrite (IH Hs), Hc. done.
Qed.

Lemma rstrip_app_space s post : all_space post = true -> rstrip (s ++ post) = rstrip s.
Proof.
  intros Hp. induction s as [|c s IH]; simpl.
  - by apply rstrip_all_space.
  - by rewrite IH.
Qed.

Lemma rstrip_cons_nonspace c s :
  isspace c = false -> rstrip (String c s) = String c (rstrip s).
Proof. intros Hc. simpl. rewrite Hc. by destruct (rstrip s). Qed.

Lemma rstrip_idem s : rstrip (rstrip s) = rstrip s.
Proof.
  induction s as [|c s IH]; simpl; [done|].
  destruct (rstrip s) as [|c' r] eqn:E.
  - destruct (isspace c) eqn:Hc; simpl; [done|]. by rewrite Hc.
  - simpl. simpl in IH. by rewrite IH.
Qed.

Lemma rstrip_last s c : last_char (rstrip s) = Some c -> isspace c = false.
Proof.
  induction s as [|c' s IH]; simpl; [done|].
  destruct (rstrip s) as [|c'' r] eqn:E.
  - destruct (isspace c') eqn:Hc; simpl; [done|]. by intros [= ->].
  - simpl. simpl in IH. done.
Qed.

Lemma strip_idem s : strip (strip s) = strip s.
Proof.
  unfold strip. destruct (lstrip s) as [|c r] eqn:E; [done|].
  pose proof (lstrip_head _ _ _ E) as Hc.
  rewrite (rstrip_cons_nonspace _ _ Hc). simpl lstrip. rewrite Hc.
  rewrite (rstrip_cons_nonspace _ _ Hc). by rewrite rstrip_idem.
Qed.

Lemma strip_head s c : head_char (strip s) = Some c -> isspace c = false.
Proof.
  unfold strip. destruct (lstrip s) as [|c' r] eqn:E; [done|].
  pose proof (lstrip_head _ _ _ E) as Hc.
  rewrite (rstrip_cons_nonspace _ _ Hc). simpl. by intros [= <-].
Qed.

Lemma strip_last s c : last_char (strip s) = Some c -> isspace c = false.
Proof. apply rstrip_last. Qed.

Lemma strip_all_space s : all_space s = true -> strip s = EmptyString.
Proof. intros H. unfold strip. by rewrite (lstrip_all_space _ H). Qed.

Lemma strip_surrounding pre core post :
  all_space pre = true -> all_space post = true ->
  strip (pre ++ core ++ post) = strip core.
Proof.
  intros Hpre Hpost. unfold strip. rewrite (lstrip_app_space _ _ Hpre).
  destruct (lstrip core) as [|c r] eqn:E.
  - apply lstrip_empty_all_space in E.
    by rewrite (lstrip_all_space _ (all_space_app _ _ E Hpost)).
  - rewrite lstrip_app_nonempty by (by rewrite E).
    rewrite E. by apply rstrip_app_space.
Qed.

End Strip.

(** ** Field validators of the document model *)

Section FieldValidators.
Import Model.

Lemma not_empty_spec v :
  not_empty v =
    if str_nonempty (strip v) then inr (strip v)
    else inl "Value error, Field cannot be empty"%string.
Proof.
  unfold not_empty. destruct v as [|c v]; [done|].
  simpl str_nonempty at 1. simpl negb at 1. rewrite orb_false_l.
  by destruct (str_nonempty (strip (String c v))).
Qed.

Lemma strip_trimmed v : str_nonempty (strip v) = true -> trimmed (strip v).
Proof.
  intros H. split; [|split].
  - intros E. by rewrite E in H.
  - apply strip_head.
  - apply strip_last.
Qed.

Lemma not_empty_inr v s : not_empty v = inr s -> s = strip v /\ trimmed s.
Proof.
  rewrite not_empty_spec. destruct (str_nonempty (strip v)) eqn:E; [|done].
  intros [= <-]. split; [done|]. by apply strip_trimmed.
Qed.

Lemma not_empty_trimmed s : trimmed s -> strip s = s -> not_empty s = inr s.
Proof.
  intros [Hne _] Hs. rewrite not_empty_spec, Hs.
  destruct s; [done|]. done.
Qed.

Lemma required_str_inr a s :
  required_str not_empty a = inr s ->
  exists v, a = Some (JStr v) /\ s = strip v /\ trimmed s.
Proof.
  destruct a as [[| v |]|]; simpl; try done.
  intros [-> Ht]%not_empty_inr. eauto.
Qed.

Lemma new_Function_ok id name file signature f :
  new_Function id name file signature = Ok f ->
  required_str not_empty id = inr (f_id f)
  /\ required_str not_empty name = inr (f_name f).
Proof.
  unfold new_Function.
  destruct (required_str not_empty id), (required_str not_empty name),
    (optional_str file), (optional_str signature); try done.
  by intros [= <-].
Qed.

Lemma new_CallSite_ok id caller callee file line cs :
  new_CallSite id caller callee file line = Ok cs ->
  required_str not_empty id = inr (cs_id cs)
  /\ required_str not_empty caller = inr (cs_caller cs)
  /\ required_str not_empty callee = inr (cs_callee cs).
Proof.
  unfold new_CallSite.
  destruct (required_str not_empty id), (required_str not_empty caller),
    (required_str not_empty callee), (optional_str file), (valid_line line); try done.
  by intros [= <-].
Qed.

Lemma new_Edge_ok caller callee callsite_id e :
  new_Edge caller callee callsite_id = Ok e ->
  required_str not_empty caller = inr (e_caller e)
  /\ required_str not_empty callee = inr (e_callee e).
Proof.
  unfold new_Edge.
  destruct (required_str not_empty caller), (required_str not_empty callee),
    (optional_str callsite_id); try done.
  by intros [= <-].
Qed.

Lemma rstrip_fixed s :
  (forall c, last_char s = Some c -> isspace c = false) -> rstrip s = s.
Proof.
  induction s as [|c s IH]; [done|]. intros Hlast.
  destruct s as [|c' s'].
  - simpl. by rewrite (Hlast c eq_refl).
  - change (rstrip (String c (String c' s')))
      with (match rstrip (String c' s') with
            | EmptyString => if isspace c then EmptyString else String c EmptyString
            | r => String c r
            end).
    rewrite IH by (intros x Hx; by apply Hlast). done.
Qed.

(** A trimmed string is what [strip] leaves as it is. *)
Lemma strip_fixed s : trimmed s -> strip s = s.
Proof.
  intros (Hne & Hhead & Hlast). unfold strip.
  destruct s as [|c s]; [done|]. simpl lstrip. rewrite (Hhead c eq_refl).
  by apply rstrip_fixed.
Qed.

(** C10.  A required text field of a constructed Function, CallSite or Edge
    is the stripped argument and is trimmed (not empty, no white space at
    either end); a value of white space only is rejected by the validator;
    white space around a value does not change what the validator returns,
    so two spellings that differ only there give the same field; and that
    field is the value without the surrounding white space: for a trimmed
    text with white space before and after it, the validator returns the
    text itself, character for character. *)
Theorem required_fields_are_stripped :
  (forall id name file signature f,
      new_Function id name file signature = Ok f ->
      exists i n, id = Some (JStr i) /\ name = Some (JStr n)
        /\ f_id f = strip i /\ f_name f = strip n
        /\ trimmed (f_id f) /\ trimmed (f_name f))
  /\ (forall id caller callee file line cs,
      new_CallSite id caller callee file line = Ok cs ->
      exists i c1 c2, id = Some (JStr i) /\ caller = Some (JStr c1)
        /\ callee = Some (JStr c2)
        /\ cs_id cs = strip i /\ cs_caller cs = strip c1 /\ cs_callee cs = strip c2
        /\ trimmed (cs_id cs) /\ trimmed (cs_caller cs) /\ trimmed (cs_callee cs))
  /\ (forall caller callee callsite_id e,
      new_Edge caller callee callsite_id = Ok e ->
      exists c1 c2, caller = Some (JStr c1) /\ callee = Some (JStr c2)
        /\ e_caller e = strip c1 /\ e_callee e = strip c2
        /\ trimmed (e_caller e) /\ trimmed (e_callee e))
  /\ (forall v, all_space v = true ->
      not_empty v = inl "Value error, Field cannot be empty"%string)
  /\ (forall pre core post, all_space pre = true -> all_space post = true ->
      not_empty (pre ++ core ++ post) = not_empty core)
  /\ (forall pre core post, all_space pre = true -> all_space post = true ->
      trimmed core -> not_empty (pre ++ core ++ post) = inr core).
Proof.
  split; [|split; [|split; [|split; [|split]]]].
  - intros id name file signature f (H1 & H2)%new_Function_ok.
    apply required_str_inr in H1 as (i & -> & Hi & Ti).
    apply required_str_inr in H2 as (n & -> & Hn & Tn).
    exists i, n. done.
  - intros id caller callee file line cs (H1 & H2 & H3)%new_CallSite_ok.
    apply required_str_inr in H1 as (i & -> & Hi & Ti).
    apply required_str_inr in H2 as (c1 & -> & Hc1 & Tc1).
    apply required_str_inr in H3 as (c2 & -> & Hc2 & Tc2).
    exists i, c1, c2. done.
  - intros caller callee callsite_id e (H1 & H2)%new_Edge_ok.
    apply required_str_inr in H1 as (c1 & -> & Hc1 & Tc1).
    apply required_str_inr in H2 as (c2 & -> & Hc2 & Tc2).
    exists c1, c2. done.
  - intros v Hv. rewrite not_empty_spec. by rewrite (strip_all_space _ Hv).
  - intros pre core post Hpre Hpost. rewrite !not_empty_spec.
    by rewrite (strip_surrounding _ _ _ Hpre Hpost).
  - intros pre core post Hpre Hpost Hcore. rewrite not_empty_spec.
    rewrite (strip_surrounding _ _ _ Hpre Hpost), (strip_fixed _ Hcore).
    destruct Hcore as [Hne _]. by destruct core.
Qed.

Lemma required_fields_are_stripped_witness :
  (exists e, new_Edge (Some (JStr " f1 ")) (Some (JStr "f2")) None = Ok e
             /\ e_caller e = "f1"%string /\ trimmed (e_caller e))
  /\ not_empty "   " = inl "Value error, Field cannot be empty"%string
  /\ not_empty (" " ++ "f1" ++ " ") = not_empty "f1"
  /\ not_empty (" " ++ "f 1" ++ "  ") = inr "f 1"%string.
Proof.
  destruct required_fields_are_stripped as (_ & _ & HE & Hws & Hsur & Hcore).
  split; [|split; [|split]].
  - eexists. split; [reflexivity|].
    destruct (HE (Some (JStr " f1 ")) (Some (JStr "f2")) None _ eq_refl)
      as (c1 & c2 & E1 & E2 & H1 & H2 & T1 & T2).
    split; [reflexivity | exact T1].
  - apply Hws. reflexivity.
  - apply Hsur; reflexivity.
  - apply Hcore; [reflexivity | reflexivity |].
    split; [discriminate|]. split; intros c [= <-]; reflexivity.
Defined.

End FieldValidators.

(** ** CallGraph.from_dict *)

Section FromDict.
Import Model.

Lemma rmap_ok {A B} (f : A -> result B) xs ys :
  rmap f xs = Ok ys -> Forall2 (fun x y => f x = Ok y) xs ys.
Proof.
  revert ys. induction xs as [|x xs IH]; simpl; intros ys.
  - intros [= <-]. constructor.
  - destruct (f x) as [y|] eqn:Ef; simpl; [|done].
    destruct (rmap f xs) as [ys'|] eqn:Er; simpl; [|done].
    intros [= <-]. constructor; auto.
Qed.

Lemma rmap_total {A B} (f : A -> result B) (g : A -> B) xs :
  Forall (fun x => f x = Ok (g x)) xs -> rmap f xs = Ok (g <$> xs).
Proof.
  induction 1 as [|x xs Hx _ IH]; simpl; [done|]. by rewrite Hx, IH.
Qed.

Lemma derive_edge_parsed o cs :
  parse_callsite o = Ok cs -> derive_edge cs = Ok (edge_of_callsite cs).
Proof.
  intros (H1 & H2 & H3)%new_CallSite_ok.
  apply required_str_inr in H1 as (i & _ & Hi & Ti).
  apply required_str_inr in H2 as (c1 & _ & Hc1 & Tc1).
  apply required_str_inr in H3 as (c2 & _ & Hc2 & Tc2).
  unfold derive_edge, new_Edge. simpl.
  rewrite (not_empty_trimmed (cs_caller cs)), (not_empty_trimmed (cs_callee cs)); try done.
  - rewrite Hc2. apply strip_idem.
  - rewrite Hc1. apply strip_idem.
Qed.

Lemma from_dict_ignores_calls (data : document) calls :
  from_dict (<["calls" := calls]> data) = from_dict data.
Proof. unfold from_dict. by rewrite !lookup_insert_ne. Qed.

Lemma from_dict_callSites (data : document) :
  data !! "callsites" = None ->
  from_dict data = from_dict (<["callsites" := default [] (data !! "callSites")]> data).
Proof.
  intros H. unfold from_dict.
  rewrite lookup_insert_eq, !lookup_insert_ne by done. by rewrite H.
Qed.

Lemma parse_callsite_caller_id o v :
  members o !! "caller" = None -> members o !! "caller_id" = Some v ->
  parse_callsite o = parse_callsite (mkObj (<["caller" := v]> (members o)) (line_member o)).
Proof.
  intros H1 H2. unfold parse_callsite, get_alias, get. simpl.
  rewrite lookup_insert_eq, !lookup_insert_ne by done. by rewrite H1, H2.
Qed.

Lemma parse_callsite_callee_id o v :
  members o !! "callee" = None -> members o !! "callee_id" = Some v ->
  parse_callsite o = parse_callsite (mkObj (<["callee" := v]> (members o)) (line_member o)).
Proof.
  intros H1 H2. unfold parse_callsite, get_alias, get. simpl.
  rewrite lookup_insert_eq, !lookup_insert_ne by done. by rewrite H1, H2.
Qed.

Lemma from_dict_derives_edges (data : document) g :
  default [] (data !! "edges") = [] -> from_dict data = Ok g ->
  edges g = edge_of_callsite <$> callsites g.
Proof.
  intros He. unfold from_dict. rewrite He.
  destruct (rmap parse_function _) as [fs|]; simpl; [|done].
  destruct (rmap parse_callsite _) as [css|] eqn:Ec; simpl; [|done].
  apply rmap_ok in Ec.
  rewrite (rmap_total derive_edge edge_of_callsite css).
  - simpl. by intros [= <-].
  - apply Forall_forall. intros cs Hcs.
    apply (Forall2_Forall_r _ (fun cs => exists o, parse_callsite o = Ok cs)) in Ec.
    + rewrite Forall_forall in Ec. destruct (Ec cs Hcs) as [o Ho].
      by eapply derive_edge_parsed.
    + apply Forall_forall. eauto.
Qed.

Lemma derived_edges css :
  Forall (fun cs => exists o, parse_callsite o = Ok cs) css ->
  rmap derive_edge css = Ok (edge_of_callsite <$> css).
Proof.
  intros H. apply rmap_total. eapply Forall_impl; [exact H|].
  intros cs [o Ho]. by eapply derive_edge_parsed.
Qed.

(** What [from_dict] returns, read off the records: the functions are the
    records of [functions], the call sites the records of [callsites], or
    of [callSites] when [callsites] is absent, each parsed in order, and the
    edges are the parsed records of [edges] or, without such records, the
    edges of the call sites. *)
Lemma from_dict_reads (data : document) g :
  from_dict data = Ok g <->
  rmap parse_function (default [] (data !! "functions")) = Ok (functions g)
  /\ rmap parse_callsite (default (default [] (data !! "callSites")) (data !! "callsites"))
     = Ok (callsites g)
  /\ match default [] (data !! "edges") with
     | [] => edges g = edge_of_callsite <$> callsites g
     | edges_data => rmap parse_edge edges_data = Ok (edges g)
     end.
Proof.
  unfold from_dict. split.
  - destruct (rmap parse_function _) as [fs|]; simpl; [|done].
    destruct (rmap parse_callsite _) as [css|] eqn:Ec; simpl; [|done].
    assert (rmap derive_edge css = Ok (edge_of_callsite <$> css)) as Hd.
    { apply derived_edges. apply rmap_ok in Ec.
      apply (Forall2_Forall_r _ (fun cs => exists o, parse_callsite o = Ok cs)) in Ec; [done|].
      apply Forall_forall. eauto. }
    destruct (default [] (data !! "edges")) as [|e0 es0].
    + rewrite Hd. simpl. by intros [= <-].
    + destruct (rmap parse_edge (e0 :: es0)) as [es|] eqn:Ee; [|done].
      cbn [rbind]. intros [= <-]. split; [done|]. split; [done|exact Ee].
  - destruct g as [fs css es]. cbn [functions callsites edges].
    intros (-> & Ec & He). rewrite Ec. cbn [rbind].
    destruct (default [] (data !! "edges")) as [|e0 es0].
    + rewrite derived_edges, He; [done|]. apply rmap_ok in Ec.
      apply (Forall2_Forall_r _ (fun cs => exists o, parse_callsite o = Ok cs)) in Ec; [done|].
      apply Forall_forall. eauto.
    + by rewrite He.
Qed.

(** A call site is built from the members [id], [caller] (or [caller_id]
    when [caller] is absent), [callee] (or [callee_id]), [file] and
    [line] of its record. *)
Lemma parse_callsite_reads o cs :
  parse_callsite o = Ok cs ->
  exists i c1 c2,
    get o "id" = JStr i
    /\ get_alias o "caller" "caller_id" = JStr c1
    /\ get_alias o "callee" "callee_id" = JStr c2
    /\ cs_id cs = strip i /\ cs_caller cs = strip c1 /\ cs_callee cs = strip c2.
Proof.
  intros (H1 & H2 & H3)%new_CallSite_ok.
  apply required_str_inr in H1 as (i & [= Hi] & Ei & _).
  apply required_str_inr in H2 as (c1 & [= Hc1] & Ec1 & _).
  apply required_str_inr in H3 as (c2 & [= Hc2] & Ec2 & _).
  by exists i, c1, c2.
Qed.

(** C4, amended.  from_dict reads the call-site records of the key
    [callsites], or of [callSites] when [callsites] is absent, and never the
    key [calls]; [caller_id] and [callee_id] stand in for an absent [caller]
    and [callee]; a document without edges gets one Edge per parsed
    CallSite, in order, with that call site's caller, callee and id; the
    graph returned holds exactly the parsed records of the keys read, in
    order, and a document is accepted exactly when its records parse; and a
    parsed call site carries the stripped [id], [caller] and [callee] of its
    record. *)
Theorem from_dict_callsite_keys_and_derived_edges :
  (forall (data : document) calls, from_dict (<["calls" := calls]> data) = from_dict data)
  /\ (forall data : document, data !! "callsites" = None ->
        from_dict data
        = from_dict (<["callsites" := default [] (data !! "callSites")]> data))
  /\ (forall o v, members o !! "caller" = None -> members o !! "caller_id" = Some v ->
        parse_callsite o
        = parse_callsite (mkObj (<["caller" := v]> (members o)) (line_member o)))
  /\ (forall o v, members o !! "callee" = None -> members o !! "callee_id" = Some v ->
        parse_callsite o
        = parse_callsite (mkObj (<["callee" := v]> (members o)) (line_member o)))
  /\ (forall (data : document) g,
        default [] (data !! "edges") = [] -> from_dict data = Ok g ->
        edges g = edge_of_callsite <$> callsites g)
  /\ (forall (data : document) g,
        from_dict data = Ok g <->
        rmap parse_function (default [] (data !! "functions")) = Ok (functions g)
        /\ rmap parse_callsite
             (default (default [] (data !! "callSites")) (data !! "callsites"))
           = Ok (callsites g)
        /\ match default [] (data !! "edges") with
           | [] => edges g = edge_of_callsite <$> callsites g
           | edges_data => rmap parse_edge edges_data = Ok (edges g)
           end)
  /\ (forall o cs, parse_callsite o = Ok cs ->
        exists i c1 c2,
          get o "id" = JStr i
          /\ get_alias o "caller" "caller_id" = JStr c1
          /\ get_alias o "callee" "callee_id" = JStr c2
          /\ cs_id cs = strip i /\ cs_caller cs = strip c1 /\ cs_callee cs = strip c2).
Proof.
  split; [exact from_dict_ignores_calls|].
  split; [exact from_dict_callSites|].
  split; [exact parse_callsite_caller_id|].
  split; [exact parse_callsite_callee_id|].
  split; [exact from_dict_derives_edges|].
  split; [exact from_dict_reads | exact parse_callsite_reads].
Qed.

Lemma from_dict_callsite_keys_and_derived_edges_witness :
  exists g, from_dict Scenario.document_with_callSites = Ok g
    /\ edges g = [mkEdge "f1" "f2" (Some "c1"); mkEdge "f2" "f3" (Some "c2");
                  mkEdge "f1" "f3" (Some "c3")].
Proof.
  destruct from_dict_callsite_keys_and_derived_edges as (_ & _ & _ & _ & H & _).
  eexists. split; [vm_compute; reflexivity|].
  rewrite (H Scenario.document_with_callSites _ eq_refl ltac:(vm_compute; reflexivity)).
  reflexivity.
Defined.

(** C4, as stated, fails on the scenario document: its call records are under
    [calls], and it parses to a graph with the three functions, no call site
    and no edge. *)
Lemma from_dict_calls_key_counterexample :
  from_dict Scenario.document_with_calls
  = Ok (mkCallGraph (functions Scenario.graph) [] []).
Proof. vm_compute. reflexivity. Qed.

End FromDict.

(** ** validate_callgraph *)

Section Validate.
Import Model Validator.

Lemma callsite_step_mono fids st cs :
  st.1.1 ⊆ (callsite_step fids st cs).1.1
  /\ st.1.2 ⊆ (callsite_step fids st cs).1.2
  /\ st.2 ⊆ (callsite_step fids st cs).2
  /\ cs_id cs ∈ (callsite_step fids st cs).1.1.
Proof.
  destruct st as [[ids dups] refs]. unfold callsite_step, append. simpl.
  repeat split.
  - apply union_subseteq_l.
  - case_decide; [|done]. intros x Hx. apply elem_of_app. by left.
  - repeat case_decide; try done; intros x Hx; rewrite ?elem_of_app; auto.
  - apply elem_of_union_r. by apply elem_of_singleton.
Qed.

Lemma scan_mono fids css st :
  st.1.1 ⊆ (fold_left (callsite_step fids) css st).1.1
  /\ st.1.2 ⊆ (fold_left (callsite_step fids) css st).1.2
  /\ st.2 ⊆ (fold_left (callsite_step fids) css st).2.
Proof.
  revert st. induction css as [|cs css IH]; intros st; simpl; [done|].
  destruct (callsite_step_mono fids st cs) as (H1 & H2 & H3 & _).
  destruct (IH (callsite_step fids st cs)) as (I1 & I2 & I3).
  repeat split; etrans; eauto.
Qed.

Lemma scan_ids fids css st cs :
  cs ∈ css -> cs_id cs ∈ (fold_left (callsite_step fids) css st).1.1.
Proof.
  revert st. induction css as [|c css IH]; intros st Hin; [by apply elem_of_nil in Hin|].
  simpl. apply elem_of_cons in Hin as [->|Hin]; [|by apply IH].
  destruct (callsite_step_mono fids st c) as (_ & _ & _ & H).
  by apply (scan_mono fids css (callsite_step fids st c)).
Qed.

Lemma scan_refs_complete fids css st cs :
  cs ∈ css ->
  (cs_caller cs ∉ fids -> caller_message cs ∈ (fold_left (callsite_step fids) css st).2)
  /\ (cs_callee cs ∉ fids -> callee_message cs ∈ (fold_left (callsite_step fids) css st).2).
Proof.
  revert st. induction css as [|c css IH]; intros st Hin; [by apply elem_of_nil in Hin|].
  simpl. apply elem_of_cons in Hin as [->|Hin]; [|by apply IH].
  destruct (scan_mono fids css (callsite_step fids st c)) as (_ & _ & Hm).
  clear IH. split; intros Hn; apply Hm; destruct st as [[ids dups] refs];
    unfold callsite_step, append; simpl.
  - destruct (decide (cs_caller c ∈ fids)); [done|].
    case_decide; rewrite ?elem_of_app, !list_elem_of_singleton; auto.
  - destruct (decide (cs_callee c ∈ fids)); [done|].
    rewrite elem_of_app, list_elem_of_singleton; auto.
Qed.

Lemma scan_dups_seen fids css st cs :
  cs ∈ css -> cs_id cs ∈ st.1.1 ->
  cs_id cs ∈ (fold_left (callsite_step fids) css st).1.2.
Proof.
  revert st. induction css as [|c css IH]; intros st Hin Hid; [by apply elem_of_nil in Hin|].
  simpl. apply elem_of_cons in Hin as [->|Hin].
  - apply (scan_mono fids css (callsite_step fids st c)).
    destruct st as [[ids dups] refs]. unfold callsite_step, append. simpl in *.
    case_decide; [|done]. apply elem_of_app. right. apply list_elem_of_here.
  - apply IH; [done|]. by apply (callsite_step_mono fids st c).
Qed.

Lemma scan_dups_complete fids css1 cs1 css2 cs2 :
  cs_id cs1 = cs_id cs2 -> cs2 ∈ css2 ->
  cs_id cs2 ∈ (scan_callsites fids (css1 ++ cs1 :: css2)).1.2.
Proof.
  intros Hid Hin. unfold scan_callsites.
  rewrite fold_left_app. simpl. apply scan_dups_seen; [done|].
  rewrite <- Hid. apply (callsite_step_mono fids _ cs1).
Qed.

Lemma nonempty_true {A} (l : list A) : l <> [] -> nonempty l = true.
Proof. by destruct l. Qed.

(** C6, amended.  For a graph with at least one function and no repeated
    function id, so that validation reaches the call sites: one pass over
    the call sites accumulates every id seen again and a message for every
    caller and callee that is no function id; the error then raised names
    one category only: when an id is duplicated it lists the duplicate ids
    and no dangling reference, and the dangling references are listed, all
    of them, only when no call-site id is duplicated. *)
Theorem validate_reports_one_category g fids cids dups refs :
  functions g <> [] ->
  scan_functions (functions g) = (fids, []) ->
  scan_callsites fids (callsites g) = (cids, dups, refs) ->
  (forall cs, cs ∈ callsites g ->
      (cs_caller cs ∉ fids -> caller_message cs ∈ refs)
      /\ (cs_callee cs ∉ fids -> callee_message cs ∈ refs))
  /\ (forall css1 cs1 css2 cs2,
      callsites g = (css1 ++ cs1 :: css2)%list -> cs2 ∈ css2 ->
      cs_id cs1 = cs_id cs2 -> cs_id cs2 ∈ dups)
  /\ (dups <> [] ->
      validate_callgraph g
      = Raise (ValidationError ("Duplicate callsite IDs found: " ++ join ", " dups)))
  /\ (dups = [] -> refs <> [] ->
      validate_callgraph g
      = Raise (ValidationError
                 ("Invalid function references in callsites:" ++ nl ++ join nl refs))).
Proof.
  intros Hf Hsf Hsc. split; [|split; [|split]].
  - intros cs Hin. unfold scan_callsites in Hsc.
    pose proof (scan_refs_complete fids (callsites g) (∅, [], []) cs Hin) as H.
    by rewrite Hsc in H.
  - intros css1 cs1 css2 cs2 E Hin Hid.
    pose proof (scan_dups_complete fids css1 cs1 css2 cs2 Hid Hin) as H.
    rewrite <- E, Hsc in H. done.
  - intros Hd. unfold validate_callgraph.
    rewrite (nonempty_true _ Hf). simpl. rewrite Hsf. simpl. rewrite Hsc.
    by rewrite (nonempty_true _ Hd).
  - intros -> Hr. unfold validate_callgraph.
    rewrite (nonempty_true _ Hf). simpl. rewrite Hsf. simpl. rewrite Hsc. simpl.
    by rewrite (nonempty_true _ Hr).
Qed.

Lemma validate_reports_one_category_witness :
  callee_message (mkCallSite "c1" "f1" "zz" None None)
    ∈ ["Callsite c1: callee 'zz' not found"%string]
  /\ validate_callgraph Scenario.graph_dup_and_dangling
     = Raise (ValidationError ("Duplicate callsite IDs found: " ++ join ", " ["c1"%string])).
Proof.
  destruct (validate_reports_one_category Scenario.graph_dup_and_dangling
              {[ "f1"%string; "f2"%string ]}
              {[ "c1"%string ]} ["c1"%string]
              ["Callsite c1: callee 'zz' not found"%string])
    as (Hrefs & _ & Hdup & _).
  - discriminate.
  - vm_compute. reflexivity.
  - vm_compute. reflexivity.
  - split.
    + apply (Hrefs (mkCallSite "c1" "f1" "zz" None None)).
      * vm_compute. apply list_elem_of_further, list_elem_of_here.
      * vm_compute. intros H. discriminate H.
    + apply Hdup. discriminate.
Defined.

(** C6, as stated, fails: with a duplicated call-site id and a dangling
    callee in the same graph, the dangling reference was accumulated but the
    error raised lists the duplicate id alone. *)
Lemma validate_duplicates_hide_dangling_counterexample :
  (scan_callsites {[ "f1"%string; "f2"%string ]}
     (callsites Scenario.graph_dup_and_dangling)).2
  = ["Callsite c1: callee 'zz' not found"%string]
  /\ validate_callgraph Scenario.graph_dup_and_dangling
     = Raise (ValidationError "Duplicate callsite IDs found: c1")
  /\ contains "Callsite c1: callee 'zz' not found" "Duplicate callsite IDs found: c1"
     = false
  /\ contains "zz" "Duplicate callsite IDs found: c1" = false.
Proof. vm_compute. repeat split. Qed.

End Validate.

(** ** The storage gateway *)

Section Gateway.
Import Engine.

Lemma connection_eta c : mkConnection (committed c) (current c) = c.
Proof. by destruct c. Qed.

Lemma execute_spec {R} (stmt : statement R) c :
  DB.execute stmt c =
    match stmt (current c) with
    | Ok (t', rows) => (Ok rows, mkConnection (committed c) t')
    | Raise _ => (Ok [], c)
    end.
Proof.
  unfold DB.execute, conn_execute.
  destruct (stmt (current c)) as [[t' rows]|e]; done.
Qed.

(** C9, amended.  A read through [DB.execute] never raises: it returns the
    rows the engine produced, none when there is none, and when the engine
    fails the error is caught and the read returns the empty list as well,
    with the connection untouched.  An engine failure reaches the caller
    only from [execute_write] and [executemany]. *)
Theorem execute_swallows_engine_failure {R} (stmt : statement R) c :
  (forall t' rows, stmt (current c) = Ok (t', rows) ->
      DB.execute stmt c = (Ok rows, mkConnection (committed c) t'))
  /\ (forall e, stmt (current c) = Raise e ->
      DB.execute stmt c = (Ok [], c)
      /\ DB.execute_write stmt c = (Raise e, c)
      /\ DB.executemany (fun _ : unit => stmt) [tt] c = (Raise e, c)).
Proof.
  split.
  - intros t' rows H. by rewrite execute_spec, H.
  - intros e H. rewrite execute_spec, H.
    unfold DB.execute_write, DB.executemany, bind, DB.execute_each, conn_execute.
    by rewrite H.
Qed.

Lemma execute_swallows_engine_failure_witness :
  DB.execute Queries.sql_list_functions (connect Scenario.empty_db)
  = (Ok [], connect Scenario.empty_db).
Proof.
  destruct (execute_swallows_engine_failure Queries.sql_list_functions
              (connect Scenario.empty_db)) as [_ H].
  apply (H (OperationalError "no such table: functions")). reflexivity.
Defined.

(** C9, as stated, fails: on a database file without tables the engine
    raises for the query of [list_functions], for the query of
    [get_callees] and for the root query of the depth computation, and each
    read returns normally with an empty list. *)
Lemma read_failure_returns_empty_counterexample :
  let c := connect Scenario.empty_db in
  fst (conn_execute Queries.sql_list_functions c)
    = Raise (OperationalError "no such table: functions")
  /\ Queries.list_functions c = (Ok [], c)
  /\ fst (conn_execute (Queries.sql_callees "main") c)
    = Raise (OperationalError "no such table: edges")
  /\ Queries.get_callees "main" c = (Ok [], c)
  /\ fst (conn_execute (sql_select_root "main") c)
    = Raise (OperationalError "no such table: functions")
  /\ DB.execute (sql_select_root "main") c = (Ok [], c).
Proof. vm_compute. repeat split. Qed.

End Gateway.

(** ** Root resolution *)

Section RootResolution.
Import Engine.

Lemma head_filter_first {A} (P : A -> Prop) `{!forall x, Decision (P x)} (l : list A) x :
  head (filter P l) = Some x ->
  exists pre post, l = (pre ++ x :: post)%list /\ P x /\ forall y, y ∈ pre -> ~ P y.
Proof.
  induction l as [|a l IH]; [done|].
  rewrite filter_cons. destruct (decide (P a)) as [Ha|Ha]; simpl.
  - intros [= ->]. exists [], l. repeat split; [done|]. by intros y ?%elem_of_nil.
  - intros (pre & post & -> & Hx & Hpre)%IH. exists (a :: pre), post.
    repeat split; [done|]. intros y [->|?]%elem_of_cons; auto.
Qed.

(** The root query returns the ids of the functions whose id or name equals
    the argument, in table order, so the row a cursor hands out first is the
    first such function of the table, whether it matched by id or by name;
    when no function matches, the query has no row. *)
Theorem root_query_first_match root t rows :
  t_functions t = Some rows ->
  exists ids,
    sql_select_root root t = Ok (t, ids)
    /\ (forall i, i ∈ ids <-> exists r, r ∈ rows /\ fn_id r = i /\ matches_root root r)
    /\ (forall i, fetchone (Cursor ids) = Ok (Some i) ->
          exists pre r post, rows = (pre ++ r :: post)%list /\ fn_id r = i
            /\ matches_root root r /\ forall r', r' ∈ pre -> ~ matches_root root r')
    /\ ((forall r, r ∈ rows -> ~ matches_root root r) -> fetchone (Cursor ids) = Ok None).
Proof.
  intros Ht. exists (fn_id <$> filter (matches_root root) rows).
  split; [|split; [|split]].
  - unfold sql_select_root. by rewrite Ht.
  - intros i. rewrite list_elem_of_fmap. split.
    + intros (r & -> & [Hm Hr]%list_elem_of_filter). eauto.
    + intros (r & Hr & <- & Hm). exists r. split; [done|].
      by apply list_elem_of_filter.
  - simpl. intros i [= Hh].
    destruct (filter (matches_root root) rows) as [|r l] eqn:E; [done|].
    simpl in Hh. injection Hh as <-.
    assert (head (filter (matches_root root) rows) = Some r) as Hr by (by rewrite E).
    apply head_filter_first in Hr as (pre & post & -> & Hm & Hpre).
    by exists pre, r, post.
  - intros Hnone. simpl. f_equal.
    destruct (filter (matches_root root) rows) as [|r l] eqn:E; [done|].
    assert (r ∈ filter (matches_root root) rows) as [Hm Hr]%list_elem_of_filter
      by (rewrite E; apply list_elem_of_here).
    by destruct (Hnone r Hr).
Qed.

Lemma root_query_first_match_witness :
  exists ids, sql_select_root "x" (current Scenario.ambiguous)
              = Ok (current Scenario.ambiguous, ids)
    /\ ("x"%string ∈ ids <->
        exists r, r ∈ [mkFunctionRow "f1" "x" None None; mkFunctionRow "x" "y" None None]
                  /\ fn_id r = "x"%string /\ matches_root "x" r).
Proof.
  destruct (root_query_first_match "x" (current Scenario.ambiguous)
              [mkFunctionRow "f1" "x" None None; mkFunctionRow "x" "y" None None]
              eq_refl) as (ids & H1 & H2 & _).
  exists ids. split; [exact H1 | exact (H2 "x"%string)].
Defined.

(** The query gives an id match no priority: "x" is the name of function f1
    and the id of the function after it; the first row of the root query is
    f1, the match by name, on the cursor of the engine and in the list
    [DB.execute] returns; and the depth computation itself, given "x",
    raises and resolves no root. *)
Lemma root_id_priority_counterexample :
  conn_execute (sql_select_root "x") Scenario.ambiguous
    = (Ok (Cursor ["f1"%string; "x"%string]), Scenario.ambiguous)
  /\ fetchone (Cursor ["f1"%string; "x"%string]) = Ok (Some "f1"%string)
  /\ "f1"%string <> "x"%string
  /\ DB.execute (sql_select_root "x") Scenario.ambiguous
     = (Ok ["f1"%string; "x"%string], Scenario.ambiguous)
  /\ Writer._compute_depths "x" Scenario.ambiguous
     = (Raise fetchone_on_list, Scenario.ambiguous).
Proof. vm_compute. repeat split. discriminate. Qed.

End RootResolution.

(** ** Upserts *)

Section Upsert.
Import Engine Writer.
Context {R : Type} (key : R -> string).

Lemma lookup_upsert_eq new rows :
  lookup_key key (key new) (upsert key new rows) = Some new.
Proof.
  induction rows as [|r rows IH]; simpl.
  - by rewrite decide_True.
  - destruct (decide (key r = key new)) as [E|E]; simpl.
    + by rewrite decide_True.
    + by rewrite decide_False.
Qed.

Lemma lookup_upsert_ne k new rows :
  key new <> k -> lookup_key key k (upsert key new rows) = lookup_key key k rows.
Proof.
  intros Hk. induction rows as [|r rows IH]; simpl.
  - by rewrite decide_False.
  - destruct (decide (key r = key new)) as [E|E]; simpl.
    + rewrite !decide_False by congruence. done.
    + destruct (decide (key r = k)); done.
Qed.

Lemma upsert_fixed new rows :
  lookup_key key (key new) rows = Some new -> upsert key new rows = rows.
Proof.
  induction rows as [|r rows IH]; simpl; [done|].
  destruct (decide (key r = key new)) as [E|E].
  - by intros [= ->].
  - intros H. by rewrite IH.
Qed.

Lemma lookup_upsert_all_ne k news rows :
  (forall n, n ∈ news -> key n <> k) ->
  lookup_key key k (upsert_all key news rows) = lookup_key key k rows.
Proof.
  revert rows. induction news as [|a news IH]; intros rows Hk; simpl; [done|].
  unfold upsert_all in *. simpl. rewrite IH.
  - apply lookup_upsert_ne, Hk, list_elem_of_here.
  - intros n Hn. by apply Hk, list_elem_of_further.
Qed.

Lemma lookup_upsert_all news rows n :
  NoDup (key <$> news) -> n ∈ news ->
  lookup_key key (key n) (upsert_all key news rows) = Some n.
Proof.
  revert rows. induction news as [|a news IH]; intros rows Hnd Hn.
  - by apply elem_of_nil in Hn.
  - rewrite fmap_cons in Hnd. apply NoDup_cons in Hnd as [Ha Hnd].
    unfold upsert_all in *. simpl.
    apply elem_of_cons in Hn as [->|Hn]; [|by apply IH].
    fold (upsert_all key news (upsert key a rows)).
    rewrite lookup_upsert_all_ne; [apply lookup_upsert_eq|].
    intros m Hm E. apply Ha. rewrite <- E. by apply list_elem_of_fmap_2.
Qed.

Lemma upsert_all_fixed news rows :
  (forall n, n ∈ news -> lookup_key key (key n) rows = Some n) ->
  upsert_all key news rows = rows.
Proof.
  induction news as [|a news IH]; intros H; [done|].
  unfold upsert_all in *. simpl. rewrite upsert_fixed.
  - apply IH. intros n Hn. by apply H, list_elem_of_further.
  - apply H, list_elem_of_here.
Qed.

(** Upserting the same rows, with distinct keys, a second time changes
    nothing. *)
Lemma upsert_all_idem news rows :
  NoDup (key <$> news) ->
  upsert_all key news (upsert_all key news rows) = upsert_all key news rows.
Proof.
  intros Hnd. apply upsert_all_fixed. intros n Hn. by apply lookup_upsert_all.
Qed.

End Upsert.

(** ** Writer.load_callgraph *)

Section Load.
Import Model Validator Engine Writer.

Lemma execute_each_functions ps c rows :
  t_functions (current c) = Some rows ->
  DB.execute_each sql_upsert_function ps c
  = (Ok tt, mkConnection (committed c)
              (mkTables (Some (upsert_all fn_id (function_row <$> ps) rows))
                        (t_callsites (current c)) (t_edges (current c)))).
Proof.
  revert c rows. induction ps as [|p ps IH]; intros [K [f cs es]] rows H;
    simpl in *; subst.
  - done.
  - unfold conn_execute, sql_upsert_function at 1. simpl.
    by rewrite (IH _ (upsert fn_id (function_row p) rows)).
Qed.

Lemma execute_each_callsites ps c rows :
  t_callsites (current c) = Some rows ->
  forallb (fun p => binds (csr_line (callsite_row p))) ps = true ->
  DB.execute_each sql_upsert_callsite ps c
  = (Ok tt, mkConnection (committed c)
              (mkTables (t_functions (current c))
                        (Some (upsert_all csr_id (callsite_row <$> ps) rows))
                        (t_edges (current c)))).
Proof.
  revert c rows. induction ps as [|p ps IH]; intros [K [f cs es]] rows H Hfit;
    simpl in *; subst.
  - done.
  - apply andb_true_iff in Hfit as [Hp Hfit].
    unfold conn_execute, sql_upsert_callsite at 1. simpl. rewrite Hp.
    by rewrite (IH _ (upsert csr_id (callsite_row p) rows)).
Qed.

(** A batch with a line that cannot be bound stops there: the statements
    before it stay in the open transaction, nothing is committed, and the
    other tables are not touched. *)
Lemma execute_each_callsites_overflow ps c rows :
  t_callsites (current c) = Some rows ->
  forallb (fun p => binds (csr_line (callsite_row p))) ps = false ->
  exists rows',
    DB.execute_each sql_upsert_callsite ps c
    = (Raise int_too_large,
       mkConnection (committed c)
         (mkTables (t_functions (current c)) (Some rows') (t_edges (current c)))).
Proof.
  revert c rows. induction ps as [|p ps IH]; intros [K [f cs es]] rows H Hfit;
    simpl in *; subst; [done|].
  unfold conn_execute, sql_upsert_callsite at 1. simpl.
  destruct (binds (csr_line (callsite_row p))) eqn:Hp; simpl in *.
  - by apply (IH (mkConnection K (mkTables f _ es)) (upsert csr_id (callsite_row p) rows)).
  - by exists rows.
Qed.

Lemma lines_fit_params css :
  forallb (fun p => binds (csr_line (callsite_row p))) (callsite_params css) = lines_fit css.
Proof.
  unfold lines_fit, callsite_params. induction css as [|cs css IH]; [done|].
  rewrite fmap_cons. simpl. by rewrite IH.
Qed.

(** No edge is ever inserted: every new row lacks the depth the table
    requires and is skipped. *)
Lemma execute_each_edges ps c rows :
  t_edges (current c) = Some rows ->
  DB.execute_each sql_insert_or_ignore_edge ps c = (Ok tt, c).
Proof.
  revert c. induction ps as [|[[caller callee] csid] ps IH]; intros c H; simpl; [done|].
  unfold conn_execute, sql_insert_or_ignore_edge at 1. rewrite H. simpl.
  rewrite connection_eta. by apply IH.
Qed.

Lemma insert_functions_ok fs c rows :
  t_functions (current c) = Some rows ->
  _insert_functions fs c
  = (Ok tt, connect
              (mkTables (Some (upsert_all fn_id (function_row <$> function_params fs) rows))
                        (t_callsites (current c)) (t_edges (current c)))).
Proof.
  intros H. unfold _insert_functions, DB.executemany, bind.
  fold (function_params fs). by rewrite (execute_each_functions _ _ _ H).
Qed.

Lemma insert_functions_missing f fs c :
  t_functions (current c) = None ->
  _insert_functions (f :: fs) c
  = (Raise (OperationalError "no such table: functions"), c).
Proof.
  intros H. unfold _insert_functions, DB.executemany, bind. simpl.
  unfold conn_execute, sql_upsert_function. by rewrite H.
Qed.

Lemma insert_callsites_ok cs css c rows :
  t_callsites (current c) = Some rows ->
  lines_fit (cs :: css) = true ->
  _insert_callsites (cs :: css) c
  = (Ok tt, connect
              (mkTables (t_functions (current c))
                 (Some (upsert_all csr_id (callsite_row <$> callsite_params (cs :: css)) rows))
                 (t_edges (current c)))).
Proof.
  intros H Hfit. rewrite <- lines_fit_params in Hfit.
  unfold _insert_callsites, DB.executemany, bind.
  fold (callsite_params (cs :: css)). by rewrite (execute_each_callsites _ _ _ H Hfit).
Qed.

(** A call site whose line cannot be bound makes [_insert_callsites] raise
    without a commit. *)
Lemma insert_callsites_overflow css c rows :
  t_callsites (current c) = Some rows ->
  lines_fit css = false ->
  exists rows',
    _insert_callsites css c
    = (Raise int_too_large,
       mkConnection (committed c)
         (mkTables (t_functions (current c)) (Some rows') (t_edges (current c)))).
Proof.
  intros H Hfit. destruct css as [|cs css]; [done|].
  rewrite <- lines_fit_params in Hfit.
  destruct (execute_each_callsites_overflow _ _ _ H Hfit) as [rows' E].
  exists rows'. unfold _insert_callsites, DB.executemany, bind.
  fold (callsite_params (cs :: css)). by rewrite E.
Qed.

Lemma insert_callsites_missing cs css c :
  t_callsites (current c) = None ->
  _insert_callsites (cs :: css) c
  = (Raise (OperationalError "no such table: callsites"), c).
Proof.
  intros H. unfold _insert_callsites, DB.executemany, bind. simpl.
  unfold conn_execute, sql_upsert_callsite. by rewrite H.
Qed.

Lemma insert_edges_ok es c rows :
  t_edges (current c) = Some rows ->
  _insert_edges es c = (Ok tt, match es with [] => c | _ => conn_commit c end).
Proof.
  intros H. destruct es as [|e es]; [done|].
  unfold _insert_edges, DB.executemany, bind.
  by rewrite (execute_each_edges _ _ _ H).
Qed.

Lemma insert_edges_missing e es c :
  t_edges (current c) = None ->
  _insert_edges (e :: es) c = (Raise (OperationalError "no such table: edges"), c).
Proof.
  intros H. unfold _insert_edges, DB.executemany, bind. simpl.
  unfold conn_execute, sql_insert_or_ignore_edge. by rewrite H.
Qed.

(** The depth computation stops at [cursor.fetchone()], whatever the root
    and the database, and changes nothing. *)
Lemma compute_depths_raises root c :
  _compute_depths root c = (Raise fetchone_on_list, c).
Proof.
  unfold _compute_depths, bind, lift. rewrite execute_spec.
  unfold sql_select_root. destruct (t_functions (current c)); simpl;
    by rewrite ?connection_eta.
Qed.

Lemma connect_commit t : conn_commit (connect t) = connect t.
Proof. done. Qed.

(** What a load does on a connection opened on [t]: it raises, and leaves
    the database [loaded graph t], committed. *)
Lemma load_callgraph_normal_form graph root t :
  functions graph <> [] ->
  exists e, load_callgraph graph root (connect t)
            = (Raise e, connect (loaded graph t)).
Proof.
  intros Hf. destruct graph as [fs css es]. simpl in Hf.
  destruct fs as [|f fs]; [done|]. clear Hf.
  unfold load_callgraph, try_except_reraise, loaded, bind. simpl functions. simpl callsites.
  simpl edges.
  destruct (t_functions t) as [frows|] eqn:Ef.
  - rewrite (insert_functions_ok _ _ frows) by done. simpl current.
    set (frows' := upsert_all fn_id _ frows).
    destruct css as [|cs css].
    + simpl _insert_callsites. unfold ret.
      destruct es as [|e es].
      * simpl _insert_edges. unfold ret. rewrite compute_depths_raises. eauto.
      * destruct (t_edges t) as [erows|] eqn:Ee.
        -- rewrite (insert_edges_ok _ _ erows) by done. rewrite connect_commit.
           rewrite compute_depths_raises. eauto.
        -- rewrite insert_edges_missing by done. eauto.
    + destruct (t_callsites t) as [crows|] eqn:Ec.
      * destruct (lines_fit (cs :: css)) eqn:Hfit.
        -- rewrite (insert_callsites_ok _ _ _ crows) by done. simpl current.
           simpl t_functions. simpl t_edges.
           set (crows' := upsert_all csr_id _ crows).
           destruct es as [|e es].
           ++ simpl _insert_edges. unfold ret. rewrite compute_depths_raises. eauto.
           ++ destruct (t_edges t) as [erows|] eqn:Ee.
              ** rewrite (insert_edges_ok _ _ erows) by done. rewrite connect_commit.
                 rewrite compute_depths_raises. eauto.
              ** rewrite insert_edges_missing by done. eauto.
        -- destruct (insert_callsites_overflow (cs :: css) (connect (mkTables (Some frows')
                       (Some crows) (t_edges t))) crows eq_refl Hfit) as [rows' ->].
           exists int_too_large. done.
      * rewrite insert_callsites_missing by done. eauto.
  - rewrite insert_functions_missing by done. eauto.
Qed.

Lemma scan_functions_nodup fs ids dups :
  (fold_left function_step fs (ids, dups)).2 = [] ->
  dups = [] /\ NoDup (f_id <$> fs) /\ forall f, f ∈ fs -> f_id f ∉ ids.
Proof.
  revert ids dups. induction fs as [|f fs IH]; intros ids dups; simpl.
  - intros ->. repeat split; [constructor|]. by intros f ?%elem_of_nil.
  - intros (Hd & Hnd & Hnot)%IH.
    destruct (decide (f_id f ∈ ids)) as [Hin|Hin].
    { unfold append in Hd. by destruct dups. }
    repeat split; [done| |].
    + apply NoDup_cons. split; [|done].
      intros (g & Hg & Hgin)%list_elem_of_fmap. apply (Hnot g Hgin).
      rewrite <- Hg. apply elem_of_union_r. by apply elem_of_singleton.
    + intros g [->|Hg]%elem_of_cons; [done|].
      intros Hin'. by apply (Hnot g Hg), elem_of_union_l.
Qed.

Lemma scan_callsites_nodup fids css ids dups refs :
  (fold_left (callsite_step fids) css (ids, dups, refs)).1.2 = [] ->
  dups = [] /\ NoDup (cs_id <$> css) /\ forall cs, cs ∈ css -> cs_id cs ∉ ids.
Proof.
  revert ids dups refs. induction css as [|c css IH]; intros ids dups refs; simpl.
  - intros ->. repeat split; [constructor|]. by intros f ?%elem_of_nil.
  - intros (Hd & Hnd & Hnot)%IH.
    destruct (decide (cs_id c ∈ ids)) as [Hin|Hin].
    { unfold append in Hd. by destruct dups. }
    repeat split; [done| |].
    + apply NoDup_cons. split; [|done].
      intros (g & Hg & Hgin)%list_elem_of_fmap. apply (Hnot g Hgin).
      rewrite <- Hg. apply elem_of_union_r. by apply elem_of_singleton.
    + intros g [->|Hg]%elem_of_cons; [done|].
      intros Hin'. by apply (Hnot g Hg), elem_of_union_l.
Qed.

(** A graph that passes validation has a function, and its function ids and
    its call-site ids are distinct. *)
Lemma validate_ok graph :
  validate_callgraph graph = Ok tt ->
  functions graph <> []
  /\ NoDup (f_id <$> functions graph) /\ NoDup (cs_id <$> callsites graph).
Proof.
  unfold validate_callgraph.
  destruct (functions graph) as [|f fs] eqn:Ef; [done|]. simpl negb. cbv iota.
  destruct (scan_functions (f :: fs)) as [fids dupf] eqn:E1.
  destruct dupf as [|d dupf]; [|done]. simpl nonempty. cbv iota.
  destruct (scan_callsites fids (callsites graph)) as [[cids dupc] refs] eqn:E2.
  destruct dupc as [|d dupc]; [|done]. intros _.
  split; [done|]. split.
  - unfold scan_functions in E1.
    apply (scan_functions_nodup (f :: fs) ∅ []). by rewrite E1.
  - unfold scan_callsites in E2.
    apply (scan_callsites_nodup fids (callsites graph) ∅ [] []). by rewrite E2.
Qed.

Lemma function_row_keys fs :
  fn_id <$> (function_row <$> function_params fs) = f_id <$> fs.
Proof.
  unfold function_params. rewrite <- !list_fmap_compose.
  by apply list_fmap_ext.
Qed.

Lemma callsite_row_keys css :
  csr_id <$> (callsite_row <$> callsite_params css) = cs_id <$> css.
Proof.
  unfold callsite_params. rewrite <- !list_fmap_compose.
  by apply list_fmap_ext.
Qed.

Lemma loaded_idem graph t :
  NoDup (f_id <$> functions graph) -> NoDup (cs_id <$> callsites graph) ->
  loaded graph (loaded graph t) = loaded graph t.
Proof.
  intros Hf Hc. rewrite <- function_row_keys in Hf. rewrite <- callsite_row_keys in Hc.
  unfold loaded. destruct (t_functions t) as [frows|] eqn:Ef; [|by rewrite Ef].
  destruct (callsites graph) as [|cs css] eqn:Ecs.
  - cbn [t_functions t_callsites t_edges]. by rewrite (upsert_all_idem fn_id _ _ Hf).
  - destruct (t_callsites t) as [crows|] eqn:Ec; cbn [t_functions t_callsites t_edges].
    + rewrite (upsert_all_idem fn_id _ _ Hf).
      destruct (lines_fit (cs :: css)); [|done].
      by rewrite (upsert_all_idem csr_id _ _ Hc).
    + by rewrite (upsert_all_idem fn_id _ _ Hf).
Qed.

(** C1.  On a connection opened on any database, a second load of the same
    valid graph with the same root leaves the connection, and with it the
    committed tables of functions, call sites and edges with their depths,
    exactly as the first load left them. *)
Theorem load_twice_same_state graph root t :
  validate_callgraph graph = Ok tt ->
  snd (load_callgraph graph root
         (snd (load_callgraph graph root (connect t))))
  = snd (load_callgraph graph root (connect t)).
Proof.
  intros (Hne & Hf & Hc)%validate_ok.
  destruct (load_callgraph_normal_form graph root t Hne) as [e1 ->]. simpl snd.
  destruct (load_callgraph_normal_form graph root (loaded graph t) Hne) as [e2 ->].
  simpl. by rewrite loaded_idem.
Qed.

Lemma load_twice_same_state_witness :
  snd (load_callgraph Scenario.graph "main"
         (snd (load_callgraph Scenario.graph "main"
                 (connect (current Scenario.fresh)))))
  = snd (load_callgraph Scenario.graph "main"
           (connect (current Scenario.fresh))).
Proof.
  apply (load_twice_same_state Scenario.graph "main" (current Scenario.fresh)).
  vm_compute. reflexivity.
Defined.

End Load.

(** ** Loading the scenario graph *)

Section LoadScenario.
Import Model Engine Writer Queries.

(** C2: the code breaks the claim.  On a database just initialised, the load
    of the scenario graph raises in its last step, after [executemany] has
    committed the functions and the call sites: the rollback of the handler
    undoes nothing and the committed database is no longer the one before
    the call.  On a database file without the callsites table the second
    step raises, and the functions of the first step stay committed. *)
Theorem load_failure_keeps_committed_rows :
  (let after := load_callgraph Scenario.graph "main" Scenario.fresh in
   fst after = Raise fetchone_on_list
   /\ committed Scenario.fresh = mkTables (Some []) (Some []) (Some [])
   /\ committed (snd after)
      = mkTables (Some Scenario.stored_functions) (Some Scenario.stored_callsites)
                 (Some []))
  /\ (let after := load_callgraph Scenario.graph "main" Scenario.without_callsites_table in
      fst after = Raise (OperationalError "no such table: callsites")
      /\ committed Scenario.without_callsites_table = mkTables (Some []) None (Some [])
      /\ committed (snd after)
         = mkTables (Some Scenario.stored_functions) None (Some [])).
Proof. vm_compute. repeat split. Qed.

(** The traversal and the list of updates, on the rows of the scenario: the
    depths the depth computation is written to assign. *)
Example bfs_on_scenario :
  let adjacency := build_adjacency [("f1", "f2"); ("f2", "f3"); ("f1", "f3")]%string in
  bfs adjacency "f1" = {[ "f1"%string := 0; "f2"%string := 1; "f3"%string := 1 ]}
  /\ edge_updates adjacency (bfs adjacency "f1")
     = [(0, "f1", "f2"); (0, "f1", "f3"); (1, "f2", "f3")]%string.
Proof. split; vm_compute; reflexivity. Qed.

(** C3: the code breaks the claim.  On a database that holds the functions
    and the edges main -> a, a -> b, main -> b, each with depth 9, the depth
    computation from "main" raises at [cursor.fetchone()] and every edge
    keeps its depth; the same holds for the whole load; and on a database
    just initialised the load leaves the edges table empty. *)
Theorem depth_computation_assigns_no_depth :
  _compute_depths "main" Scenario.stored = (Raise fetchone_on_list, Scenario.stored)
  /\ t_edges (current Scenario.stored) = Some Scenario.stored_edges
  /\ er_depth <$> Scenario.stored_edges = [Some 9; Some 9; Some 9]
  /\ (let after := load_callgraph Scenario.graph "main" Scenario.stored in
      fst after = Raise fetchone_on_list
      /\ t_edges (committed (snd after)) = Some Scenario.stored_edges
      /\ t_edges (current (snd after)) = Some Scenario.stored_edges)
  /\ (let after := load_callgraph Scenario.graph "main" Scenario.fresh in
      fst after = Raise fetchone_on_list
      /\ t_edges (committed (snd after)) = Some []).
Proof. vm_compute. repeat split. Qed.

(** C5: the code breaks the claim.  No stored function has the id or the
    name "nope": the root query has no row, and a cursor over it would hand
    out [None], the case the guard of [_compute_depths] skips on.  But the
    code holds the list that [DB.execute] returns, and [cursor.fetchone()]
    raises before the guard: the depth computation is not skipped, it
    fails, and the load of the scenario graph with this root raises instead
    of completing, on the database that holds the functions and on a
    database just initialised.  The same happens for every root and every
    database, so no root is ever resolved, by id or by name. *)
Theorem unresolved_root_fails_the_load :
  (forall f, f ∈ Scenario.stored_functions -> ~ matches_root "nope" f)
  /\ conn_execute (sql_select_root "nope") Scenario.stored
     = (Ok (Cursor []), Scenario.stored)
  /\ fetchone (Cursor ([] : list string)) = Ok None
  /\ DB.execute (sql_select_root "nope") Scenario.stored = (Ok [], Scenario.stored)
  /\ _compute_depths "nope" Scenario.stored = (Raise fetchone_on_list, Scenario.stored)
  /\ fst (load_callgraph Scenario.graph "nope" Scenario.stored) = Raise fetchone_on_list
  /\ fst (load_callgraph Scenario.graph "nope" Scenario.fresh) = Raise fetchone_on_list
  /\ (forall root c, _compute_depths root c = (Raise fetchone_on_list, c)).
Proof.
  split.
  { intros f Hf [Hm|Hm];
      repeat (apply elem_of_cons in Hf as [->|Hf]; [discriminate Hm|]);
      by apply elem_of_nil in Hf. }
  split; [vm_compute; reflexivity|]. split; [reflexivity|].
  split; [vm_compute; reflexivity|]. split; [apply compute_depths_raises|].
  split; [vm_compute; reflexivity|]. split; [vm_compute; reflexivity|].
  apply compute_depths_raises.
Qed.

Lemma sql_callees_spec function t es fs :
  t_edges t = Some es -> t_functions t = Some fs ->
  exists rows,
    sql_callees function t = Ok (t, rows)
    /\ NoDup rows
    /\ forall f, f ∈ rows <->
         f ∈ fs /\ exists e caller, e ∈ es /\ caller ∈ fs
           /\ er_callee_function_id e = fn_id f
           /\ er_caller_function_id e = fn_id caller
           /\ (fn_id caller = function \/ fn_name caller = function).
Proof.
  intros He Hf. unfold sql_callees. rewrite He, Hf. eexists. split; [done|]. split.
  - unfold order_by_name. rewrite merge_sort_Permutation. apply NoDup_remove_dups.
  - intros f. unfold order_by_name. rewrite merge_sort_Permutation, elem_of_remove_dups.
    rewrite list_elem_of_bind. split.
    + intros (e & (f' & (caller & Hx & Hc)%list_elem_of_bind & Hf')%list_elem_of_bind & Hin).
      apply list_elem_of_filter in Hf' as [Hfe Hfin].
      apply list_elem_of_filter in Hc as [[Hce Hcm] Hcin].
      apply list_elem_of_singleton in Hx as ->.
      split; [done|]. exists e, caller. done.
    + intros (Hfin & e & caller & Hin & Hcin & Hfe & Hce & Hcm).
      exists e. split; [|done]. apply list_elem_of_bind. exists f. split.
      * apply list_elem_of_bind. exists caller. split; [apply list_elem_of_here|].
        by apply list_elem_of_filter.
      * by apply list_elem_of_filter.
Qed.

(** C7: the code breaks the claim.  After the load of the scenario graph on a
    database just initialised, which raises, the edges table is empty and
    [get_callees] of the root returns no function, by name and by id, while
    the graph has the edges f1 -> f2 and f1 -> f3. *)
Theorem loaded_root_has_no_callees :
  let after := load_callgraph Scenario.graph "main" Scenario.fresh in
  fst after = Raise fetchone_on_list
  /\ t_edges (committed (snd after)) = Some []
  /\ get_callees "main" (snd after) = (Ok [], snd after)
  /\ get_callees "f1" (snd after) = (Ok [], snd after)
  /\ filter (fun e => e_caller e = "f1"%string) (edges Scenario.graph)
     = [mkEdge "f1" "f2" (Some "c1"%string); mkEdge "f1" "f3" (Some "c3"%string)].
Proof. vm_compute. repeat split. Qed.

End LoadScenario.

(** ** Breadth-first depths *)

Section Bfs.
Import Engine Writer.

Lemma adj_get_add a b adjacency u :
  adj_get (adj_add a b adjacency) u
  = if decide (u = a) then Some (append (default [] (adj_get adjacency a)) b)
    else adj_get adjacency u.
Proof.
  induction adjacency as [|[k callees] adjacency IH]; simpl.
  - destruct (decide (a = u)), (decide (u = a)); subst; done.
  - destruct (decide (k = a)) as [->|Hk]; simpl.
    + destruct (decide (u = a)) as [->|].
      * by rewrite decide_True.
      * by rewrite !decide_False.
    + destruct (decide (k = u)) as [->|].
      * by rewrite decide_False.
      * rewrite IH. by destruct (decide (u = a)).
Qed.

Lemma calls_add a b adjacency u v :
  calls (adj_add a b adjacency) u v <-> calls adjacency u v \/ (u = a /\ v = b).
Proof.
  unfold calls. rewrite adj_get_add. destruct (decide (u = a)) as [->|Hu].
  - unfold append. split.
    + intros (callees & [= <-] & [Hv|Hv]%elem_of_app).
      * left. destruct (adj_get adjacency a) as [l|]; [eauto|by apply elem_of_nil in Hv].
      * apply list_elem_of_singleton in Hv. auto.
    + intros [(callees & Hg & Hv)|[_ ->]]; eexists; (split; [done|]);
        apply elem_of_app.
      * left. by rewrite Hg.
      * right. apply list_elem_of_here.
  - split; [auto|]. intros [H|[? _]]; done.
Qed.

(** The dictionary built from the rows relates exactly their pairs. *)
Lemma calls_build_adjacency rows u v :
  calls (build_adjacency rows) u v <-> (u, v) ∈ rows.
Proof.
  unfold build_adjacency.
  cut (forall adjacency,
         calls (fold_left (fun adjacency '(caller, callee) =>
                             adj_add caller callee adjacency) rows adjacency) u v
         <-> calls adjacency u v \/ (u, v) ∈ rows).
  { intros H. rewrite H. split; [|auto]. intros [(l & Hl & _)|]; done. }
  induction rows as [|[a b] rows IH]; intros adjacency; simpl.
  - split; [auto|]. intros [|?%elem_of_nil]; done.
  - rewrite IH, calls_add, elem_of_cons. split.
    + intros [[|[-> ->]]|]; auto.
    + intros [|[[= -> ->]|]]; auto.
Qed.

Lemma visit_sound adjacency root_id current d st neighbor :
  reachable adjacency root_id current -> calls adjacency current neighbor ->
  sound adjacency root_id st -> sound adjacency root_id (visit d st neighbor).
Proof.
  intros Hc Hn [H1 H2]. destruct st as [depths queue]. unfold visit. simpl in *.
  destruct (depths !! neighbor) eqn:E; [done|]. split; simpl.
  - intros v. rewrite lookup_insert. case_decide as Hv.
    + subst. intros _. by eapply rtc_r.
    + auto.
  - intros v. unfold append. rewrite elem_of_app, list_elem_of_singleton.
    rewrite lookup_insert. case_decide; [by eauto|]. intros [|]; [auto|done].
Qed.

Lemma visit_all_sound adjacency root_id current d neighbors st :
  reachable adjacency root_id current ->
  (forall n, n ∈ neighbors -> calls adjacency current n) ->
  sound adjacency root_id st ->
  sound adjacency root_id (fold_left (visit d) neighbors st).
Proof.
  intros Hc. revert st. induction neighbors as [|n neighbors IH]; intros st Hn Hs;
    simpl; [done|].
  apply IH.
  - intros m Hm. by apply Hn, list_elem_of_further.
  - eapply visit_sound; eauto. apply Hn, list_elem_of_here.
Qed.

Lemma bfs_loop_sound adjacency root_id fuel depths queue :
  sound adjacency root_id (depths, queue) ->
  sound adjacency root_id (bfs_loop fuel adjacency depths queue).
Proof.
  revert depths queue. induction fuel as [|fuel IH]; intros depths queue Hs; [done|].
  simpl. destruct queue as [|current queue].
  { destruct Hs as [H1 _]. split; [done|]. by intros v ?%elem_of_nil. }
  assert (reachable adjacency root_id current) as Hc.
  { destruct Hs as [H1 H2]. apply H1, H2, list_elem_of_here. }
  assert (sound adjacency root_id (depths, queue)) as Hs'.
  { destruct Hs as [H1 H2]. split; [done|]. intros v Hv. by apply H2, list_elem_of_further. }
  destruct (adj_get adjacency current) as [neighbors|] eqn:Eg.
  - pose proof (visit_all_sound adjacency root_id current (depths !!! current)
                  neighbors (depths, queue) Hc) as Hv.
    destruct (fold_left _ neighbors (depths, queue)) as [depths' queue'].
    apply IH, Hv; [|done]. intros n Hn. by exists neighbors.
  - by apply IH.
Qed.

(** Only nodes with a path from the root get a depth. *)
Lemma bfs_sound adjacency root_id v :
  is_Some (bfs adjacency root_id !! v) -> reachable adjacency root_id v.
Proof.
  unfold bfs.
  pose proof (bfs_loop_sound adjacency root_id (bfs_fuel adjacency)
                {[ root_id := 0 ]} [root_id]) as [H _]; [|by apply H].
  split; simpl.
  - intros w [d Hw]. apply lookup_singleton_Some in Hw as [<- _]. apply rtc_refl.
  - intros w ->%list_elem_of_singleton. rewrite lookup_singleton_eq. eauto.
Qed.

(** An update is made only for a caller and a callee that both have a
    depth, with the depth of the caller. *)
Lemma edge_updates_only_with_depth adjacency depths d caller callee :
  (d, caller, callee) ∈ edge_updates adjacency depths ->
  depths !! caller = Some d /\ is_Some (depths !! callee).
Proof.
  unfold edge_updates. intros ([k callees] & Hin & _)%list_elem_of_bind.
  destruct (depths !! k) as [dk|] eqn:Ek; [|by apply elem_of_nil in Hin].
  apply list_elem_of_bind in Hin as (c & Hin & _).
  destruct (depths !! c) as [dc|] eqn:Ec; [|by apply elem_of_nil in Hin].
  apply list_elem_of_singleton in Hin as [= -> -> ->]. eauto.
Qed.

End Bfs.

(** ** The traversal ends *)

Section BfsTermination.
Import Engine Writer.

Lemma adj_get_callees adjacency k callees n :
  adj_get adjacency k = Some callees -> n ∈ callees -> n ∈ all_callees adjacency.
Proof.
  unfold all_callees. intros Hg Hn. apply elem_of_list_to_set.
  induction adjacency as [|[k' l] adjacency IH]; simpl in *; [done|].
  apply elem_of_app. destruct (decide (k' = k)); [|by auto].
  injection Hg as ->. by left.
Qed.

Lemma size_list_to_set_le (l : list string) :
  (size (list_to_set l : gset string) <= length l)%nat.
Proof.
  induction l as [|x l IH].
  - rewrite list_to_set_nil, size_empty. done.
  - rewrite list_to_set_cons, size_union_alt, size_singleton. simpl length.
    pose proof (subseteq_size (list_to_set l ∖ {[x]}) (list_to_set l : gset string)) as H.
    assert (list_to_set l ∖ {[x]} ⊆ (list_to_set l : gset string)) as Hs
      by apply subseteq_difference_l, reflexivity.
    specialize (H Hs). lia.
Qed.

Lemma visit_work_left adjacency d st n :
  n ∈ all_callees adjacency ->
  work_left adjacency (visit d st n) = work_left adjacency st.
Proof.
  intros Hn. destruct st as [depths queue]. unfold visit, work_left.
  destruct (depths !! n) eqn:E; [done|]. simpl.
  unfold append. rewrite length_app. simpl.
  rewrite dom_insert_L.
  assert (n ∈ all_callees adjacency ∖ dom depths) as Hin.
  { apply elem_of_difference. split; [done|]. by apply not_elem_of_dom. }
  replace (all_callees adjacency ∖ ({[n]} ∪ dom depths))
    with ((all_callees adjacency ∖ dom depths) ∖ {[n]}).
  - rewrite size_difference by (by apply singleton_subseteq_l).
    rewrite size_singleton.
    assert (size ({[n]} : gset string) <= size (all_callees adjacency ∖ dom depths))%nat
      as Hle by (by apply subseteq_size, singleton_subseteq_l).
    rewrite size_singleton in Hle. lia.
  - apply set_eq. intros x. rewrite !elem_of_difference, elem_of_union. tauto.
Qed.

Lemma visit_all_work_left adjacency d neighbors st :
  (forall n, n ∈ neighbors -> n ∈ all_callees adjacency) ->
  work_left adjacency (fold_left (visit d) neighbors st) = work_left adjacency st.
Proof.
  revert st. induction neighbors as [|n neighbors IH]; intros st Hn; simpl; [done|].
  rewrite IH.
  - apply visit_work_left, Hn, list_elem_of_here.
  - intros m Hm. by apply Hn, list_elem_of_further.
Qed.

Lemma bfs_loop_exhausts adjacency fuel depths queue :
  (work_left adjacency (depths, queue) <= fuel)%nat ->
  (bfs_loop fuel adjacency depths queue).2 = [].
Proof.
  revert depths queue. induction fuel as [|fuel IH]; intros depths queue Hw.
  - unfold work_left in Hw. simpl in *. destruct queue; [done|]. simpl in Hw. lia.
  - simpl. destruct queue as [|current queue]; [done|].
    assert (work_left adjacency (depths, queue) <= fuel)%nat as Hw'.
    { unfold work_left in *. simpl in *. lia. }
    destruct (adj_get adjacency current) as [neighbors|] eqn:Eg; [|by apply IH].
    pose proof (visit_all_work_left adjacency (depths !!! current) neighbors
                  (depths, queue)) as Hv.
    destruct (fold_left _ neighbors (depths, queue)) as [depths' queue'].
    apply IH. rewrite Hv; [done|]. intros n Hn. by eapply adj_get_callees.
Qed.

(** The fuel of [bfs] is enough: the loop stops on the empty queue. *)
Lemma bfs_queue_exhausted adjacency root_id :
  (bfs_loop (bfs_fuel adjacency) adjacency {[ root_id := 0 ]} [root_id]).2 = [].
Proof.
  apply bfs_loop_exhausts. unfold work_left, bfs_fuel. simpl.
  pose proof (size_list_to_set_le (concat (snd <$> adjacency))) as H1.
  pose proof (subseteq_size (all_callees adjacency ∖ dom ({[root_id := 0]} : gmap string Z))
                (all_callees adjacency)) as H2.
  assert (all_callees adjacency ∖ dom ({[root_id := 0]} : gmap string Z)
          ⊆ all_callees adjacency) as Hs by apply subseteq_difference_l, reflexivity.
  specialize (H2 Hs). unfold all_callees in *. lia.
Qed.

End BfsTermination.

(** ** Depths of edges out of unreachable functions *)

Section Unreachable.
Import Engine Writer Queries.

Lemma reachable_path rows root_id v :
  reachable (build_adjacency (edge_pair <$> rows)) root_id v -> path rows root_id v.
Proof.
  apply rtc_subrel. intros x y Hxy.
  apply calls_build_adjacency, list_elem_of_fmap in Hxy as (r & [= -> ->] & Hr).
  by exists r.
Qed.

Lemma execute_each_updates updates c rows :
  t_edges (current c) = Some rows ->
  DB.execute_each sql_update_depth updates c
  = (Ok tt, mkConnection (committed c)
              (mkTables (t_functions (current c)) (t_callsites (current c))
                        (Some (set_depths updates rows)))).
Proof.
  revert c rows. induction updates as [|p updates IH]; intros [K [f cs es]] rows H;
    simpl in *; subst.
  - done.
  - unfold conn_execute, sql_update_depth at 1. simpl.
    by rewrite (IH _ (set_depth p <$> rows)).
Qed.

Lemma set_depths_length updates rows : length (set_depths updates rows) = length rows.
Proof.
  revert rows. induction updates as [|p updates IH]; intros rows; simpl; [done|].
  unfold set_depths in *. simpl. by rewrite IH, length_fmap.
Qed.

Lemma set_depths_untouched updates rows i r :
  rows !! i = Some r ->
  (forall d a b, (d, a, b) ∈ updates -> er_caller_function_id r <> a) ->
  set_depths updates rows !! i = Some r.
Proof.
  revert rows. induction updates as [|[[d a] b] updates IH]; intros rows Hi Hu; [done|].
  unfold set_depths in *. simpl. apply IH.
  - rewrite list_lookup_fmap, Hi. simpl. f_equal.
    rewrite decide_False; [done|]. intros [Ha _].
    by apply (Hu d a b (list_elem_of_here _ _)).
  - intros d' a' b' Hin. by apply (Hu d' a' b'), list_elem_of_further.
Qed.

Lemma strictly_sorted (l : list Z) :
  StronglySorted Z.le l -> NoDup l -> StronglySorted Z.lt l.
Proof.
  induction 1 as [|x l Hs IH Hx]; intros Hnd; [constructor|].
  apply NoDup_cons in Hnd as [Hx' Hnd]. constructor; [auto|].
  rewrite Forall_forall in *. intros y Hy.
  assert (x <> y) by (by intros ->). specialize (Hx y Hy). lia.
Qed.

Lemma depth_summary_spec c rows :
  t_edges (current c) = Some rows ->
  exists summary,
    depth_summary c = (Ok summary, c)
    /\ StronglySorted Z.lt (depth <$> summary)
    /\ (forall d, d ∈ depth <$> summary <-> exists r, r ∈ rows /\ er_depth r = Some d)
    /\ (forall row, row ∈ summary ->
          edge_count row = length (edges_of_depth (depth row) rows)
          /\ function_count row
             = length (remove_dups
                         (er_caller_function_id <$> edges_of_depth (depth row) rows))).
Proof.
  intros He. unfold depth_summary. rewrite execute_spec. unfold sql_depth_summary.
  rewrite He, connection_eta. eexists. split; [done|].
  set (groups := merge_sort Z.le (remove_dups (omap er_depth rows))).
  assert (forall f : Z -> DepthRow, (forall d, depth (f d) = d) ->
            depth <$> (f <$> groups) = groups) as Hdepth.
  { intros f Hf. rewrite <- list_fmap_compose.
    transitivity (id <$> groups); [|apply list_fmap_id].
    apply list_fmap_ext. intros i d _. apply Hf. }
  rewrite Hdepth by done. split; [|split].
  - apply strictly_sorted.
    + apply StronglySorted_merge_sort; apply _.
    + unfold groups. rewrite merge_sort_Permutation. apply NoDup_remove_dups.
  - intros d. unfold groups.
    rewrite merge_sort_Permutation, elem_of_remove_dups, list_elem_of_omap. done.
  - intros row (d & -> & _)%list_elem_of_fmap. done.
Qed.

(** C8, amended.  On the stored edges [rows]: the traversal ends and gives
    no depth to a function without a path from the root; the updates it
    leads to leave every edge out of such a function as it was; the depth
    computation of the writer, which stops before the traversal, changes no
    edge at all; and [depth_summary] has one row per depth that some edge
    carries, in ascending order, counting the edges of that depth and their
    distinct callers: the caller of an edge that carries a depth is counted
    in the row of that depth, whether or not it has a path from the root,
    and a function whose outgoing edges carry no depth is counted in no
    row. *)
Theorem unreachable_functions_keep_no_depth rows root_id c :
  t_edges (current c) = Some rows ->
  let adjacency := build_adjacency (edge_pair <$> rows) in
  let depths := bfs adjacency root_id in
  (bfs_loop (bfs_fuel adjacency) adjacency {[ root_id := 0 ]} [root_id]).2 = []
  /\ (forall v, ~ path rows root_id v -> depths !! v = None)
  /\ (exists rows',
        DB.executemany sql_update_depth (edge_updates adjacency depths) c
        = (Ok tt,
           connect
             (mkTables (t_functions (current c)) (t_callsites (current c)) (Some rows')))
        /\ length rows' = length rows
        /\ forall i r, rows !! i = Some r ->
             ~ path rows root_id (er_caller_function_id r) -> rows' !! i = Some r)
  /\ (forall root_function,
        _compute_depths root_function c = (Raise fetchone_on_list, c))
  /\ (exists summary,
        depth_summary c = (Ok summary, c)
        /\ StronglySorted Z.lt (depth <$> summary)
        /\ (forall d, d ∈ depth <$> summary <-> exists r, r ∈ rows /\ er_depth r = Some d)
        /\ (forall row, row ∈ summary ->
              edge_count row = length (edges_of_depth (depth row) rows)
              /\ function_count row
                 = length (remove_dups
                             (er_caller_function_id <$> edges_of_depth (depth row) rows)))
        /\ (forall r d, r ∈ rows -> er_depth r = Some d ->
              exists row, row ∈ summary /\ depth row = d
                /\ er_caller_function_id r
                   ∈ er_caller_function_id <$> edges_of_depth d rows)
        /\ (forall f,
              (forall r, r ∈ rows -> er_caller_function_id r = f -> er_depth r = None) ->
              forall row, row ∈ summary ->
                f ∉ er_caller_function_id <$> edges_of_depth (depth row) rows)).
Proof.
  intros He adjacency depths. subst depths.
  assert (forall v, ~ path rows root_id v -> bfs adjacency root_id !! v = None) as Hnone.
  { intros v Hv. destruct (bfs adjacency root_id !! v) eqn:E; [|done].
    destruct Hv. apply reachable_path, bfs_sound. by exists z. }
  split; [apply bfs_queue_exhausted|]. split; [done|]. split; [|split].
  - exists (set_depths (edge_updates adjacency (bfs adjacency root_id)) rows).
    split; [|split].
    + unfold DB.executemany, bind. by rewrite (execute_each_updates _ _ _ He).
    + apply set_depths_length.
    + intros i r Hi Hr. apply set_depths_untouched; [done|].
      intros d a b [Ha _]%edge_updates_only_with_depth <-.
      by rewrite (Hnone _ Hr) in Ha.
  - intros root_function. apply compute_depths_raises.
  - destruct (depth_summary_spec c rows He) as (summary & H1 & H2 & H3 & H4).
    exists summary. split; [done|]. split; [done|]. split; [done|]. split; [done|].
    split.
    { intros r d Hr Hd.
      assert (d ∈ depth <$> summary) as (row & Hdr & Hrow)%list_elem_of_fmap
        by (apply H3; eauto).
      exists row. split; [done|]. split; [done|].
      apply list_elem_of_fmap. exists r. split; [done|].
      by apply list_elem_of_filter. }
    intros f Hf row Hrow (r & Hc & [Hd Hr]%list_elem_of_filter)%list_elem_of_fmap.
    by rewrite (Hf r Hr (eq_sym Hc)) in Hd.
Qed.

Lemma island_unreachable : ~ path Scenario.island_edges "f1" "f4".
Proof.
  assert (forall v, path Scenario.island_edges "f1" v -> v = "f1"%string \/ v = "f2"%string)
    as H.
  { apply rtc_ind_r; [auto|]. intros x y _ (r & Hr & _ & Hy) _.
    right. unfold Scenario.island_edges in Hr.
    apply elem_of_cons in Hr as [->|Hr]; [by rewrite <- Hy|].
    apply list_elem_of_singleton in Hr as ->. by rewrite <- Hy. }
  intros [?|?]%H; discriminate.
Qed.

Lemma unreachable_functions_keep_no_depth_witness :
  t_edges (current Scenario.island) = Some Scenario.island_edges
  /\ bfs (build_adjacency (edge_pair <$> Scenario.island_edges)) "f1" !! "f4"%string = None
  /\ (exists rows',
        DB.executemany sql_update_depth
          (edge_updates (build_adjacency (edge_pair <$> Scenario.island_edges))
             (bfs (build_adjacency (edge_pair <$> Scenario.island_edges)) "f1"))
          Scenario.island
        = (Ok tt,
           connect
             (mkTables (t_functions (current Scenario.island))
                       (t_callsites (current Scenario.island)) (Some rows')))
        /\ rows' !! 1%nat = Some (mkEdgeRow "f4" "f2" None (Some 5)))
  /\ _compute_depths "f1" Scenario.island = (Raise fetchone_on_list, Scenario.island).
Proof.
  split; [reflexivity|].
  destruct (unreachable_functions_keep_no_depth Scenario.island_edges "f1"
              Scenario.island eq_refl)
    as (_ & Hnone & (rows' & Hex & _ & Hun) & Hcd & _).
  split; [exact (Hnone "f4"%string island_unreachable)|].
  split; [|exact (Hcd "f1"%string)].
  exists rows'. split; [exact Hex|].
  apply (Hun 1%nat); [reflexivity | exact island_unreachable].
Defined.

(** C8, as stated, fails: f4 has no path from the root f1, the depth
    computation leaves its edge f4 -> f2 at the depth 5 it had, and
    [depth_summary] reports that depth with f4 as its one caller. *)
Lemma depth_summary_reports_unreachable_counterexample :
  ~ path Scenario.island_edges "f1" "f4"
  /\ _compute_depths "f1" Scenario.island = (Raise fetchone_on_list, Scenario.island)
  /\ depth_summary Scenario.island
     = (Ok [mkDepthRow 5 1 1; mkDepthRow 9 1 1], Scenario.island)
  /\ er_caller_function_id <$> edges_of_depth 5 Scenario.island_edges = ["f4"%string].
Proof.
  split; [exact island_unreachable|]. vm_compute. repeat split.
Qed.

End Unreachable.

(** * Further properties *)

(** ** What validate_callgraph accepts and what it reports *)

Section ValidateMore.
Import Model Validator.

Lemma scan_functions_closed fs ids dups :
  fold_left function_step fs (ids, dups)
  = (ids ∪ list_to_set (f_id <$> fs), (dups ++ repeats_from ids (f_id <$> fs))%list).
Proof.
  revert ids dups. induction fs as [|f fs IH]; intros ids dups; simpl.
  - by rewrite (right_id_L ∅ (∪)), app_nil_r.
  - rewrite IH. f_equal.
    + by rewrite (assoc_L (∪)).
    + unfold append. destruct (decide (f_id f ∈ ids)); [|done].
      by rewrite <- app_assoc.
Qed.

Lemma scan_callsites_closed fids css ids dups refs :
  fold_left (callsite_step fids) css (ids, dups, refs)
  = (ids ∪ list_to_set (cs_id <$> css),
     (dups ++ repeats_from ids (cs_id <$> css))%list,
     (refs ++ (css ≫= callsite_messages fids))%list).
Proof.
  revert ids dups refs. induction css as [|c css IH]; intros ids dups refs; simpl.
  - by rewrite (right_id_L ∅ (∪)), !app_nil_r.
  - rewrite IH. f_equal; [f_equal|].
    + by rewrite (assoc_L (∪)).
    + unfold append. destruct (decide (cs_id c ∈ ids)); [|done].
      by rewrite <- app_assoc.
    + unfold callsite_messages, append.
      destruct (decide (cs_caller c ∈ fids)), (decide (cs_callee c ∈ fids));
        simpl; rewrite <- ?app_assoc; done.
Qed.

Lemma edge_step_closed fids cids i refs e :
  edge_step fids cids (i, refs) e
  = (S i, (refs ++ edge_messages fids cids i e)%list).
Proof.
  unfold edge_step, edge_messages, append.
  fold (edge_caller_message i e) (edge_callee_message i e) (edge_callsite_message i e).
  destruct (decide (e_caller e ∈ fids)), (decide (e_callee e ∈ fids)),
    (dangling_callsite cids e); simpl; rewrite <- ?app_assoc, ?app_nil_r; done.
Qed.

Lemma scan_edges_closed fids cids es i refs :
  fold_left (edge_step fids cids) es (i, refs)
  = ((i + length es)%nat,
     (refs ++ concat (imap (fun j e => edge_messages fids cids (i + j) e) es))%list).
Proof.
  revert i refs. induction es as [|e es IH]; intros i refs.
  - simpl. by rewrite Nat.add_0_r, app_nil_r.
  - cbn [fold_left]. rewrite edge_step_closed, IH. f_equal.
    + simpl. lia.
    + cbn [imap concat]. rewrite Nat.add_0_r, <- app_assoc. do 3 f_equal.
      apply imap_ext. intros j x _. simpl. f_equal. lia.
Qed.

Lemma repeats_from_nil_iff seen l :
  repeats_from seen l = [] <-> NoDup l /\ forall x, x ∈ l -> x ∉ seen.
Proof.
  revert seen. induction l as [|x l IH]; intros seen; simpl.
  - split; [|done]. intros _. split; [constructor|]. by intros x ?%elem_of_nil.
  - destruct (decide (x ∈ seen)) as [Hx|Hx].
    + split; [done|]. intros [_ H]. destruct (H x); [apply list_elem_of_here|done].
    + rewrite IH, NoDup_cons. split.
      * intros [Hnd H]. split; [split; [|done]|].
        -- intros Hin. apply (H x Hin). apply elem_of_union_r. by apply elem_of_singleton.
        -- intros y [->|Hy]%elem_of_cons; [done|].
           intros Hs. apply (H y Hy). by apply elem_of_union_l.
      * intros [[Hxl Hnd] H]. split; [done|]. intros y Hy [Hs|Hs]%elem_of_union.
        -- by apply (H y (list_elem_of_further _ _ _ Hy)).
        -- apply elem_of_singleton in Hs as ->. done.
Qed.

Lemma repeats_from_elem seen l x :
  x ∈ repeats_from seen l <->
  exists l1 l2, l = (l1 ++ x :: l2)%list /\ (x ∈ seen \/ x ∈ l1).
Proof.
  revert seen. induction l as [|y l IH]; intros seen; simpl.
  - split; [by intros ?%elem_of_nil|]. intros (l1 & l2 & E & _). by destruct l1.
  - assert (x ∈ repeats_from (seen ∪ {[y]}) l <->
            exists l1 l2, l = (l1 ++ x :: l2)%list /\ (x ∈ seen \/ x ∈ y :: l1)) as IH'.
    { rewrite IH. split; intros (l1 & l2 & -> & H); exists l1, l2; (split; [done|]).
      - rewrite elem_of_union, elem_of_singleton in H. rewrite elem_of_cons. tauto.
      - rewrite elem_of_union, elem_of_singleton. rewrite elem_of_cons in H. tauto. }
    assert ((exists l1 l2, y :: l = (l1 ++ x :: l2)%list /\ (x ∈ seen \/ x ∈ l1)) <->
            (x = y /\ x ∈ seen)
            \/ exists l1 l2, l = (l1 ++ x :: l2)%list /\ (x ∈ seen \/ x ∈ y :: l1)) as Hsplit.
    { split.
      - intros (l1 & l2 & E & H). destruct l1 as [|z l1]; simpl in E.
        + injection E as -> ->. left. split; [done|].
          destruct H as [|H]; [done|]. by apply elem_of_nil in H.
        + injection E as -> ->. right. exists l1, l2. done.
      - intros [[-> H]|(l1 & l2 & -> & H)].
        + exists [], l. auto.
        + exists (y :: l1), l2. done. }
    rewrite Hsplit, <- IH'. destruct (decide (y ∈ seen)) as [Hy|Hy].
    + rewrite elem_of_cons. split; [intros [->|]; auto | intros [[-> _]|]; auto].
    + split; [auto|]. intros [[-> H]|]; done.
Qed.

(** [validate_callgraph] as a cascade over what the loops accumulate. *)
Lemma validate_callgraph_closed g :
  validate_callgraph g =
    let fids : gset string := list_to_set (f_id <$> functions g) in
    let cids : gset string := list_to_set (cs_id <$> callsites g) in
    if negb (nonempty (functions g)) then
      Raise (ValidationError "Call graph must contain at least one function")
    else if nonempty (repeats (f_id <$> functions g)) then
      Raise (ValidationError
        ("Duplicate function IDs found: " ++ join ", " (repeats (f_id <$> functions g))))
    else if nonempty (repeats (cs_id <$> callsites g)) then
      Raise (ValidationError
        ("Duplicate callsite IDs found: " ++ join ", " (repeats (cs_id <$> callsites g))))
    else if nonempty (callsites g ≫= callsite_messages fids) then
      Raise (ValidationError
        ("Invalid function references in callsites:" ++ nl
         ++ join nl (callsites g ≫= callsite_messages fids)))
    else if nonempty (concat (imap (edge_messages fids cids) (edges g))) then
      Raise (ValidationError
        ("Invalid references in edges:" ++ nl
         ++ join nl (concat (imap (edge_messages fids cids) (edges g)))))
    else Ok tt.
Proof.
  unfold validate_callgraph, scan_functions, scan_callsites, scan_edges, repeats.
  rewrite scan_functions_closed, scan_callsites_closed, scan_edges_closed.
  rewrite !(left_id_L ∅ (∪)). simpl. done.
Qed.

Lemma nonempty_false {A} (l : list A) : nonempty l = false <-> l = [].
Proof. by destruct l. Qed.

Lemma callsite_messages_nil fids css :
  css ≫= callsite_messages fids = [] <->
  forall cs, cs ∈ css -> cs_caller cs ∈ fids /\ cs_callee cs ∈ fids.
Proof.
  induction css as [|c css IH]; simpl.
  - split; [|done]. by intros _ cs ?%elem_of_nil.
  - split.
    + intros [H1 H2]%app_nil cs [->|Hin]%elem_of_cons; [|by apply IH].
      unfold callsite_messages in H1.
      by destruct (decide (cs_caller c ∈ fids)), (decide (cs_callee c ∈ fids)).
    + intros H. apply app_nil. split.
      * destruct (H c (list_elem_of_here _ _)) as [H1 H2]. unfold callsite_messages.
        by rewrite !decide_True.
      * apply IH. intros cs Hin. by apply H, list_elem_of_further.
Qed.

Lemma dangling_callsite_false cids e :
  dangling_callsite cids e = false <->
  forall c, e_callsite_id e = Some c -> c <> EmptyString -> c ∈ cids.
Proof.
  unfold dangling_callsite. destruct (e_callsite_id e) as [c|]; [|done].
  destruct c as [|a c]; simpl.
  - split; [|done]. intros _ c [= <-]. done.
  - rewrite negb_false_iff, bool_decide_eq_true. split.
    + by intros H c' [= <-] _.
    + intros H. by apply H.
Qed.

Lemma edge_messages_nil fids cids i e :
  edge_messages fids cids i e = [] <->
  e_caller e ∈ fids /\ e_callee e ∈ fids /\ dangling_callsite cids e = false.
Proof.
  unfold edge_messages.
  destruct (decide (e_caller e ∈ fids)), (decide (e_callee e ∈ fids)),
    (dangling_callsite cids e); simpl; split; try done; intros (? & ? & ?); done.
Qed.

Lemma all_edge_messages_nil fids cids es :
  concat (imap (edge_messages fids cids) es) = [] <->
  forall e, e ∈ es ->
    e_caller e ∈ fids /\ e_callee e ∈ fids /\ dangling_callsite cids e = false.
Proof.
  assert (forall (k : nat) es', concat (imap (fun j => edge_messages fids cids (k + j)) es') = [] <->
          forall e, e ∈ es' ->
            e_caller e ∈ fids /\ e_callee e ∈ fids /\ dangling_callsite cids e = false) as H.
  { intros k es'. revert k. induction es' as [|e es' IH]; intros k; simpl.
    - split; [|done]. by intros _ e ?%elem_of_nil.
    - split.
      + intros [H1 H2]%app_nil e' [->|Hin]%elem_of_cons.
        * by apply edge_messages_nil in H1.
        * revert e' Hin. apply (IH (S k)). rewrite <- H2. f_equal.
          apply imap_ext. intros j x _. simpl. f_equal. lia.
      + intros H. apply app_nil. split.
        * apply edge_messages_nil, H, list_elem_of_here.
        * assert (forall e', e' ∈ es' ->
                    e_caller e' ∈ fids /\ e_callee e' ∈ fids
                    /\ dangling_callsite cids e' = false) as H'
            by (intros e' Hin; by apply H, list_elem_of_further).
          apply (IH (S k)) in H'. rewrite <- H'. f_equal.
          apply imap_ext. intros j x _. simpl. f_equal. lia. }
  exact (H 0%nat es).
Qed.

Lemma nonempty_true_iff {A} (l : list A) : nonempty l = true <-> l <> [].
Proof. by destruct l. Qed.

Lemma repeats_nil_iff l : repeats l = [] <-> NoDup l.
Proof.
  unfold repeats. rewrite repeats_from_nil_iff. split; [by intros [? _]|].
  intros H. split; [done|]. intros x _. apply not_elem_of_empty.
Qed.

Lemma validate_accepts_valid g :
  validate_callgraph g = Ok tt -> valid_graph g.
Proof.
  rewrite validate_callgraph_closed. cbv zeta. unfold valid_graph.
  assert (forall x (l : list string), x ∈ (list_to_set l : gset string) <-> x ∈ l) as Hset
    by (intros; apply elem_of_list_to_set).
  intros H.
  destruct (nonempty (functions g)) eqn:E1; simpl in H; [|done].
  destruct (nonempty (repeats (f_id <$> functions g))) eqn:E2; [done|].
  destruct (nonempty (repeats (cs_id <$> callsites g))) eqn:E3; [done|].
  destruct (nonempty (callsites g ≫= _)) eqn:E4; [done|].
  destruct (nonempty (concat _)) eqn:E5; [done|].
  apply nonempty_true_iff in E1.
  apply nonempty_false, repeats_nil_iff in E2.
  apply nonempty_false, repeats_nil_iff in E3.
  apply nonempty_false in E4. apply nonempty_false in E5.
  rewrite callsite_messages_nil in E4. rewrite all_edge_messages_nil in E5.
  repeat split; try done.
  + by apply Hset, E4.
  + by apply Hset, E4.
  + by apply Hset, E5.
  + by apply Hset, E5.
  + intros c Hc Hne. apply Hset. destruct (E5 e H0) as (_ & _ & Hd).
    by apply (dangling_callsite_false _ e).
Qed.

Lemma valid_validate_accepts g :
  valid_graph g -> validate_callgraph g = Ok tt.
Proof.
  rewrite validate_callgraph_closed. cbv zeta. unfold valid_graph.
  assert (forall x (l : list string), x ∈ (list_to_set l : gset string) <-> x ∈ l) as Hset
    by (intros; apply elem_of_list_to_set).
  intros (H1 & H2 & H3 & H4 & H5).
  apply nonempty_true_iff in H1. rewrite H1. simpl.
  apply repeats_nil_iff in H2. rewrite H2. simpl.
  apply repeats_nil_iff in H3. rewrite H3. simpl.
  assert (callsites g ≫= callsite_messages (list_to_set (f_id <$> functions g)) = [])
    as ->.
  { apply callsite_messages_nil. intros cs Hcs. rewrite !Hset. by apply H4. }
  simpl.
  assert (concat (imap (edge_messages (list_to_set (f_id <$> functions g))
                          (list_to_set (cs_id <$> callsites g))) (edges g)) = []) as ->.
  { apply all_edge_messages_nil. intros e He. rewrite !Hset.
    destruct (H5 e He) as (Ha & Hb & Hc). split; [done|]. split; [done|].
    apply dangling_callsite_false. intros c Hsome Hne. apply Hset. eauto. }
  done.
Qed.

(** X1.  [validate_callgraph] returns normally exactly for the graphs that
    satisfy the five conditions of [valid_graph]; a call-site id of an edge
    that is the empty string is not looked up. *)
Theorem validate_callgraph_accepts_iff g :
  validate_callgraph g = Ok tt <-> valid_graph g.
Proof. split; [apply validate_accepts_valid | apply valid_validate_accepts]. Qed.

Lemma validate_callgraph_accepts_iff_witness : valid_graph Scenario.graph.
Proof.
  apply (proj1 (validate_callgraph_accepts_iff Scenario.graph)).
  vm_compute. reflexivity.
Defined.

(** X2.  When two functions share an id, [validate_callgraph] raises the
    duplicate-function error, whatever the call sites and edges are; the
    message lists, in order, one id per occurrence that repeats an earlier
    one. *)
Theorem duplicate_function_ids_reported g :
  ~ NoDup (f_id <$> functions g) ->
  validate_callgraph g
  = Raise (ValidationError
             ("Duplicate function IDs found: "
              ++ join ", " (repeats (f_id <$> functions g))))
  /\ repeats (f_id <$> functions g) <> []
  /\ forall x, x ∈ repeats (f_id <$> functions g) <->
        exists l1 l2, f_id <$> functions g = (l1 ++ x :: l2)%list /\ x ∈ l1.
Proof.
  intros Hnd.
  assert (repeats (f_id <$> functions g) <> []) as Hr
    by (by rewrite repeats_nil_iff).
  split; [|split; [done|]].
  - rewrite validate_callgraph_closed. cbv zeta.
    destruct (functions g) as [|f fs] eqn:E.
    { destruct Hnd. constructor. }
    simpl negb. cbv iota. by rewrite (proj2 (nonempty_true_iff _) Hr).
  - intros x. unfold repeats. rewrite repeats_from_elem.
    split; intros (l1 & l2 & E & H); exists l1, l2; (split; [done|]).
    + destruct H as [H|H]; [|done]. by apply not_elem_of_empty in H.
    + by right.
Qed.

Lemma duplicate_function_ids_reported_witness :
  validate_callgraph
    (mkCallGraph [mkFunction "f1" "a" None None; mkFunction "f2" "b" None None;
                  mkFunction "f1" "c" None None; mkFunction "f1" "d" None None] [] [])
  = Raise (ValidationError "Duplicate function IDs found: f1, f1").
Proof.
  refine (proj1 (duplicate_function_ids_reported
                   (mkCallGraph [mkFunction "f1" "a" None None; mkFunction "f2" "b" None None;
                                 mkFunction "f1" "c" None None; mkFunction "f1" "d" None None]
                                [] []) _)).
  simpl. intros [H _]%NoDup_cons. apply H.
  apply list_elem_of_further, list_elem_of_here.
Defined.

Lemma imap_concat_elem {A B} (f : nat -> A -> list B) (l : list A) i x y :
  l !! i = Some x -> y ∈ f i x -> y ∈ concat (imap f l).
Proof.
  intros Hi Hy. apply list_elem_of_In, in_concat. exists (f i x).
  split; [|by apply list_elem_of_In].
  apply list_elem_of_In, elem_of_lookup_imap. eauto.
Qed.

(** X3.  For a graph whose functions and call sites pass, the edge loop
    decides: with no message the validation returns normally, otherwise it
    raises one error with all messages, and every edge with a caller or
    callee that is no function, or with a non-empty call-site id that is no
    call site, has its message there, under its index in the list. *)
Theorem validate_edges_report g :
  functions g <> [] ->
  NoDup (f_id <$> functions g) -> NoDup (cs_id <$> callsites g) ->
  (forall cs, cs ∈ callsites g ->
     cs_caller cs ∈ (f_id <$> functions g) /\ cs_callee cs ∈ (f_id <$> functions g)) ->
  exists msgs,
    (msgs = [] -> validate_callgraph g = Ok tt)
    /\ (msgs <> [] ->
        validate_callgraph g
        = Raise (ValidationError ("Invalid references in edges:" ++ nl ++ join nl msgs)))
    /\ forall i e, edges g !! i = Some e ->
         (e_caller e ∉ (f_id <$> functions g) -> edge_caller_message i e ∈ msgs)
         /\ (e_callee e ∉ (f_id <$> functions g) -> edge_callee_message i e ∈ msgs)
         /\ (forall c, e_callsite_id e = Some c -> c <> EmptyString ->
               c ∉ (cs_id <$> callsites g) -> edge_callsite_message i e ∈ msgs).
Proof.
  intros H1 H2 H3 H4.
  set (fids := list_to_set (f_id <$> functions g) : gset string).
  set (cids := list_to_set (cs_id <$> callsites g) : gset string).
  exists (concat (imap (edge_messages fids cids) (edges g))).
  assert (forall x (l : list string), x ∈ (list_to_set l : gset string) <-> x ∈ l) as Hset
    by (intros; apply elem_of_list_to_set).
  assert (validate_callgraph g =
          if nonempty (concat (imap (edge_messages fids cids) (edges g)))
          then Raise (ValidationError
                        ("Invalid references in edges:" ++ nl
                         ++ join nl (concat (imap (edge_messages fids cids) (edges g)))))
          else Ok tt) as Hv.
  { rewrite validate_callgraph_closed. cbv zeta.
    rewrite (proj2 (nonempty_true_iff _) H1). simpl.
    rewrite (proj2 (repeats_nil_iff _) H2), (proj2 (repeats_nil_iff _) H3). simpl.
    assert (callsites g ≫= callsite_messages (list_to_set (f_id <$> functions g)) = [])
      as ->; [|done].
    apply callsite_messages_nil. intros cs Hcs. rewrite !Hset. by apply H4. }
  split; [|split].
  - intros E. by rewrite Hv, E.
  - intros E. by rewrite Hv, (proj2 (nonempty_true_iff _) E).
  - intros i e Hi. split; [|split].
    + intros Hn. apply (imap_concat_elem _ _ i e); [done|].
      unfold edge_messages. rewrite decide_False by (unfold fids; by rewrite Hset).
      apply list_elem_of_here.
    + intros Hn. apply (imap_concat_elem _ _ i e); [done|].
      unfold edge_messages. rewrite (decide_False (P := e_callee e ∈ fids))
        by (unfold fids; by rewrite Hset).
      apply elem_of_app. right. apply list_elem_of_here.
    + intros c Hc Hne Hn. apply (imap_concat_elem _ _ i e); [done|].
      unfold edge_messages.
      assert (dangling_callsite cids e = true) as ->.
      { unfold dangling_callsite. rewrite Hc. destruct c; [done|]. simpl.
        apply negb_true_iff, bool_decide_eq_false. unfold cids. by rewrite Hset. }
      rewrite !elem_of_app. right. right. apply list_elem_of_here.
Qed.

Lemma validate_edges_report_witness :
  exists msgs,
    validate_callgraph
      (mkCallGraph [mkFunction "f1" "main" None None] []
                   [mkEdge "f1" "f1" None; mkEdge "f1" "zz" (Some "c9"%string)])
    = Raise (ValidationError ("Invalid references in edges:" ++ nl ++ join nl msgs))
    /\ edge_callee_message 1 (mkEdge "f1" "zz" (Some "c9"%string)) ∈ msgs.
Proof.
  destruct (validate_edges_report
              (mkCallGraph [mkFunction "f1" "main" None None] []
                           [mkEdge "f1" "f1" None; mkEdge "f1" "zz" (Some "c9"%string)]))
    as (msgs & _ & Hraise & Hall).
  - discriminate.
  - simpl. apply NoDup_singleton.
  - constructor.
  - by intros cs ?%elem_of_nil.
  - assert (edge_callee_message 1 (mkEdge "f1" "zz" (Some "c9"%string)) ∈ msgs) as Hin.
    { apply (Hall 1%nat (mkEdge "f1" "zz" (Some "c9"%string)) eq_refl).
      simpl. intros Hzz%list_elem_of_singleton. discriminate. }
    exists msgs. split; [|done]. apply Hraise. intros ->. by apply elem_of_nil in Hin.
Defined.

End ValidateMore.

(** ** What from_dict returns *)

Section FromDictMore.
Import Model.

Lemma new_CallSite_line id caller callee file line cs :
  new_CallSite id caller callee file line = Ok cs ->
  cs_line cs = line /\ forall n, line = Some n -> 1 <= n.
Proof.
  unfold new_CallSite.
  destruct (required_str not_empty id), (required_str not_empty caller),
    (required_str not_empty callee), (optional_str file), (valid_line line) eqn:El; try done.
  intros [= <-]. simpl. unfold valid_line in El. destruct line as [n|].
  - destruct (n <? 1) eqn:En; [done|]. injection El as <-. split; [done|].
    intros m [= <-]. lia.
  - injection El as <-. done.
Qed.

Lemma rmap_length {A B} (f : A -> result B) xs ys :
  rmap f xs = Ok ys -> length ys = length xs.
Proof. intros H%rmap_ok. symmetry. by eapply Forall2_length. Qed.

Lemma rmap_Forall {A B} (f : A -> result B) (P : B -> Prop) xs ys :
  (forall x y, f x = Ok y -> P y) -> rmap f xs = Ok ys -> Forall P ys.
Proof.
  intros Hf H%rmap_ok. induction H; constructor; eauto.
Qed.

(** X4.  A graph returned by [from_dict] has one function per record of
    [functions], one call site per record of the call-site array, and one
    edge per record of [edges] when that array is not empty, otherwise one
    per call site; every id, name, caller and callee in it is trimmed, and
    every line number present is at least 1. *)
Theorem from_dict_entities_well_formed (data : document) g :
  from_dict data = Ok g ->
  Forall (fun f => trimmed (f_id f) /\ trimmed (f_name f)) (functions g)
  /\ Forall (fun cs => trimmed (cs_id cs) /\ trimmed (cs_caller cs)
                       /\ trimmed (cs_callee cs)
                       /\ forall n, cs_line cs = Some n -> 1 <= n) (callsites g)
  /\ Forall (fun e => trimmed (e_caller e) /\ trimmed (e_callee e)) (edges g)
  /\ length (functions g) = length (default [] (data !! "functions"))
  /\ length (callsites g)
     = length (default (default [] (data !! "callSites")) (data !! "callsites"))
  /\ length (edges g)
     = match default [] (data !! "edges") with
       | [] => length (callsites g)
       | edges_data => length edges_data
       end.
Proof.
  unfold from_dict.
  destruct (rmap parse_function _) as [fs|] eqn:Ef; simpl; [|done].
  destruct (rmap parse_callsite _) as [css|] eqn:Ec; simpl; [|done].
  destruct (match default [] (data !! "edges") with [] => _ | _ => _ end)
    as [es|] eqn:Ee; simpl; [|done].
  intros [= <-]. simpl.
  assert (forall caller callee callsite_id e,
            new_Edge caller callee callsite_id = Ok e ->
            trimmed (e_caller e) /\ trimmed (e_callee e)) as Hedge.
  { intros caller callee callsite_id e (H1 & H2)%new_Edge_ok.
    apply required_str_inr in H1 as (? & _ & _ & ?).
    apply required_str_inr in H2 as (? & _ & _ & ?). done. }
  split; [|split; [|split; [|split; [|split]]]].
  - eapply rmap_Forall; [|exact Ef]. intros o f (H1 & H2)%new_Function_ok.
    apply required_str_inr in H1 as (? & _ & _ & ?).
    apply required_str_inr in H2 as (? & _ & _ & ?). done.
  - eapply rmap_Forall; [|exact Ec]. intros o cs Hcs.
    pose proof (new_CallSite_line _ _ _ _ _ _ Hcs) as [Hl Hn].
    apply new_CallSite_ok in Hcs as (H1 & H2 & H3).
    apply required_str_inr in H1 as (? & _ & _ & ?).
    apply required_str_inr in H2 as (? & _ & _ & ?).
    apply required_str_inr in H3 as (? & _ & _ & ?).
    split; [done|]. split; [done|]. split; [done|].
    intros n Hsome. apply Hn. by rewrite <- Hl.
  - destruct (default [] (data !! "edges")) as [|e0 es0].
    + eapply rmap_Forall; [|exact Ee]. intros cs e. apply Hedge.
    + eapply rmap_Forall; [|exact Ee]. intros o e. apply Hedge.
  - by eapply rmap_length.
  - by eapply rmap_length.
  - destruct (default [] (data !! "edges")) as [|e0 es0].
    + by eapply rmap_length.
    + by apply (rmap_length _ _ _ Ee).
Qed.

Lemma from_dict_entities_well_formed_witness :
  exists g, from_dict Scenario.document_with_callSites = Ok g
    /\ Forall (fun e => trimmed (e_caller e) /\ trimmed (e_callee e)) (edges g)
    /\ length (edges g) = 3%nat.
Proof.
  eexists. split; [vm_compute; reflexivity|].
  destruct (from_dict_entities_well_formed Scenario.document_with_callSites _
              ltac:(vm_compute; reflexivity)) as (_ & _ & He & _ & _ & Hl).
  split; [exact He | reflexivity].
Defined.

End FromDictMore.

(** ** The upserts of the writer *)

Section UpsertMore.
Import Engine Writer.
Context {R : Type} (key : R -> string).

Lemma upsert_keys new rows :
  key <$> upsert key new rows
  = if decide (key new ∈ key <$> rows) then key <$> rows
    else ((key <$> rows) ++ [key new])%list.
Proof.
  induction rows as [|r rows IH].
  - destruct (decide (key new ∈ key <$> [])) as [Hin|_]; [|done].
    by apply elem_of_nil in Hin.
  - cbn [upsert]. destruct (decide (key r = key new)) as [E|E].
    + rewrite !fmap_cons, E.
      destruct (decide (key new ∈ key new :: (key <$> rows))) as [_|Hn]; [done|].
      destruct Hn. apply list_elem_of_here.
    + rewrite !fmap_cons, IH.
      destruct (decide (key new ∈ key <$> rows)) as [Hin|Hin];
        destruct (decide (key new ∈ key r :: (key <$> rows))) as [Hin'|Hin']; try done.
      * destruct Hin'. by apply list_elem_of_further.
      * apply elem_of_cons in Hin' as [?|?]; congruence.
Qed.

Lemma upsert_NoDup new rows :
  NoDup (key <$> rows) -> NoDup (key <$> upsert key new rows).
Proof.
  intros H. rewrite upsert_keys. case_decide; [done|].
  apply NoDup_app. split; [done|]. split; [|apply NoDup_singleton].
  intros x Hx ->%list_elem_of_singleton. done.
Qed.

Lemma upsert_all_NoDup news rows :
  NoDup (key <$> rows) -> NoDup (key <$> upsert_all key news rows).
Proof.
  revert rows. induction news as [|n news IH]; intros rows H; [done|].
  unfold upsert_all in *. simpl. by apply IH, upsert_NoDup.
Qed.

Lemma upsert_all_keys_prefix news rows :
  (key <$> rows) `prefix_of` (key <$> upsert_all key news rows).
Proof.
  revert rows. induction news as [|n news IH]; intros rows; [done|].
  unfold upsert_all in *. simpl. etrans; [|apply IH].
  rewrite upsert_keys. case_decide; [done|]. by apply prefix_app_r.
Qed.

Lemma lookup_key_app k (l1 l2 : list R) :
  lookup_key key k (l1 ++ l2)
  = match lookup_key key k l1 with Some r => Some r | None => lookup_key key k l2 end.
Proof.
  induction l1 as [|r l1 IH]; simpl; [done|]. by destruct (decide (key r = k)).
Qed.

(** The last row written for a key is the one found; a key that was not
    written keeps its row. *)
Lemma lookup_upsert_all_last k news rows :
  lookup_key key k (upsert_all key news rows)
  = match lookup_key key k (reverse news) with
    | Some n => Some n
    | None => lookup_key key k rows
    end.
Proof.
  revert rows. induction news as [|n news IH]; intros rows; [done|].
  unfold upsert_all in *. simpl. rewrite IH, reverse_cons, lookup_key_app.
  destruct (lookup_key key k (reverse news)); [done|]. simpl.
  destruct (decide (key n = k)) as [<-|Hk].
  - apply lookup_upsert_eq.
  - by apply lookup_upsert_ne.
Qed.

End UpsertMore.

Section WriterMore.
Import Model Engine Writer.

(** X5.  On a functions table with distinct ids, [_insert_functions] returns
    normally and commits; afterwards the ids are still distinct, the rows
    that were there keep their places, the row of an id is the one written
    last for it in the list, and the row of an id that was not written is
    unchanged. *)
Theorem insert_functions_upserts fs c rows :
  t_functions (current c) = Some rows -> NoDup (fn_id <$> rows) ->
  exists rows',
    _insert_functions fs c
    = (Ok tt, connect (mkTables (Some rows') (t_callsites (current c)) (t_edges (current c))))
    /\ NoDup (fn_id <$> rows')
    /\ (fn_id <$> rows) `prefix_of` (fn_id <$> rows')
    /\ forall k,
         lookup_key fn_id k rows'
         = match lookup_key fn_id k (reverse (function_row <$> function_params fs)) with
           | Some r => Some r
           | None => lookup_key fn_id k rows
           end.
Proof.
  intros Ht Hnd. eexists. split; [by apply insert_functions_ok|].
  split; [by apply upsert_all_NoDup|]. split; [apply upsert_all_keys_prefix|].
  intros k. apply lookup_upsert_all_last.
Qed.

Lemma insert_functions_upserts_witness :
  exists rows',
    _insert_functions [mkFunction "f2" "renamed" None None; mkFunction "f9" "new" None None]
      Scenario.stored
    = (Ok tt, connect (mkTables (Some rows') (Some []) (Some Scenario.stored_edges)))
    /\ lookup_key fn_id "f2" rows' = Some (mkFunctionRow "f2" "renamed" None None)
    /\ lookup_key fn_id "f1" rows' = Some (mkFunctionRow "f1" "main" None None).
Proof.
  destruct (insert_functions_upserts
              [mkFunction "f2" "renamed" None None; mkFunction "f9" "new" None None]
              Scenario.stored Scenario.stored_functions eq_refl)
    as (rows' & Hrun & _ & _ & Hlook).
  - vm_compute. by repeat (constructor; [by (intros H; repeat (apply elem_of_cons in H as [H|H]; [discriminate|]); by apply elem_of_nil in H)|]); constructor.
  - exists rows'. split; [exact Hrun|]. split.
    + rewrite (Hlook "f2"%string). reflexivity.
    + rewrite (Hlook "f1"%string). reflexivity.
Defined.

Lemma execute_each_callsites_stops ps1 p ps2 c rows :
  t_callsites (current c) = Some rows ->
  forallb (fun p => binds (csr_line (callsite_row p))) ps1 = true ->
  binds (csr_line (callsite_row p)) = false ->
  DB.execute_each sql_upsert_callsite (ps1 ++ p :: ps2) c
  = (Raise int_too_large,
     mkConnection (committed c)
       (mkTables (t_functions (current c))
                 (Some (upsert_all csr_id (callsite_row <$> ps1) rows))
                 (t_edges (current c)))).
Proof.
  revert c rows. induction ps1 as [|q ps1 IH]; intros [K [f cs es]] rows H Hfit Hp;
    simpl in *; subst.
  - unfold conn_execute, sql_upsert_callsite. simpl. by rewrite Hp.
  - apply andb_true_iff in Hfit as [Hq Hfit].
    unfold conn_execute, sql_upsert_callsite at 1. simpl. rewrite Hq.
    by rewrite (IH (mkConnection K (mkTables f _ es)) (upsert csr_id (callsite_row q) rows)).
Qed.

(** X6.  [_insert_callsites] does nothing at all for an empty list, not even
    a commit.  When the table does not exist it raises before any change.
    For a non-empty list whose lines all fit 64 bits, on a call-sites table
    with distinct ids, it upserts like [_insert_functions] and commits.
    When [cs] is the first call site whose line does not fit 64 bits, it
    raises the OverflowError of the binding: the call sites before [cs] are
    upserted in the open transaction, nothing is committed, and the rest of
    the list is not written. *)
Theorem insert_callsites_upserts css c :
  (css = [] -> _insert_callsites css c = (Ok tt, c))
  /\ (css <> [] -> t_callsites (current c) = None ->
      _insert_callsites css c = (Raise (OperationalError "no such table: callsites"), c))
  /\ (forall rows, css <> [] -> t_callsites (current c) = Some rows ->
      lines_fit css = true ->
      NoDup (csr_id <$> rows) ->
      exists rows',
        _insert_callsites css c
        = (Ok tt, connect (mkTables (t_functions (current c)) (Some rows')
                                    (t_edges (current c))))
        /\ NoDup (csr_id <$> rows')
        /\ (csr_id <$> rows) `prefix_of` (csr_id <$> rows')
        /\ forall k,
             lookup_key csr_id k rows'
             = match lookup_key csr_id k (reverse (callsite_row <$> callsite_params css)) with
               | Some r => Some r
               | None => lookup_key csr_id k rows
               end)
  /\ (forall rows before cs after,
      t_callsites (current c) = Some rows ->
      css = (before ++ cs :: after)%list ->
      lines_fit before = true -> binds (cs_line cs) = false ->
      _insert_callsites css c
      = (Raise int_too_large,
         mkConnection (committed c)
           (mkTables (t_functions (current c))
              (Some (upsert_all csr_id (callsite_row <$> callsite_params before) rows))
              (t_edges (current c))))).
Proof.
  split; [by intros ->|]. split; [|split].
  - intros Hne Ht. destruct css as [|cs css]; [done|]. by apply insert_callsites_missing.
  - intros rows Hne Ht Hfit Hnd. destruct css as [|cs css]; [done|].
    eexists. split; [by apply insert_callsites_ok|].
    split; [by apply upsert_all_NoDup|]. split; [apply upsert_all_keys_prefix|].
    intros k. apply lookup_upsert_all_last.
  - intros rows before cs after Ht -> Hfit Hcs.
    rewrite <- lines_fit_params in Hfit.
    assert (_insert_callsites (before ++ cs :: after) c
            = DB.executemany sql_upsert_callsite
                (callsite_params before
                 ++ (cs_id cs, cs_caller cs, cs_callee cs, cs_file cs, cs_line cs)
                 :: callsite_params after)%list c) as ->.
    { unfold _insert_callsites, callsite_params.
      destruct (before ++ cs :: after)%list eqn:E; [by destruct before|].
      rewrite <- E. by rewrite fmap_app, fmap_cons. }
    unfold DB.executemany, bind.
    by rewrite (execute_each_callsites_stops (callsite_params before)
                  (cs_id cs, cs_caller cs, cs_callee cs, cs_file cs, cs_line cs)
                  (callsite_params after) c rows Ht Hfit Hcs).
Qed.

Lemma insert_callsites_upserts_witness :
  _insert_callsites [] (mkConnection Scenario.empty_db (current Scenario.stored))
  = (Ok tt, mkConnection Scenario.empty_db (current Scenario.stored))
  /\ _insert_callsites [mkCallSite "c1" "f1" "f2" None None] (connect Scenario.empty_db)
     = (Raise (OperationalError "no such table: callsites"), connect Scenario.empty_db)
  /\ _insert_callsites [mkCallSite "c1" "f1" "f2" None (Some 7);
                        mkCallSite "c2" "f1" "f2" None (Some (2 ^ 63))] Scenario.stored
     = (Raise int_too_large,
        mkConnection (committed Scenario.stored)
          (mkTables (Some Scenario.stored_functions)
                    (Some [mkCallSiteRow "c1" "f1" "f2" None (Some 7)])
                    (Some Scenario.stored_edges))).
Proof.
  destruct (insert_callsites_upserts []
              (mkConnection Scenario.empty_db (current Scenario.stored))) as (H1 & _).
  destruct (insert_callsites_upserts [mkCallSite "c1" "f1" "f2" None None]
              (connect Scenario.empty_db)) as (_ & H2 & _).
  destruct (insert_callsites_upserts
              [mkCallSite "c1" "f1" "f2" None (Some 7);
               mkCallSite "c2" "f1" "f2" None (Some (2 ^ 63))] Scenario.stored)
    as (_ & _ & _ & H4).
  split; [by apply H1|]. split; [by apply H2|].
  exact (H4 [] [mkCallSite "c1" "f1" "f2" None (Some 7)]
            (mkCallSite "c2" "f1" "f2" None (Some (2 ^ 63))) [] eq_refl eq_refl eq_refl
            eq_refl).
Defined.

(** X7.  [_insert_edges] never adds a row: whatever edges it is given, the
    tables the connection sees are the same afterwards.  With an empty list
    it does nothing; with edges and an edges table it returns normally
    after a commit; with edges and no table it raises. *)
Theorem insert_edges_adds_no_row es c :
  current (snd (_insert_edges es c)) = current c
  /\ (es = [] -> _insert_edges es c = (Ok tt, c))
  /\ (es <> [] -> t_edges (current c) <> None ->
      _insert_edges es c = (Ok tt, conn_commit c))
  /\ (es <> [] -> t_edges (current c) = None ->
      _insert_edges es c = (Raise (OperationalError "no such table: edges"), c)).
Proof.
  destruct es as [|e es].
  - repeat split; done.
  - destruct (t_edges (current c)) as [rows|] eqn:Ht.
    + rewrite (insert_edges_ok _ _ rows Ht). repeat split; done.
    + rewrite (insert_edges_missing _ _ _ Ht). repeat split; done.
Qed.

Lemma insert_edges_adds_no_row_witness :
  _insert_edges (edges Scenario.graph) Scenario.fresh = (Ok tt, conn_commit Scenario.fresh)
  /\ t_edges (current (conn_commit Scenario.fresh)) = Some [].
Proof.
  destruct (insert_edges_adds_no_row (edges Scenario.graph) Scenario.fresh)
    as (_ & _ & H & _).
  split; [apply H; discriminate | reflexivity].
Defined.

End WriterMore.

(** ** The gateway and the load as a whole *)

Section LoadMore.
Import Model Engine Writer.

Lemma conn_execute_committed {R} (stmt : statement R) c :
  committed (snd (conn_execute stmt c)) = committed c.
Proof. unfold conn_execute. by destruct (stmt (current c)) as [[? ?]|]. Qed.

Lemma execute_each_committed {P R} (stmt : P -> statement R) ps c :
  committed (snd (DB.execute_each stmt ps c)) = committed c.
Proof.
  revert c. induction ps as [|p ps IH]; intros c; simpl; [done|].
  pose proof (conn_execute_committed (stmt p) c) as H.
  destruct (conn_execute (stmt p) c) as [[?|?] c']; simpl in *; [|done].
  by rewrite IH.
Qed.

Lemma execute_each_app {P R} (stmt : P -> statement R) ps1 ps2 c :
  DB.execute_each stmt (ps1 ++ ps2) c
  = match DB.execute_each stmt ps1 c with
    | (Ok _, c1) => DB.execute_each stmt ps2 c1
    | (Raise e, c1) => (Raise e, c1)
    end.
Proof.
  revert c. induction ps1 as [|p ps1 IH]; intros c; simpl; [done|].
  destruct (conn_execute (stmt p) c) as [[?|?] c']; [apply IH | done].
Qed.

(** X8.  [DB.executemany] stops at the first statement that fails and lets
    the exception through: the statements before it stay applied in the
    open transaction, nothing is committed and the rest of the batch is not
    run.  When no statement fails it commits, and no transaction is left
    open. *)
Theorem executemany_stops_at_first_failure {P R} (stmt : P -> statement R)
    ps1 p ps2 c c1 e :
  DB.execute_each stmt ps1 c = (Ok tt, c1) ->
  stmt p (current c1) = Raise e ->
  DB.executemany stmt (ps1 ++ p :: ps2) c = (Raise e, c1)
  /\ committed c1 = committed c
  /\ DB.executemany stmt ps1 c = (Ok tt, conn_commit c1).
Proof.
  intros H1 Hp. split; [|split].
  - unfold DB.executemany, bind. rewrite execute_each_app, H1. simpl.
    unfold conn_execute. by rewrite Hp.
  - pose proof (execute_each_committed stmt ps1 c) as H. by rewrite H1 in H.
  - unfold DB.executemany, bind. by rewrite H1.
Qed.

Lemma executemany_stops_at_first_failure_witness :
  DB.executemany
    (fun q : bool => if q then sql_upsert_function ("f9", "new", None, None)%string
                     else sql_upsert_callsite ("c1", "f9", "f9", None, None)%string)
    [true; false; true] Scenario.without_callsites_table
  = (Raise (OperationalError "no such table: callsites"),
     mkConnection (mkTables (Some []) None (Some []))
                  (mkTables (Some [mkFunctionRow "f9" "new" None None]) None (Some []))).
Proof.
  refine (proj1 (executemany_stops_at_first_failure _ [true] false [true] _ _ _ _ _));
    reflexivity.
Defined.

(** X9.  [Writer.load_callgraph] never returns normally: for every graph,
    root and connection it raises, and it leaves no transaction open.  When
    the three tables exist and every line of the call sites fits 64 bits,
    the exception is the AttributeError of [cursor.fetchone()]; when the
    functions and call-sites tables exist and some line does not fit, it is
    the OverflowError of the binding. *)
Theorem load_callgraph_always_raises graph root c :
  exists e,
    fst (load_callgraph graph root c) = Raise e
    /\ committed (snd (load_callgraph graph root c))
       = current (snd (load_callgraph graph root c))
    /\ (t_functions (current c) <> None -> t_callsites (current c) <> None ->
        t_edges (current c) <> None -> lines_fit (callsites graph) = true ->
        e = fetchone_on_list)
    /\ (t_functions (current c) <> None -> t_callsites (current c) <> None ->
        lines_fit (callsites graph) = false -> e = int_too_large).
Proof.
  unfold load_callgraph, try_except_reraise, bind.
  destruct (t_functions (current c)) as [frows|] eqn:Ef.
  - rewrite (insert_functions_ok _ _ frows Ef).
    set (c1 := connect _).
    assert (forall crows, t_callsites (current c) = Some crows ->
              lines_fit (callsites graph) = false ->
              fst (_insert_callsites (callsites graph) c1) = Raise int_too_large) as Hover.
    { intros crows Hc Hfit.
      destruct (insert_callsites_overflow (callsites graph) c1 crows Hc Hfit) as [rows' ->].
      done. }
    destruct (_insert_callsites (callsites graph) c1) as [[[]|e2] c2] eqn:E2.
    + destruct (_insert_edges (edges graph) c2) as [[[]|e3] c3] eqn:E3.
      * rewrite compute_depths_raises. exists fetchone_on_list.
        split; [done|]. split; [done|]. split; [done|]. intros _ Hc Hfit.
        destruct (t_callsites (current c)) as [crows|] eqn:Ec; [|done].
        by specialize (Hover crows eq_refl Hfit).
      * exists e3. split; [done|]. split; [done|]. split.
        -- intros _ Hc He Hfit.
           destruct (callsites graph) as [|cs css].
           ++ injection E2 as <-.
              destruct (t_edges (current c)) as [erows|] eqn:Ee; [|done].
              rewrite (insert_edges_ok _ c1 erows) in E3 by done. done.
           ++ destruct (t_callsites (current c)) as [crows|] eqn:Ec; [|done].
              rewrite (insert_callsites_ok _ _ c1 crows) in E2 by done.
              injection E2 as <-.
              destruct (t_edges (current c)) as [erows|] eqn:Ee; [|done].
              rewrite (insert_edges_ok _ _ erows) in E3 by done. done.
        -- intros _ Hc Hfit.
           destruct (t_callsites (current c)) as [crows|] eqn:Ec; [|done].
           by specialize (Hover crows eq_refl Hfit).
    + exists e2. split; [done|]. split; [done|]. split.
      * intros _ Hc _ Hfit.
        destruct (callsites graph) as [|cs css]; [done|].
        destruct (t_callsites (current c)) as [crows|] eqn:Ec; [|done].
        rewrite (insert_callsites_ok _ _ c1 crows) in E2 by done. done.
      * intros _ Hc Hfit.
        destruct (t_callsites (current c)) as [crows|] eqn:Ec; [|done].
        specialize (Hover crows eq_refl Hfit). simpl in Hover. by injection Hover.
  - destruct (_insert_functions (functions graph) c) as [[[]|e1] c1] eqn:E1.
    + destruct (_insert_callsites (callsites graph) c1) as [[[]|e2] c2] eqn:E2.
      * destruct (_insert_edges (edges graph) c2) as [[[]|e3] c3] eqn:E3.
        -- rewrite compute_depths_raises. exists fetchone_on_list. done.
        -- exists e3. done.
      * exists e2. done.
    + exists e1. done.
Qed.

Lemma load_callgraph_always_raises_witness :
  exists e,
    fst (load_callgraph Scenario.graph "main" Scenario.fresh) = Raise e
    /\ e = fetchone_on_list.
Proof.
  destruct (load_callgraph_always_raises Scenario.graph "main" Scenario.fresh)
    as (e & He & _ & Hk & _).
  exists e. split; [exact He|]. apply Hk; try discriminate. reflexivity.
Defined.

(** X10.  [DB.init_schema] never raises; afterwards the three tables exist,
    every table that existed has its rows, nothing is left uncommitted, and
    a second [init_schema] changes nothing. *)
Theorem init_schema_creates_and_keeps c :
  let c' := snd (DB.init_schema c) in
  fst (DB.init_schema c) = Ok tt
  /\ current c'
     = mkTables (Some (default [] (t_functions (current c))))
                (Some (default [] (t_callsites (current c))))
                (Some (default [] (t_edges (current c))))
  /\ committed c' = current c'
  /\ DB.init_schema c' = (Ok tt, c').
Proof.
  destruct c as [K [f cs es]]. cbv zeta.
  unfold DB.init_schema, DB.DB_SCHEMA. simpl. done.
Qed.

End LoadMore.

(** ** The traversal computes shortest distances *)

Section BfsExact.
Import Engine Writer.
Variable adjacency : adjacency_t.
Variable root_id : string.

Lemma visit_mid D u st w :
  bfs_mid_inv adjacency root_id D u st -> calls adjacency u w ->
  bfs_mid_inv adjacency root_id D u (visit (Z.of_nat D) st w)
  /\ is_Some ((visit (Z.of_nat D) st w).1 !! w)
  /\ forall x, is_Some (st.1 !! x) -> is_Some ((visit (Z.of_nat D) st w).1 !! x).
Proof.
  destruct st as [depths queue]. intros (Ha & Hb & Hc & Hd & Hu) Hw.
  unfold visit. simpl in *. destruct (depths !! w) as [dw|] eqn:Ew.
  { split; [exact (conj Ha (conj Hb (conj Hc (conj Hd Hu))))|].
    simpl. split; [|done]. rewrite Ew. eauto. }
  assert (forall x, is_Some (depths !! x) ->
            <[w:=Z.of_nat D + 1]> depths !! x = depths !! x) as Hkeep.
  { intros x [d Hx]. rewrite lookup_insert_ne; [done|]. intros <-. congruence. }
  assert (forall x, is_Some (depths !! x) ->
            is_Some (<[w:=Z.of_nat D + 1]> depths !! x)) as Hmono.
  { intros x Hx. by rewrite Hkeep. }
  split; [|simpl; split; [by rewrite lookup_insert_eq; eauto|done]].
  split; [|split; [|split; [|split]]]; simpl.
  - intros v d. rewrite lookup_insert. case_decide as Hv; [|by apply Ha].
    subst v. intros [= <-]. exists (S D). split; [lia|].
    destruct (Ha u _ Hu) as (n & Hn & Hpath & Hmin).
    assert (n = D) as -> by lia. split.
    + by eapply nsteps_r.
    + intros m Hm. destruct (decide (m <= D)%nat) as [Hle|]; [|lia].
      destruct (Hc w m Hm Hle) as [? ?]. congruence.
  - destruct Hb as (q1 & q2 & -> & H1 & H2). exists q1, (q2 ++ [w])%list.
    split; [unfold append; by rewrite <- app_assoc|]. split.
    + intros v Hv. rewrite Hkeep; [by apply H1|]. rewrite (H1 v Hv). eauto.
    + intros v [Hv| ->%list_elem_of_singleton]%elem_of_app.
      * rewrite Hkeep; [by apply H2|]. rewrite (H2 v Hv). eauto.
      * rewrite lookup_insert_eq. f_equal. lia.
  - intros v n Hn Hle. apply Hmono. by eapply Hc.
  - intros x Hx Hq Hxu y Hy. unfold append in Hq.
    assert (x <> w) as Hxw.
    { intros ->. apply Hq, elem_of_app. right. apply list_elem_of_here. }
    rewrite lookup_insert_ne in Hx by done. apply Hmono.
    apply (Hd x Hx); [|done..]. intros Hin. apply Hq, elem_of_app. by left.
  - rewrite Hkeep; [done|]. rewrite Hu. eauto.
Qed.

Lemma visit_all_mid D u neighbors st :
  bfs_mid_inv adjacency root_id D u st ->
  (forall n, n ∈ neighbors -> calls adjacency u n) ->
  bfs_mid_inv adjacency root_id D u (fold_left (visit (Z.of_nat D)) neighbors st)
  /\ (forall x, is_Some (st.1 !! x) ->
        is_Some ((fold_left (visit (Z.of_nat D)) neighbors st).1 !! x))
  /\ forall n, n ∈ neighbors ->
       is_Some ((fold_left (visit (Z.of_nat D)) neighbors st).1 !! n).
Proof.
  revert st. induction neighbors as [|w neighbors IH]; intros st Hinv Hcalls; simpl.
  - split; [done|]. split; [done|]. by intros n ?%elem_of_nil.
  - destruct (visit_mid D u st w Hinv (Hcalls w (list_elem_of_here _ _)))
      as (Hinv' & Hw & Hmono).
    destruct (IH (visit (Z.of_nat D) st w) Hinv') as (Hfin & Hmono' & Hall).
    { intros n Hn. by apply Hcalls, list_elem_of_further. }
    split; [done|]. split; [by auto|].
    intros n [->|Hn]%elem_of_cons; [by apply Hmono'|by apply Hall].
Qed.

Lemma bfs_inv_head D depths u queue :
  bfs_inv adjacency root_id D (depths, u :: queue) ->
  exists D', bfs_inv adjacency root_id D' (depths, u :: queue)
             /\ depths !! u = Some (Z.of_nat D').
Proof.
  intros (Ha & Hb & Hc & Hd). simpl in *.
  destruct Hb as (q1 & q2 & Eq & H1 & H2). destruct q1 as [|u' q1].
  - simpl in Eq. subst q2. exists (S D).
    split; [|apply H2, list_elem_of_here].
    split; [done|]. split; [|split; [|done]]; simpl.
    + exists (u :: queue), []. split; [by rewrite app_nil_r|]. split; [done|].
      by intros v ?%elem_of_nil.
    + intros v n Hn Hle. destruct (decide (n <= D)%nat) as [Hle'|]; [by eapply Hc|].
      assert (n = S D) as -> by lia.
      apply nsteps_inv_r in Hn as (p & Hp & Hpv).
      destruct (Hc p D Hp (le_n _)) as [dp Hdp].
      apply (Hd p); [by eauto| |done].
      intros Hin. rewrite (H2 p Hin) in Hdp.
      destruct (Ha p dp) as (n & Hn & _ & Hmin); [by rewrite (H2 p Hin), Hdp|].
      specialize (Hmin D Hp). injection Hdp as <-. lia.
  - injection Eq as <- ->. exists D. split; [|apply H1, list_elem_of_here].
    split; [done|]. split; [|done]. exists (u :: q1), q2. done.
Qed.

Lemma bfs_inv_pop D depths u queue :
  bfs_inv adjacency root_id D (depths, u :: queue) ->
  depths !! u = Some (Z.of_nat D) ->
  bfs_mid_inv adjacency root_id D u (depths, queue).
Proof.
  intros (Ha & Hb & Hc & Hd) Hu. simpl in *.
  split; [done|]. split; [|split; [done|split; [|done]]]; simpl.
  - destruct Hb as (q1 & q2 & Eq & H1 & H2). destruct q1 as [|u' q1].
    + simpl in Eq. subst q2. rewrite (H2 u (list_elem_of_here _ _)) in Hu.
      injection Hu as Hu. lia.
    + injection Eq as <- ->. exists q1, q2. split; [done|]. split; [|done].
      intros v Hv. by apply H1, list_elem_of_further.
  - intros x Hx Hq Hxu. apply Hd; [done|]. by intros [->|?]%elem_of_cons.
Qed.

Lemma bfs_mid_finish D u st :
  bfs_mid_inv adjacency root_id D u st -> expanded adjacency u st.1 ->
  bfs_inv adjacency root_id D st.
Proof.
  intros (Ha & Hb & Hc & Hd & Hu) He. split; [done|]. split; [done|]. split; [done|].
  intros x Hx Hq. destruct (decide (x = u)) as [->|Hne]; [done|]. by apply Hd.
Qed.

Lemma bfs_loop_inv fuel D depths queue :
  bfs_inv adjacency root_id D (depths, queue) ->
  exists D', bfs_inv adjacency root_id D' (bfs_loop fuel adjacency depths queue).
Proof.
  revert D depths queue. induction fuel as [|fuel IH]; intros D depths queue Hinv.
  { by exists D. }
  simpl. destruct queue as [|u queue]; [by exists D|].
  destruct (bfs_inv_head D depths u queue Hinv) as (D' & Hinv' & Hu).
  rewrite (lookup_total_correct _ _ _ Hu).
  pose proof (bfs_inv_pop D' depths u queue Hinv' Hu) as Hmid.
  destruct (adj_get adjacency u) as [neighbors|] eqn:Eg.
  - destruct (visit_all_mid D' u neighbors (depths, queue) Hmid)
      as (Hfin & _ & Hall).
    { intros n Hn. by exists neighbors. }
    destruct (fold_left _ neighbors (depths, queue)) as [depths' queue'] eqn:Ef.
    apply (IH D'). apply (bfs_mid_finish D' u); [done|].
    intros w (l & Hl & Hw). rewrite Eg in Hl. injection Hl as <-. by apply Hall.
  - apply (IH D'). apply (bfs_mid_finish D' u); [done|].
    intros w (l & Hl & _). by rewrite Eg in Hl.
Qed.

Lemma bfs_inv_init : bfs_inv adjacency root_id 0 ({[ root_id := 0 ]}, [root_id]).
Proof.
  split; [|split; [|split]]; simpl.
  - intros v d [<- <-]%lookup_singleton_Some. exists 0%nat. split; [done|].
    split; [constructor | lia].
  - exists [root_id], []. split; [done|]. split.
    + intros v ->%list_elem_of_singleton. apply lookup_singleton_eq.
    + by intros v ?%elem_of_nil.
  - intros v n Hn Hle. assert (n = 0%nat) as -> by lia.
    inversion Hn; subst. rewrite lookup_singleton_eq. eauto.
  - intros x [d [<- _]%lookup_singleton_Some] Hq. destruct Hq. apply list_elem_of_here.
Qed.

Lemma shortest_unique v n m :
  shortest adjacency root_id v n -> shortest adjacency root_id v m -> n = m.
Proof. intros [H1 H2] [H3 H4]. specialize (H2 m H3). specialize (H4 n H1). lia. Qed.

(** Every depth of the traversal is a least number of calls, and every node
    some number of calls away from the root has a depth. *)
Lemma bfs_depths_exact :
  (forall v d, bfs adjacency root_id !! v = Some d ->
               exists m, d = Z.of_nat m /\ shortest adjacency root_id v m)
  /\ (forall v n, nsteps (calls adjacency) n root_id v ->
                  is_Some (bfs adjacency root_id !! v)).
Proof.
  pose proof (bfs_queue_exhausted adjacency root_id) as Hq.
  destruct (bfs_loop_inv (bfs_fuel adjacency) 0 {[ root_id := 0 ]} [root_id] bfs_inv_init)
    as (D & Ha & _ & Hc & Hd).
  unfold bfs. destruct (bfs_loop _ _ _ _) as [depths queue]. simpl in *. subst queue.
  split; [exact Ha|].
  intros v n. revert v. induction n as [|n IH]; intros v Hn.
  - apply (Hc v 0%nat Hn). lia.
  - apply nsteps_inv_r in Hn as (p & Hp & Hpv).
    apply (Hd p); [by apply IH | by intros ?%elem_of_nil | done].
Qed.

Lemma bfs_depth_shortest v n :
  bfs adjacency root_id !! v = Some (Z.of_nat n) <-> shortest adjacency root_id v n.
Proof.
  destruct bfs_depths_exact as [Ha Hall]. split.
  - intros (m & Hm & Hs)%Ha. by assert (n = m) as -> by lia.
  - intros Hs. destruct (Hall v n (proj1 Hs)) as [d Hd'].
    destruct (Ha v d Hd') as (m & -> & Hs').
    by rewrite (shortest_unique v n m Hs Hs').
Qed.

Lemma bfs_depth_reachable v :
  is_Some (bfs adjacency root_id !! v) <-> reachable adjacency root_id v.
Proof.
  destruct bfs_depths_exact as [Ha Hall]. split.
  - intros [d (n & _ & Hn & _)%Ha]. by eapply rtc_nsteps_2.
  - intros (n & Hn)%rtc_nsteps_1. by eapply Hall.
Qed.

(** X11.  The traversal of [_compute_depths], run from [root_id] on an
    adjacency dictionary, ends with an empty queue, and the depth it gives
    a node is the least number of calls that lead from the root to it: the
    root has depth 0, every node with a path from the root has a depth, and
    no other node has one. *)
Theorem bfs_depth_is_shortest_distance :
  (bfs_loop (bfs_fuel adjacency) adjacency {[ root_id := 0 ]} [root_id]).2 = []
  /\ bfs adjacency root_id !! root_id = Some 0
  /\ (forall v n, bfs adjacency root_id !! v = Some (Z.of_nat n) <->
                  shortest adjacency root_id v n)
  /\ (forall v, is_Some (bfs adjacency root_id !! v) <-> reachable adjacency root_id v).
Proof.
  split; [apply bfs_queue_exhausted|]. split; [|split].
  - apply (bfs_depth_shortest root_id 0%nat). split; [constructor | lia].
  - apply bfs_depth_shortest.
  - apply bfs_depth_reachable.
Qed.

End BfsExact.

(** ** The depths the updates write *)

Section DepthUpdate.
Import Engine Writer.

(** [_compute_depths] is the resolution of the root followed by
    [compute_depths_from]. *)
Lemma compute_depths_unfold root_function :
  _compute_depths root_function
  = (do cursor <- DB.execute (sql_select_root root_function) in
     do row <- lift (fetchone (PyList cursor)) in
     match row with
     | None => ret tt
     | Some root_id => compute_depths_from root_id
     end).
Proof. reflexivity. Qed.

Lemma set_depths_fmap updates rows :
  set_depths updates rows = set_depth_all updates <$> rows.
Proof.
  revert rows. induction updates as [|p updates IH]; intros rows.
  - simpl. by rewrite list_fmap_id.
  - unfold set_depths, set_depth_all in *. simpl. rewrite IH, <- list_fmap_compose. done.
Qed.

Lemma set_depth_all_miss updates r :
  (forall d a b, (d, a, b) ∈ updates ->
     ~ (er_caller_function_id r = a /\ er_callee_function_id r = b)) ->
  set_depth_all updates r = r.
Proof.
  revert r. induction updates as [|[[d a] b] updates IH]; intros r H; [done|].
  unfold set_depth_all in *. simpl.
  rewrite decide_False by (apply (H d a b), list_elem_of_here).
  apply IH. intros d' a' b' Hin. by apply (H d' a' b'), list_elem_of_further.
Qed.

Lemma set_depth_all_stable d0 updates r :
  (forall d a b, (d, a, b) ∈ updates ->
     er_caller_function_id r = a -> er_callee_function_id r = b -> d = d0) ->
  set_depth_all updates (with_depth d0 r) = with_depth d0 r.
Proof.
  induction updates as [|[[d a] b] updates IH]; intros H; [done|].
  unfold set_depth_all in *. simpl.
  assert (forall d' a' b', (d', a', b') ∈ updates ->
            er_caller_function_id r = a' -> er_callee_function_id r = b' -> d' = d0) as H'
    by (intros d' a' b' Hin; by apply (H d' a' b'), list_elem_of_further).
  destruct (decide (er_caller_function_id r = a /\ er_callee_function_id r = b))
    as [[Ha Hb]|Hn].
  - rewrite (H d a b (list_elem_of_here _ _) Ha Hb). by apply IH.
  - by apply IH.
Qed.

Lemma set_depth_all_hit d0 updates r :
  (forall d a b, (d, a, b) ∈ updates ->
     er_caller_function_id r = a -> er_callee_function_id r = b -> d = d0) ->
  (exists d, (d, er_caller_function_id r, er_callee_function_id r) ∈ updates) ->
  set_depth_all updates r = with_depth d0 r.
Proof.
  induction updates as [|[[d a] b] updates IH]; intros H [d' Hin].
  { by apply elem_of_nil in Hin. }
  assert (forall d' a' b', (d', a', b') ∈ updates ->
            er_caller_function_id r = a' -> er_callee_function_id r = b' -> d' = d0) as H'
    by (intros d1 a' b' Hin'; by apply (H d1 a' b'), list_elem_of_further).
  unfold set_depth_all in *. simpl.
  destruct (decide (er_caller_function_id r = a /\ er_callee_function_id r = b))
    as [[Ha Hb]|Hn].
  - rewrite (H d a b (list_elem_of_here _ _) Ha Hb).
    by apply (set_depth_all_stable d0 updates r).
  - apply IH; [done|]. apply elem_of_cons in Hin as [Heq|Hin]; [|by eauto].
    injection Heq as _ Ha Hb. by destruct Hn.
Qed.

Lemma adj_get_elem adjacency k callees :
  adj_get adjacency k = Some callees -> (k, callees) ∈ adjacency.
Proof.
  induction adjacency as [|[k' l] adjacency IH]; simpl; [done|].
  destruct (decide (k' = k)) as [->|].
  - intros [= ->]. apply list_elem_of_here.
  - intros H. by apply list_elem_of_further, IH.
Qed.

Lemma edge_updates_complete adjacency depths d a b db :
  calls adjacency a b -> depths !! a = Some d -> depths !! b = Some db ->
  (d, a, b) ∈ edge_updates adjacency depths.
Proof.
  intros (callees & Hg%adj_get_elem & Hb) Ha Hdb. unfold edge_updates.
  apply list_elem_of_bind. exists (a, callees). split; [|done].
  rewrite Ha. apply list_elem_of_bind. exists b. split; [|done].
  rewrite Hdb. apply list_elem_of_here.
Qed.

Lemma calls_edge_in rows u v :
  calls (build_adjacency (edge_pair <$> rows)) u v <-> edge_in rows u v.
Proof.
  rewrite calls_build_adjacency, list_elem_of_fmap. unfold edge_in, edge_pair. split.
  - intros (r & [= -> ->] & Hr). eauto.
  - intros (r & Hr & <- & <-). eauto.
Qed.

Lemma nsteps_calls_edge_in rows n u v :
  nsteps (calls (build_adjacency (edge_pair <$> rows))) n u v
  <-> nsteps (edge_in rows) n u v.
Proof.
  split; intros H.
  - apply (nsteps_congruence id (edge_in rows)) in H; [done|].
    intros x y. apply calls_edge_in.
  - apply (nsteps_congruence id (calls (build_adjacency (edge_pair <$> rows)))) in H;
      [done|]. intros x y. apply calls_edge_in.
Qed.

Lemma shortest_hops rows root_id v n :
  shortest (build_adjacency (edge_pair <$> rows)) root_id v n <-> hops rows root_id v n.
Proof.
  unfold shortest, hops. rewrite nsteps_calls_edge_in.
  split; intros [H1 H2]; (split; [done|]); intros m Hm; apply H2;
    by apply nsteps_calls_edge_in.
Qed.

(** X12.  Once a root is given, the rest of [_compute_depths] returns
    normally on a database with an edges table, keeps the number and order
    of the edge rows, sets the depth of every edge whose caller has a path
    from the root to the least number of edges from the root to that
    caller, and leaves every other edge, and the other tables, as they
    were. *)
Theorem compute_depths_from_sets_caller_distance rows root_id c :
  t_edges (current c) = Some rows ->
  exists rows',
    fst (compute_depths_from root_id c) = Ok tt
    /\ current (snd (compute_depths_from root_id c))
       = mkTables (t_functions (current c)) (t_callsites (current c)) (Some rows')
    /\ length rows' = length rows
    /\ forall i r, rows !! i = Some r ->
         (forall n, hops rows root_id (er_caller_function_id r) n ->
                    rows' !! i = Some (with_depth (Z.of_nat n) r))
         /\ (~ path rows root_id (er_caller_function_id r) -> rows' !! i = Some r).
Proof.
  intros He.
  set (adjacency := build_adjacency (edge_pair <$> rows)).
  set (updates := edge_updates adjacency (bfs adjacency root_id)).
  exists (set_depths updates rows).
  assert (compute_depths_from root_id c
          = match updates with
            | [] => (Ok tt, c)
            | _ :: _ => DB.executemany sql_update_depth updates c
            end) as Hrun.
  { unfold compute_depths_from, bind. rewrite execute_spec. unfold sql_select_edges.
    rewrite He, connection_eta. change (iterate (PyList (edge_pair <$> rows))) with (edge_pair <$> rows).
    fold adjacency. fold updates. by destruct updates. }
  assert (fst (compute_depths_from root_id c) = Ok tt
          /\ current (snd (compute_depths_from root_id c))
             = mkTables (t_functions (current c)) (t_callsites (current c))
                        (Some (set_depths updates rows))) as [H1 H2].
  { rewrite Hrun. destruct updates as [|p updates'] eqn:Eu.
    - simpl. split; [done|]. destruct c as [K [f cs es]]. simpl in *. by subst.
    - unfold DB.executemany, bind. rewrite (execute_each_updates _ _ _ He). done. }
  split; [done|]. split; [done|]. split; [apply set_depths_length|].
  pose proof (bfs_depth_shortest adjacency root_id) as Hexact.
  pose proof (bfs_depth_reachable adjacency root_id) as Hreach.
  intros i r Hi.
  assert ((er_caller_function_id r, er_callee_function_id r) ∈ edge_pair <$> rows) as Hpair.
  { apply list_elem_of_fmap. exists r. split; [done|]. by eapply list_elem_of_lookup_2. }
  split.
  - intros n Hn. rewrite set_depths_fmap, list_lookup_fmap, Hi. simpl. f_equal.
    apply shortest_hops, Hexact in Hn.
    apply set_depth_all_hit.
    + intros d a b [Ha _]%edge_updates_only_with_depth <- _. congruence.
    + assert (calls adjacency (er_caller_function_id r) (er_callee_function_id r)) as Hcall
        by (by apply calls_build_adjacency).
      assert (is_Some (bfs adjacency root_id !! er_callee_function_id r)) as [db Hdb].
      { apply Hreach. eapply rtc_r; [|exact Hcall]. apply Hreach. eauto. }
      exists (Z.of_nat n). by eapply edge_updates_complete.
  - intros Hnp. rewrite set_depths_fmap, list_lookup_fmap, Hi. simpl. f_equal.
    apply set_depth_all_miss. intros d a b [Ha _]%edge_updates_only_with_depth [<- _].
    apply Hnp, reachable_path, Hreach. eauto.
Qed.

Lemma compute_depths_from_sets_caller_distance_witness :
  t_edges (current Scenario.island) = Some Scenario.island_edges
  /\ exists rows',
       fst (compute_depths_from "f1" Scenario.island) = Ok tt
       /\ current (snd (compute_depths_from "f1" Scenario.island))
          = mkTables (t_functions (current Scenario.island))
                     (t_callsites (current Scenario.island)) (Some rows')
       /\ length rows' = length Scenario.island_edges
       /\ forall i r, Scenario.island_edges !! i = Some r ->
            (forall n, hops Scenario.island_edges "f1" (er_caller_function_id r) n ->
                       rows' !! i = Some (with_depth (Z.of_nat n) r))
            /\ (~ path Scenario.island_edges "f1" (er_caller_function_id r) ->
                rows' !! i = Some r).
Proof.
  split; [reflexivity|].
  exact (compute_depths_from_sets_caller_distance Scenario.island_edges "f1"
           Scenario.island eq_refl).
Defined.

End DepthUpdate.

(** ** The query layer *)

Section QueriesMore.
Import Engine Queries.

Lemma ascii_compare_refl a : Ascii.compare a a = Eq.
Proof. unfold Ascii.compare. apply N.compare_refl. Qed.

Lemma ascii_compare_lt_trans a b c :
  Ascii.compare a b = Lt -> Ascii.compare b c = Lt -> Ascii.compare a c = Lt.
Proof. unfold Ascii.compare. rewrite !N.compare_lt_iff. lia. Qed.

Lemma string_compare_refl s : String.compare s s = Eq.
Proof. induction s as [|a s IH]; simpl; [done|]. by rewrite ascii_compare_refl. Qed.

Lemma string_compare_lt_trans s1 s2 s3 :
  String.compare s1 s2 = Lt -> String.compare s2 s3 = Lt -> String.compare s1 s3 = Lt.
Proof.
  revert s2 s3. induction s1 as [|a s1 IH]; intros [|b s2] [|c s3]; simpl; try done.
  destruct (Ascii.compare a b) eqn:E1; try done;
    destruct (Ascii.compare b c) eqn:E2; try done.
  - apply Ascii.compare_eq_iff in E1 as ->. rewrite E2. apply IH.
  - apply Ascii.compare_eq_iff in E1 as ->. by rewrite E2.
  - apply Ascii.compare_eq_iff in E2 as ->. by rewrite E1.
  - by rewrite (ascii_compare_lt_trans a b c E1 E2).
Qed.

Lemma string_leb_spec s1 s2 :
  String.leb s1 s2 = true <-> String.compare s1 s2 = Lt \/ s1 = s2.
Proof.
  unfold String.leb. destruct (String.compare s1 s2) eqn:E.
  - apply String.compare_eq_iff in E. naive_solver.
  - naive_solver.
  - split; [done|]. intros [?| ->]; [done|]. by rewrite string_compare_refl in E.
Qed.

Lemma string_leb_trans s1 s2 s3 :
  String.leb s1 s2 = true -> String.leb s2 s3 = true -> String.leb s1 s3 = true.
Proof.
  rewrite !string_leb_spec. intros [H1| ->] [H2| ->]; eauto.
  left. by eapply string_compare_lt_trans.
Qed.

#[local] Instance name_le_trans : Transitive name_le.
Proof. intros a b c. unfold name_le. apply string_leb_trans. Qed.

#[local] Instance name_le_total : Total name_le.
Proof. intros a b. unfold name_le. apply String.leb_total. Qed.

#[local] Instance names_le_total : Total names_le.
Proof.
  intros a b. unfold names_le. rewrite (String.compare_antisym b.1 a.1).
  destruct (String.compare a.1 b.1); simpl; auto. apply String.leb_total.
Qed.

#[local] Instance names_le_trans : Transitive names_le.
Proof.
  intros a b c. unfold names_le.
  destruct (String.compare a.1 b.1) eqn:E1; [| |done];
    destruct (String.compare b.1 c.1) eqn:E2; try done.
  - apply String.compare_eq_iff in E1. apply String.compare_eq_iff in E2.
    rewrite E1, E2, string_compare_refl. apply string_leb_trans.
  - apply String.compare_eq_iff in E1. by rewrite E1, E2.
  - apply String.compare_eq_iff in E2. by rewrite <- E2, E1.
  - by rewrite (string_compare_lt_trans _ _ _ E1 E2).
Qed.

(** A statement that changes no table: the gateway returns a list and
    leaves the connection as it was, whether the engine fails or not. *)
Lemma execute_read {R} (stmt : statement R) c :
  (forall t t' rows, stmt t = Ok (t', rows) -> t' = t) ->
  exists rows, DB.execute stmt c = (Ok rows, c).
Proof.
  intros Hro. rewrite execute_spec.
  destruct (stmt (current c)) as [[t' rows]|e] eqn:E; [|by eexists].
  rewrite (Hro _ _ _ E), connection_eta. by eexists.
Qed.

Lemma sql_list_functions_read t t' rows :
  sql_list_functions t = Ok (t', rows) -> t' = t.
Proof. unfold sql_list_functions. destruct (t_functions t); [|done]. by intros [= <- _]. Qed.

Lemma sql_callees_read function t t' rows :
  sql_callees function t = Ok (t', rows) -> t' = t.
Proof.
  unfold sql_callees. destruct (t_edges t); [|done].
  destruct (t_functions t); [|done]. by intros [= <- _].
Qed.

Lemma sql_callers_read function t t' rows :
  sql_callers function t = Ok (t', rows) -> t' = t.
Proof.
  unfold sql_callers. destruct (t_edges t); [|done].
  destruct (t_functions t); [|done]. by intros [= <- _].
Qed.

Lemma sql_depth_summary_read t t' rows :
  sql_depth_summary t = Ok (t', rows) -> t' = t.
Proof. unfold sql_depth_summary. destruct (t_edges t); [|done]. by intros [= <- _]. Qed.

Lemma sql_edges_at_depth_read d t t' rows :
  sql_edges_at_depth d t = Ok (t', rows) -> t' = t.
Proof.
  unfold sql_edges_at_depth. destruct (t_edges t); [|done].
  destruct (t_functions t); [|done]. by intros [= <- _].
Qed.

Lemma sql_all_depths_read t t' rows :
  sql_all_depths t = Ok (t', rows) -> t' = t.
Proof. unfold sql_all_depths. destruct (t_edges t); [|done]. by intros [= <- _]. Qed.

Lemma sql_function_info_read function t t' rows :
  sql_function_info function t = Ok (t', rows) -> t' = t.
Proof. unfold sql_function_info. destruct (t_functions t); [|done]. by intros [= <- _]. Qed.

Lemma sql_callsites_of_read function t t' rows :
  sql_callsites_of function t = Ok (t', rows) -> t' = t.
Proof.
  unfold sql_callsites_of. destruct (t_callsites t); [|done].
  destruct (t_functions t); [|done]. by intros [= <- _].
Qed.

(** X13.  No function of the query layer raises or changes the database:
    on every connection, also one whose tables are missing, each returns
    a value and leaves the committed state and the open transaction as they
    were. *)
Theorem queries_return_and_write_nothing (function : string) (d : Z) (c : Connection) :
  (exists rows, list_functions c = (Ok rows, c))
  /\ (exists rows, get_callees function c = (Ok rows, c))
  /\ (exists rows, get_callers function c = (Ok rows, c))
  /\ (exists rows, depth_summary c = (Ok rows, c))
  /\ (exists pairs, edges_at_depth d c = (Ok pairs, c))
  /\ (exists detail, function_detail function c = (Ok detail, c))
  /\ (exists depths, get_all_depths c = (Ok depths, c)).
Proof.
  destruct (execute_read _ c sql_list_functions_read) as [r1 H1].
  destruct (execute_read _ c (sql_callees_read function)) as [r2 H2].
  destruct (execute_read _ c (sql_callers_read function)) as [r3 H3].
  destruct (execute_read _ c sql_depth_summary_read) as [r4 H4].
  destruct (execute_read _ c (sql_edges_at_depth_read d)) as [r5 H5].
  destruct (execute_read _ c (sql_function_info_read function)) as [r6 H6].
  destruct (execute_read _ c (sql_callsites_of_read function)) as [r7 H7].
  destruct (execute_read _ c sql_all_depths_read) as [r8 H8].
  split; [by eexists|]. split; [by eexists|]. split; [by eexists|].
  split; [by eexists|]. split; [|split].
  - unfold edges_at_depth, bind. rewrite H5. by eexists.
  - unfold function_detail, bind. rewrite H6. destruct r6 as [|func_info r6].
    + by eexists.
    + unfold get_callers, get_callees. rewrite H3, H2, H7. by eexists.
  - unfold get_all_depths, bind. rewrite H8. by eexists.
Qed.

Lemma get_callees_spec function c es fs :
  t_edges (current c) = Some es -> t_functions (current c) = Some fs ->
  exists rows,
    get_callees function c = (Ok rows, c)
    /\ NoDup rows /\ StronglySorted name_le rows
    /\ forall g, g ∈ rows <->
         g ∈ fs /\ exists e f, e ∈ es /\ f ∈ fs
           /\ er_callee_function_id e = fn_id g
           /\ er_caller_function_id e = fn_id f
           /\ matches_root function f.
Proof.
  intros He Hf. unfold get_callees. rewrite execute_spec.
  destruct (sql_callees_spec function (current c) es fs He Hf) as (rows & Hq & Hnd & Hin).
  rewrite Hq, connection_eta. exists rows. split; [done|]. split; [done|]. split; [|done].
  unfold sql_callees in Hq. rewrite He, Hf in Hq. injection Hq as <-.
  apply StronglySorted_merge_sort; apply _.
Qed.

Lemma get_callers_spec function c es fs :
  t_edges (current c) = Some es -> t_functions (current c) = Some fs ->
  exists rows,
    get_callers function c = (Ok rows, c)
    /\ NoDup rows /\ StronglySorted name_le rows
    /\ forall f, f ∈ rows <->
         f ∈ fs /\ exists e g, e ∈ es /\ g ∈ fs
           /\ er_caller_function_id e = fn_id f
           /\ er_callee_function_id e = fn_id g
           /\ matches_root function g.
Proof.
  intros He Hf. unfold get_callers. rewrite execute_spec. unfold sql_callers.
  rewrite He, Hf, connection_eta. eexists. split; [done|].
  unfold order_by_name. split; [|split].
  - rewrite merge_sort_Permutation. apply NoDup_remove_dups.
  - apply StronglySorted_merge_sort; apply _.
  - intros f. rewrite merge_sort_Permutation, elem_of_remove_dups, list_elem_of_bind. split.
    + intros (e & (f' & (g & Hx & Hg)%list_elem_of_bind & Hf')%list_elem_of_bind & Hin).
      apply list_elem_of_filter in Hf' as [Hfe Hfin].
      apply list_elem_of_filter in Hg as [[Hge Hgm] Hgin].
      apply list_elem_of_singleton in Hx as ->.
      split; [done|]. by exists e, g.
    + intros (Hfin & e & g & Hin & Hgin & Hfe & Hge & Hgm).
      exists e. split; [|done]. apply list_elem_of_bind. exists f. split.
      * apply list_elem_of_bind. exists g. split; [apply list_elem_of_here|].
        by apply list_elem_of_filter.
      * by apply list_elem_of_filter.
Qed.

(** X14.  On a database with the functions and edges tables,
    [get_callees] and [get_callers] return lists ordered by name, without
    a repeated row, that agree with each other: a stored edge between two
    stored functions puts the callee among the callees of the caller and
    the caller among the callers of the callee, asked by id or by name;
    every function listed as a callee has, among its callers asked by its
    id, a function that matches the request, and likewise for callers. *)
Theorem callees_and_callers_agree function c es fs :
  t_edges (current c) = Some es -> t_functions (current c) = Some fs ->
  exists callees callers,
    get_callees function c = (Ok callees, c)
    /\ get_callers function c = (Ok callers, c)
    /\ NoDup callees /\ NoDup callers
    /\ StronglySorted name_le callees /\ StronglySorted name_le callers
    /\ (forall e f g, e ∈ es -> f ∈ fs -> g ∈ fs ->
          er_caller_function_id e = fn_id f -> er_callee_function_id e = fn_id g ->
          (matches_root function f -> g ∈ callees)
          /\ (matches_root function g -> f ∈ callers))
    /\ (forall g, g ∈ callees ->
          exists f back, matches_root function f
            /\ get_callers (fn_id g) c = (Ok back, c) /\ f ∈ back)
    /\ (forall f, f ∈ callers ->
          exists g forth, matches_root function g
            /\ get_callees (fn_id f) c = (Ok forth, c) /\ g ∈ forth).
Proof.
  intros He Hf.
  destruct (get_callees_spec function c es fs He Hf) as (callees & H1 & Hn1 & Hs1 & Hin1).
  destruct (get_callers_spec function c es fs He Hf) as (callers & H2 & Hn2 & Hs2 & Hin2).
  exists callees, callers.
  split; [done|]. split; [done|]. split; [done|]. split; [done|].
  split; [done|]. split; [done|]. split; [|split].
  - intros e f g Hin Hfin Hgin Hc Hd. split; intros Hm.
    + apply Hin1. split; [done|]. by exists e, f.
    + apply Hin2. split; [done|]. by exists e, g.
  - intros g (Hgin & e & f & Hin & Hfin & Hd & Hc & Hm)%Hin1.
    destruct (get_callers_spec (fn_id g) c es fs He Hf) as (back & H3 & _ & _ & Hin3).
    exists f, back. split; [done|]. split; [done|]. apply Hin3. split; [done|].
    exists e, g. split_and!; [done..|by left].
  - intros f (Hfin & e & g & Hin & Hgin & Hc & Hd & Hm)%Hin2.
    destruct (get_callees_spec (fn_id f) c es fs He Hf) as (forth & H3 & _ & _ & Hin3).
    exists g, forth. split; [done|]. split; [done|]. apply Hin3. split; [done|].
    exists e, f. split_and!; [done..|by left].
Qed.

Lemma callees_and_callers_agree_witness :
  t_edges (current Scenario.stored) = Some Scenario.stored_edges
  /\ t_functions (current Scenario.stored) = Some Scenario.stored_functions
  /\ exists callees callers,
       get_callees "main" Scenario.stored = (Ok callees, Scenario.stored)
       /\ get_callers "main" Scenario.stored = (Ok callers, Scenario.stored)
       /\ NoDup callees /\ NoDup callers
       /\ StronglySorted name_le callees /\ StronglySorted name_le callers
       /\ (forall e f g, e ∈ Scenario.stored_edges ->
             f ∈ Scenario.stored_functions -> g ∈ Scenario.stored_functions ->
             er_caller_function_id e = fn_id f -> er_callee_function_id e = fn_id g ->
             (matches_root "main" f -> g ∈ callees)
             /\ (matches_root "main" g -> f ∈ callers))
       /\ (forall g, g ∈ callees ->
             exists f back, matches_root "main" f
               /\ get_callers (fn_id g) Scenario.stored = (Ok back, Scenario.stored)
               /\ f ∈ back)
       /\ (forall f, f ∈ callers ->
             exists g forth, matches_root "main" g
               /\ get_callees (fn_id f) Scenario.stored = (Ok forth, Scenario.stored)
               /\ g ∈ forth).
Proof.
  split; [reflexivity|]. split; [reflexivity|].
  exact (callees_and_callers_agree "main" Scenario.stored Scenario.stored_edges
           Scenario.stored_functions eq_refl eq_refl).
Defined.

Lemma sum_list_fmap_add {A} (f g : A -> nat) (l : list A) :
  sum_list ((fun x => f x + g x)%nat <$> l) = (sum_list (f <$> l) + sum_list (g <$> l))%nat.
Proof. induction l as [|x l IH]; csimpl; [done|]. rewrite IH. lia. Qed.

Lemma sum_list_indicator (x : option Z) (ds : list Z) :
  NoDup ds -> (forall d, x = Some d -> d ∈ ds) ->
  sum_list ((fun d => if decide (x = Some d) then 1 else 0)%nat <$> ds)
  = (if decide (is_Some x) then 1 else 0)%nat.
Proof.
  intros Hnd Hin. destruct x as [d0|].
  - specialize (Hin d0 eq_refl). rewrite decide_True by eauto.
    induction Hnd as [|d ds Hd Hnd IH]; [by apply elem_of_nil in Hin|].
    rewrite fmap_cons. cbn [sum_list sum_list_with].
    destruct (decide (Some d0 = Some d)) as [[= ->]|Hne].
    + rewrite (sum_list_fmap_same 0); [simpl; lia|].
      apply Forall_forall. intros d' Hd'. rewrite decide_False; [done|].
      intros [= ->]. done.
    + apply elem_of_cons in Hin as [->|Hin]; [done|]. by rewrite IH.
  - rewrite decide_False by (by intros [? ?]).
    rewrite (sum_list_fmap_same 0); [lia|]. by apply Forall_forall.
Qed.

Lemma sum_edges_of_depth (es : list EdgeRow) (ds : list Z) :
  NoDup ds -> (forall e d, e ∈ es -> er_depth e = Some d -> d ∈ ds) ->
  sum_list ((fun d => length (edges_of_depth d es)) <$> ds)
  = length (filter (fun e => is_Some (er_depth e)) es).
Proof.
  intros Hnd. induction es as [|e es IH]; intros Hin.
  - rewrite (sum_list_fmap_same 0); [simpl; lia|]. by apply Forall_forall.
  - rewrite filter_cons.
    transitivity (sum_list ((fun d => (if decide (er_depth e = Some d) then 1 else 0)
                                      + length (edges_of_depth d es))%nat <$> ds)).
    { f_equal. apply list_fmap_ext. intros _ d _. unfold edges_of_depth.
      rewrite filter_cons. by destruct (decide (er_depth e = Some d)). }
    rewrite sum_list_fmap_add, sum_list_indicator; [|done|].
    + rewrite IH by (intros e' d He'; apply Hin; by apply list_elem_of_further).
      by destruct (decide (is_Some (er_depth e))).
    + intros d Hd. apply (Hin e d); [apply list_elem_of_here|done].
Qed.

Lemma remove_dups_length_le {A} `{EqDecision A} (l : list A) :
  (length (remove_dups l) <= length l)%nat.
Proof.
  induction l as [|x l IH]; simpl; [done|].
  destruct (decide_rel elem_of x l); simpl; lia.
Qed.

(** X15.  [depth_summary] and [get_all_depths] agree on the depths, and
    the summary accounts for every edge that carries a depth exactly once:
    the edge counts of its rows add up to the number of such edges, and in
    each row the number of functions is at least one and at most the number
    of edges. *)
Theorem depth_summary_counts_every_edge c es :
  t_edges (current c) = Some es ->
  exists summary,
    depth_summary c = (Ok summary, c)
    /\ get_all_depths c = (Ok (depth <$> summary), c)
    /\ sum_list (edge_count <$> summary)
       = length (filter (fun e => is_Some (er_depth e)) es)
    /\ forall row, row ∈ summary ->
         (1 <= function_count row)%nat /\ (function_count row <= edge_count row)%nat.
Proof.
  intros He.
  set (groups := merge_sort Z.le (remove_dups (omap er_depth es))).
  set (row_of := fun d =>
         let g := edges_of_depth d es in
         mkDepthRow d (length (remove_dups (er_caller_function_id <$> g))) (length g)).
  assert (depth_summary c = (Ok (row_of <$> groups), c)) as Hs.
  { unfold depth_summary. rewrite execute_spec. unfold sql_depth_summary.
    by rewrite He, connection_eta. }
  assert (depth <$> (row_of <$> groups) = groups) as Hd.
  { rewrite <- list_fmap_compose. transitivity (id <$> groups); [|apply list_fmap_id].
    by apply list_fmap_ext. }
  assert (forall d, d ∈ groups <-> exists e, e ∈ es /\ er_depth e = Some d) as Hg.
  { intros d. unfold groups.
    rewrite merge_sort_Permutation, elem_of_remove_dups, list_elem_of_omap. done. }
  exists (row_of <$> groups). split; [done|]. split; [|split].
  - unfold get_all_depths, bind. rewrite execute_spec. unfold sql_all_depths.
    rewrite He, connection_eta. fold groups. unfold ret. by rewrite list_fmap_id, Hd.
  - rewrite <- list_fmap_compose.
    transitivity (sum_list ((fun d => length (edges_of_depth d es)) <$> groups)).
    { reflexivity. }
    apply sum_edges_of_depth.
    + unfold groups. rewrite merge_sort_Permutation. apply NoDup_remove_dups.
    + intros e d Hin Hdepth. apply Hg. eauto.
  - intros row (d & -> & (e & Hin & Hdepth)%Hg)%list_elem_of_fmap. simpl. split.
    + assert (er_caller_function_id e
              ∈ remove_dups (er_caller_function_id <$> edges_of_depth d es)) as Hc.
      { apply elem_of_remove_dups, list_elem_of_fmap. exists e. split; [done|].
        by apply list_elem_of_filter. }
      destruct (remove_dups (er_caller_function_id <$> edges_of_depth d es));
        [by apply elem_of_nil in Hc | simpl; lia].
    + etransitivity; [apply remove_dups_length_le|]. by rewrite length_fmap.
Qed.

Lemma depth_summary_counts_every_edge_witness :
  t_edges (current Scenario.island) = Some Scenario.island_edges
  /\ exists summary,
       depth_summary Scenario.island = (Ok summary, Scenario.island)
       /\ get_all_depths Scenario.island = (Ok (depth <$> summary), Scenario.island)
       /\ sum_list (edge_count <$> summary)
          = length (filter (fun e => is_Some (er_depth e)) Scenario.island_edges)
       /\ forall row, row ∈ summary ->
            (1 <= function_count row)%nat /\ (function_count row <= edge_count row)%nat.
Proof.
  split; [reflexivity|].
  exact (depth_summary_counts_every_edge Scenario.island Scenario.island_edges eq_refl).
Defined.

Lemma filter_none {A} (P : A -> Prop) `{forall x, Decision (P x)} (l : list A) :
  (forall x, x ∈ l -> ~ P x) -> filter P l = [].
Proof.
  induction l as [|x l IH]; intros Hn; [done|].
  rewrite filter_cons, decide_False by (apply Hn, list_elem_of_here).
  apply IH. intros y Hy. by apply Hn, list_elem_of_further.
Qed.

(** With [id] as a key of the table, the join on an id finds the row the
    key designates, or nothing. *)
Lemma filter_key (k : string) (fs : list FunctionRow) :
  NoDup (fn_id <$> fs) ->
  filter (fun f => k = fn_id f) fs = option_list (lookup_key fn_id k fs).
Proof.
  induction fs as [|f fs IH]; intros Hnd; [done|].
  rewrite fmap_cons in Hnd. apply NoDup_cons in Hnd as [Hf Hnd].
  rewrite filter_cons. cbn [lookup_key].
  destruct (decide (k = fn_id f)) as [->|Hne].
  - rewrite decide_True by done. simpl. f_equal. apply filter_none.
    intros g Hg Heq. apply Hf. rewrite Heq. by apply list_elem_of_fmap_2.
  - rewrite decide_False by congruence. by apply IH.
Qed.

Lemma filter_and_const {A} (Q : A -> Prop) (P : Prop)
    `{forall x, Decision (Q x)} `{Decision P} (l : list A) :
  filter (fun x => Q x /\ P) l = if decide P then filter Q l else [].
Proof.
  destruct (decide P) as [HP|HP].
  - apply list_filter_iff. intros x. split; [by intros [? _] | by split].
  - apply filter_none. by intros x _ [_ ?].
Qed.

Lemma lookup_key_is_Some {R} (key : R -> string) (k : string) (rows : list R) :
  k ∈ key <$> rows -> is_Some (lookup_key key k rows).
Proof.
  induction rows as [|r rows IH]; [by intros ?%elem_of_nil|].
  rewrite fmap_cons. cbn [lookup_key]. intros Hin.
  destruct (decide (key r = k)) as [|Hne]; [by eexists|].
  apply elem_of_cons in Hin as [->|Hin]; [done|]. by apply IH.
Qed.

Lemma omap_length_all {A B} (f : A -> option B) (l : list A) :
  (forall x, x ∈ l -> is_Some (f x)) -> length (omap f l) = length l.
Proof.
  induction l as [|x l IH]; intros Hall; [done|]. cbn [omap list_omap].
  destruct (Hall x (list_elem_of_here _ _)) as [y ->]. simpl. f_equal.
  apply IH. intros z Hz. by apply Hall, list_elem_of_further.
Qed.

Lemma edges_at_depth_join (d : Z) (es : list EdgeRow) (fs : list FunctionRow) :
  NoDup (fn_id <$> fs) ->
  es ≫= (fun e =>
    filter (fun caller => er_caller_function_id e = fn_id caller) fs ≫= (fun caller =>
    filter (fun callee => er_callee_function_id e = fn_id callee
                          /\ er_depth e = Some d) fs
      ≫= (fun callee => [(fn_name caller, fn_name callee)])))
  = omap (edge_names fs) (edges_of_depth d es).
Proof.
  intros Hnd. induction es as [|e es IH]; [done|].
  rewrite bind_cons, IH. unfold edges_of_depth. rewrite filter_cons.
  rewrite filter_key, filter_and_const, filter_key by done.
  unfold edge_names at 2.
  destruct (decide (er_depth e = Some d)) as [Hd|Hd].
  - cbn [omap list_omap]. unfold edge_names at 1.
    destruct (lookup_key fn_id (er_caller_function_id e) fs) as [f|]; [|done].
    destruct (lookup_key fn_id (er_callee_function_id e) fs) as [g|]; done.
  - destruct (lookup_key fn_id (er_caller_function_id e) fs) as [f|]; done.
Qed.

(** X16.  With [id] a key of the functions table, [edges_at_depth]
    returns, ordered by caller name and then callee name, one pair of names
    for each stored edge of that depth whose two ends are stored functions,
    and nothing else; when every edge of that depth has both ends stored,
    the number of pairs is the number of edges of that depth, the edge count
    that [depth_summary] reports for it. *)
Theorem edges_at_depth_lists_stored_edges d c es fs :
  t_edges (current c) = Some es -> t_functions (current c) = Some fs ->
  NoDup (fn_id <$> fs) ->
  exists pairs,
    edges_at_depth d c = (Ok pairs, c)
    /\ StronglySorted names_le pairs
    /\ pairs ≡ₚ omap (edge_names fs) (edges_of_depth d es)
    /\ ((forall e, e ∈ es -> er_depth e = Some d ->
           er_caller_function_id e ∈ fn_id <$> fs
           /\ er_callee_function_id e ∈ fn_id <$> fs) ->
        length pairs = length (edges_of_depth d es)).
Proof.
  intros He Hf Hnd.
  exists (merge_sort names_le (omap (edge_names fs) (edges_of_depth d es))).
  split; [|split; [|split]].
  - unfold edges_at_depth, bind. rewrite execute_spec. unfold sql_edges_at_depth.
    rewrite He, Hf, connection_eta, edges_at_depth_join by done. unfold ret. f_equal. f_equal.
    transitivity (id <$> merge_sort names_le (omap (edge_names fs) (edges_of_depth d es)));
      [|apply list_fmap_id].
    apply list_fmap_ext. by intros _ [a b] _.
  - apply StronglySorted_merge_sort; apply _.
  - apply merge_sort_Permutation.
  - intros Hall. rewrite merge_sort_Permutation. apply omap_length_all.
    intros e [Hd Hin]%list_elem_of_filter. destruct (Hall e Hin Hd) as [Hc Hg].
    unfold edge_names.
    destruct (lookup_key_is_Some fn_id _ fs Hc) as [f ->].
    destruct (lookup_key_is_Some fn_id _ fs Hg) as [g ->]. by eexists.
Qed.

Lemma edges_at_depth_lists_stored_edges_witness :
  t_edges (current Scenario.island) = Some Scenario.island_edges
  /\ NoDup (fn_id <$> [mkFunctionRow "f1" "main" None None; mkFunctionRow "f2" "a" None None;
                       mkFunctionRow "f4" "d" None None])
  /\ edges_at_depth 5 Scenario.island = (Ok [("d", "a")], Scenario.island).
Proof.
  assert (NoDup (fn_id <$> [mkFunctionRow "f1" "main" None None;
                            mkFunctionRow "f2" "a" None None;
                            mkFunctionRow "f4" "d" None None])) as Hnd
    by compute_done.
  split; [reflexivity|]. split; [exact Hnd|].
  destruct (edges_at_depth_lists_stored_edges 5 Scenario.island Scenario.island_edges _
              eq_refl eq_refl Hnd) as (pairs & -> & _ & Hp & _).
  apply Permutation_singleton_r in Hp. by rewrite Hp.
Defined.

(** X17.  [function_detail] reports no function exactly when no stored
    function has the given id or name (or the functions table is missing).
    Otherwise the function it shows is the first stored row that matches,
    by id or by name, and the callers and callees it lists are those that
    [get_callers] and [get_callees] return for the same argument. *)
Theorem function_detail_first_match function c :
  (function_detail function c = (Ok None, c) <->
   forall fs, t_functions (current c) = Some fs ->
              forall f, f ∈ fs -> ~ matches_root function f)
  /\ forall detail, function_detail function c = (Ok (Some detail), c) ->
       (exists pre post,
          t_functions (current c) = Some (pre ++ d_function detail :: post)%list
          /\ matches_root function (d_function detail)
          /\ forall f, f ∈ pre -> ~ matches_root function f)
       /\ get_callers function c = (Ok (d_callers detail), c)
       /\ get_callees function c = (Ok (d_callees detail), c).
Proof.
  destruct (execute_read _ c (sql_callees_read function)) as [r2 H2].
  destruct (execute_read _ c (sql_callers_read function)) as [r3 H3].
  destruct (execute_read _ c (sql_callsites_of_read function)) as [r7 H7].
  assert (DB.execute (sql_function_info function) c
          = (Ok (match t_functions (current c) with
                 | Some fs => filter (matches_root function) fs
                 | None => []
                 end), c)) as H6.
  { rewrite execute_spec. unfold sql_function_info.
    destruct (t_functions (current c)); [by rewrite connection_eta | done]. }
  assert (function_detail function c
          = (Ok (match (match t_functions (current c) with
                        | Some fs => filter (matches_root function) fs
                        | None => []
                        end) with
                 | [] => None
                 | func_info :: _ => Some (mkDetail func_info r3 r2 r7)
                 end), c)) as Hd.
  { unfold function_detail, bind. rewrite H6.
    destruct (match t_functions (current c) with Some _ => _ | None => _ end); [done|].
    unfold get_callers, get_callees in *. by rewrite H3, H2, H7. }
  rewrite Hd. split.
  - destruct (t_functions (current c)) as [fs|]; [|done].
    destruct (filter (matches_root function) fs) as [|f l] eqn:E.
    + split; [|done]. intros _ fs' [= <-] f Hf Hm.
      assert (f ∈ filter (matches_root function) fs) as Hin by (by apply list_elem_of_filter).
      rewrite E in Hin. by apply elem_of_nil in Hin.
    + split; [done|]. intros Hn. exfalso.
      assert (f ∈ filter (matches_root function) fs) as [Hm Hin]%list_elem_of_filter
        by (rewrite E; apply list_elem_of_here).
      by apply (Hn fs eq_refl f).
  - intros detail Heq. destruct (t_functions (current c)) as [fs|]; [|done].
    destruct (filter (matches_root function) fs) as [|f l] eqn:E; [done|].
    injection Heq as <-. simpl. split; [|done].
    assert (head (filter (matches_root function) fs) = Some f) as Hh by (by rewrite E).
    apply head_filter_first in Hh as (pre & post & -> & Hm & Hpre).
    by exists pre, post.
Qed.

End QueriesMore.

(** ** The file entry point and the command that loads a file *)

Section EntryPoints.
Import Model Validator Engine Writer Files Cli.

Lemma new_Function_raises id name file signature e :
  new_Function id name file signature = Raise e ->
  exists errors, e = PydanticValidationError "Function" errors.
Proof.
  unfold new_Function.
  destruct (required_str not_empty id), (required_str not_empty name),
    (optional_str file), (optional_str signature); intros [= <-]; by eexists.
Qed.

Lemma new_CallSite_raises id caller callee file line e :
  new_CallSite id caller callee file line = Raise e ->
  exists errors, e = PydanticValidationError "CallSite" errors.
Proof.
  unfold new_CallSite.
  destruct (required_str not_empty id), (required_str not_empty caller),
    (required_str not_empty callee), (optional_str file), (valid_line line);
    intros [= <-]; by eexists.
Qed.

Lemma new_Edge_raises caller callee callsite_id e :
  new_Edge caller callee callsite_id = Raise e ->
  exists errors, e = PydanticValidationError "Edge" errors.
Proof.
  unfold new_Edge.
  destruct (required_str not_empty caller), (required_str not_empty callee),
    (optional_str callsite_id); intros [= <-]; by eexists.
Qed.

Lemma rmap_raises {A B} (f : A -> result B) (xs : list A) e :
  rmap f xs = Raise e -> exists x, x ∈ xs /\ f x = Raise e.
Proof.
  induction xs as [|x xs IH]; simpl; [done|].
  destruct (f x) as [y|e'] eqn:E; simpl.
  - destruct (rmap f xs) as [ys|e'']; simpl; [done|].
    intros [= ->]. destruct IH as (x' & Hin & Hx); [done|].
    exists x'. split; [by apply list_elem_of_further | done].
  - intros [= ->]. exists x. split; [apply list_elem_of_here | done].
Qed.

(** The only exception of [from_dict] is pydantic's validation error. *)
Lemma from_dict_raises data e :
  from_dict data = Raise e -> exists model errors, e = PydanticValidationError model errors.
Proof.
  unfold from_dict.
  destruct (rmap parse_function _) as [fs|e1] eqn:Ef; simpl.
  - destruct (rmap parse_callsite _) as [css|e2] eqn:Ec; simpl.
    + destruct (default [] (data !! "edges")) as [|e0 es0] eqn:Ed.
      * destruct (rmap derive_edge css) as [es|e3] eqn:Ee; simpl; [done|].
        intros [= ->]. apply rmap_raises in Ee as (x & _ & Hx).
        apply new_Edge_raises in Hx as [errs ->]. by eexists _, _.
      * destruct (rmap parse_edge (e0 :: es0)) as [es|e3] eqn:Ee; simpl; [done|].
        intros [= ->]. apply rmap_raises in Ee as (x & _ & Hx).
        apply new_Edge_raises in Hx as [errs ->]. by eexists _, _.
    + intros [= ->]. apply rmap_raises in Ec as (x & _ & Hx).
      apply new_CallSite_raises in Hx as [errs ->]. by eexists _, _.
  - intros [= ->]. apply rmap_raises in Ef as (x & _ & Hx).
    apply new_Function_raises in Hx as [errs ->]. by eexists _, _.
Qed.

(** The only exception of [validate_callgraph] is its ValidationError. *)
Lemma validate_callgraph_raises g e :
  validate_callgraph g = Raise e -> exists msg, e = ValidationError msg.
Proof.
  rewrite validate_callgraph_closed. cbv zeta.
  repeat (match goal with |- context [if ?b then _ else _] => destruct b end;
          [intros [= <-]; by eexists|]).
  done.
Qed.

(** X18.  [validate_json_file] returns a graph exactly when the path is a
    readable file that decodes to a document which [from_dict] accepts and
    whose graph satisfies [valid_graph]; it then returns that graph.
    Otherwise it raises: the FileNotFoundError or ValueError of [read_json],
    the UnicodeDecodeError of the decoding, pydantic's error of [from_dict]
    and the ValidationError of [validate_callgraph] as they were raised; and
    a ValidationError that wraps the text of the exception for a file that
    cannot be opened and for a JSON value that is not an object, on which
    [from_dict] raises an AttributeError. *)
Theorem validate_json_file_returns_valid_graphs path n :
  (forall g, validate_json_file path n = Returns g <->
     exists data, n = File (Value (Object data)) /\ from_dict data = Ok g /\ valid_graph g)
  /\ match n with
     | Absent =>
         validate_json_file path n = Raises (FileNotFoundError ("File not found: " ++ path))
     | NotAFile =>
         validate_json_file path n = Raises (ValueError ("Not a file: " ++ path))
     | Unreadable reason =>
         validate_json_file path n
         = Raises (Raised (ValidationError ("Validation failed: " ++ reason)))
     | File (InvalidUtf8 detail) =>
         validate_json_file path n = Raises (UnicodeDecodeError detail)
     | File (JSONDecodeError detail) =>
         validate_json_file path n
         = Raises (ValueError ("Invalid JSON in " ++ path ++ ": " ++ detail))
     | File (Value (NotObject type_name)) =>
         validate_json_file path n
         = Raises (Raised (ValidationError
                             ("Validation failed: '" ++ type_name
                              ++ "' object has no attribute 'get'")))
     | File (Value (Object data)) =>
         match from_dict data with
         | Raise e =>
             validate_json_file path n = Raises (Raised e)
             /\ exists model errors, e = PydanticValidationError model errors
         | Ok g =>
             match validate_callgraph g with
             | Ok _ => validate_json_file path n = Returns g
             | Raise e =>
                 validate_json_file path n = Raises (Raised e)
                 /\ exists msg, e = ValidationError msg
             end
         end
     end.
Proof.
  unfold validate_json_file.
  destruct n as [| |reason|[detail|detail|[data|type_name]]]; simpl;
    try (split; [|done]; intros g; split; [done|]; by intros (? & ? & _)).
  destruct (from_dict data) as [g0|e0] eqn:Ed; simpl.
  - destruct (validate_callgraph g0) as [[]|e1] eqn:Ev; simpl.
    + split; [|done]. intros g. split.
      * intros [= <-]. exists data. split; [done|]. split; [done|].
        by apply validate_accepts_valid.
      * intros (data' & [= <-] & Hd & _). rewrite Ed in Hd. by injection Hd as ->.
    + destruct (validate_callgraph_raises _ _ Ev) as [msg ->]. simpl. split.
      * intros g. split; [done|]. intros (data' & [= <-] & Hd & Hv).
        rewrite Ed in Hd. injection Hd as ->.
        apply valid_validate_accepts in Hv. by rewrite Hv in Ev.
      * split; [done|]. by exists msg.
  - destruct (from_dict_raises _ _ Ed) as (model & errors & ->). simpl. split.
    + intros g. split; [done|]. intros (data' & [= <-] & Hd & _). by rewrite Ed in Hd.
    + split; [done|]. by exists model, errors.
Qed.




End EntryPoints.
